(** * Lazy C: the semicolon classifier and the prototype generator

    A shallow embedding of [shouldAddSemicolon] and [autoGeneratePrototypes]
    of [src/extension.ts].  Both functions are regular-expression tests
    over JavaScript strings, so the development has three layers:

    - JavaScript strings as sequences of UTF-16 code units, with the string
      methods the source calls ([trim], [startsWith], [endsWith], [split],
      [slice], [join]);
    - a backtracking matcher for the regular-expression constructs the
      source uses, together with a relational semantics it is proved
      equivalent to;
    - the two functions, each regular expression written as a term that
      mirrors its source text. *)

From Stdlib Require Import String Ascii.
From Stdlib Require Import List Bool Arith NArith Lia.
Import ListNotations.

Set Implicit Arguments.

(** ** JavaScript strings *)

Module JS.

(** A string is a sequence of UTF-16 code units. *)
Definition char := N.
Definition jsstring := list char.

(** A source literal, character by character (all literals of the source
    are ASCII). *)
Definition str (s : string) : jsstring :=
  map N_of_ascii (list_ascii_of_string s).

(** The character class [\s], which is also the set [trim] strips:
    WhiteSpace and LineTerminator of ECMAScript. *)
Definition is_space (c : char) : bool :=
  ((9 <=? c) && (c <=? 13) || (c =? 32) || (c =? 160) || (c =? 5760)
   || (8192 <=? c) && (c <=? 8202) || (c =? 8232) || (c =? 8233)
   || (c =? 8239) || (c =? 8287) || (c =? 12288) || (c =? 65279))%N.

(** The character class [\w]: [A-Za-z0-9_]. *)
Definition is_word (c : char) : bool :=
  ((48 <=? c) && (c <=? 57) || (65 <=? c) && (c <=? 90) || (c =? 95)
   || (97 <=? c) && (c <=? 122))%N.

(** [[a-zA-Z_]] *)
Definition is_ident_start (c : char) : bool :=
  ((97 <=? c) && (c <=? 122) || (65 <=? c) && (c <=? 90) || (c =? 95))%N.

Fixpoint eqb (s t : jsstring) : bool :=
  match s, t with
  | [], [] => true
  | a :: s', b :: t' => (a =? b)%N && eqb s' t'
  | _, _ => false
  end.

Fixpoint dropWhile (f : char -> bool) (s : jsstring) : jsstring :=
  match s with
  | [] => []
  | c :: t => if f c then dropWhile f t else s
  end.

Definition trimStart (s : jsstring) : jsstring := dropWhile is_space s.
Definition trimEnd (s : jsstring) : jsstring := rev (dropWhile is_space (rev s)).
Definition trim (s : jsstring) : jsstring := trimEnd (trimStart s).

Fixpoint startsWith (s p : jsstring) {struct p} : bool :=
  match p with
  | [] => true
  | a :: p' =>
      match s with
      | b :: s' => (a =? b)%N && startsWith s' p'
      | [] => false
      end
  end.

Definition endsWith (s p : jsstring) : bool := startsWith (rev s) (rev p).

(** [s.split('\n')]: never empty, [""] for the empty string. *)
Definition newline : char := 10%N.

Fixpoint split_lines (s : jsstring) : list jsstring :=
  match s with
  | [] => [[]]
  | c :: t =>
      if (c =? newline)%N then [] :: split_lines t
      else match split_lines t with
           | [] => [[c]]
           | l :: ls => (c :: l) :: ls
           end
  end.

(** [a.join('\n')] *)
Fixpoint join_lines (a : list jsstring) : jsstring :=
  match a with
  | [] => []
  | [l] => l
  | l :: ls => l ++ newline :: join_lines ls
  end.

(** [a.slice(from, to)] for [0 <= from]. *)
Definition slice {A} (a : list A) (from to : nat) : list A :=
  firstn (to - from) (skipn from a).

End JS.

Import JS.

(** ** Regular expressions *)

Module Regex.

(** The constructs that occur in the source.  [Cls] is a one-character
    matcher (a literal, a class or a negated class); [Star] is the greedy
    [*]; [Group] is a capturing group with its number; [Bol] and [Eol] are
    [^] and [$] without the multiline flag; [WordB] is [\b]; [NegLook] is
    the negative lookahead [(?!...)]. *)
Inductive regex :=
| Eps
| Cls (f : char -> bool)
| Seq (r1 r2 : regex)
| Alt (r1 r2 : regex)
| Star (r : regex)
| Group (i : nat) (r : regex)
| Bol
| Eol
| WordB
| NegLook (r : regex).

(** A position in the input: the code units before it, nearest first,
    and the code units after it. *)
Record pos := Pos { before : jsstring; after : jsstring }.

(** Captures: the most recent binding of a group comes first. *)
Definition caps := list (nat * jsstring).

Fixpoint capture (i : nat) (c : caps) : option jsstring :=
  match c with
  | [] => None
  | (j, s) :: c' => if Nat.eqb i j then Some s else capture i c'
  end.

Definition mstate := (pos * caps)%type.
Definition cont := pos -> caps -> option mstate.

(** The text consumed between an earlier and a later position. *)
Definition consumed (p p' : pos) : jsstring :=
  firstn (length (after p) - length (after p')) (after p).

(** IsWordChar on each side of the position differs. *)
Definition word_before (p : pos) : bool :=
  match before p with [] => false | c :: _ => is_word c end.
Definition word_after (p : pos) : bool :=
  match after p with [] => false | c :: _ => is_word c end.
Definition at_word_boundary (p : pos) : bool :=
  xorb (word_before p) (word_after p).

(** The greedy [*] over a matcher [step] for the body: one more iteration
    is tried before stopping, and an iteration that consumes nothing is
    rejected.  Every accepted iteration consumes input, so the number [n]
    of code units left bounds the number of iterations. *)
Fixpoint star_loop (step : pos -> caps -> cont -> option mstate)
    (n : nat) (p : pos) (c : caps) (k : cont) : option mstate :=
  match n with
  | 0 => k p c
  | S n' =>
      match step p c (fun p' c' =>
              if length (after p') <? length (after p)
              then star_loop step n' p' c' k else None) with
      | Some res => Some res
      | None => k p c
      end
  end.

(** The backtracking matcher, in continuation-passing style as in the
    ECMAScript specification: alternatives are tried left to right and the
    continuation [k] is the rest of the pattern. *)
Fixpoint run (r : regex) (p : pos) (c : caps) (k : cont) : option mstate :=
  match r with
  | Eps => k p c
  | Cls f =>
      match after p with
      | x :: t => if f x then k (Pos (x :: before p) t) c else None
      | [] => None
      end
  | Seq r1 r2 => run r1 p c (fun p' c' => run r2 p' c' k)
  | Alt r1 r2 =>
      match run r1 p c k with
      | Some res => Some res
      | None => run r2 p c k
      end
  | Star r1 => star_loop (run r1) (length (after p)) p c k
  | Group i r1 => run r1 p c (fun p' c' => k p' ((i, consumed p p') :: c'))
  | Bol => match before p with [] => k p c | _ :: _ => None end
  | Eol => match after p with [] => k p c | _ :: _ => None end
  | WordB => if at_word_boundary p then k p c else None
  | NegLook r1 =>
      match run r1 p c (fun p' c' => Some (p', c')) with
      | Some _ => None
      | None => k p c
      end
  end.

Definition accept : cont := fun p c => Some (p, c).

(** [RegExpBuiltinExec] without the global and sticky flags: the first
    start index, from 0 to the length of the input, at which the pattern
    matches. *)
Fixpoint exec_from (r : regex) (bef aft : jsstring) : option mstate :=
  match run r (Pos bef aft) [] accept with
  | Some res => Some res
  | None =>
      match aft with
      | [] => None
      | x :: t => exec_from r (x :: bef) t
      end
  end.

Definition exec (r : regex) (s : jsstring) : option mstate := exec_from r [] s.

(** [r.test(s)] *)
Definition test (r : regex) (s : jsstring) : bool :=
  match exec r s with Some _ => true | None => false end.

(** Derived forms. *)
Definition chr (a : ascii) : regex := Cls (N.eqb (N_of_ascii a)).
Arguments chr a%_char.
Definition one_of (s : jsstring) : regex :=
  Cls (fun c => existsb (N.eqb c) s).
Definition none_of (s : jsstring) : regex :=
  Cls (fun c => negb (existsb (N.eqb c) s)).
Definition space : regex := Cls is_space.
Definition word : regex := Cls is_word.
Definition Plus (r : regex) : regex := Seq r (Star r).

Fixpoint lit (s : jsstring) : regex :=
  match s with
  | [] => Eps
  | c :: t => Seq (Cls (N.eqb c)) (lit t)
  end.

Fixpoint alts (rs : list regex) : regex :=
  match rs with
  | [] => Cls (fun _ => false)
  | [r] => r
  | r :: rs' => Alt r (alts rs')
  end.

Definition words (ws : list string) : regex := alts (map (fun w => lit (str w)) ws).

(** Patterns without a capturing group. *)
Fixpoint plain (r : regex) : bool :=
  match r with
  | Seq r1 r2 | Alt r1 r2 => plain r1 && plain r2
  | Star r1 => plain r1
  | Group _ _ => false
  | _ => true
  end.

End Regex.

Import Regex.

Declare Scope regex_scope.
Delimit Scope regex_scope with re.
Bind Scope regex_scope with regex.
Notation "r1 ;; r2" := (Seq r1 r2) (right associativity, at level 61) : regex_scope.

(** ** The semicolon classifier, [shouldAddSemicolon] *)

Module Classifier.

Local Open Scope regex_scope.
Local Open Scope string_scope.

Definition basicTypes : list string :=
  ["int"; "void"; "char"; "float"; "double"; "long"; "short"; "unsigned"; "signed"].

(** Line 250: a structural character in [{},:\] at the end. *)
Definition endsStructural : regex :=
  one_of (str "{},:\") ;; Eol.

(** Line 253: [^#], [^//], [^/*] or [*/$]. *)
Definition directiveOrComment : regex :=
  Alt (Bol ;; lit (str "#"))
 (Alt (Bol ;; lit (str "//"))
 (Alt (Bol ;; lit (str "/*"))
      (lit (str "*/") ;; Eol))).

(** Line 256: [^\s*], group 1 of [if|else\s+if|else|while|for|do|switch],
    then [\b]. *)
Definition controlKeyword : regex :=
  Bol ;; Star space ;;
  Group 1 (alts [lit (str "if");
                 lit (str "else") ;; Plus space ;; lit (str "if");
                 lit (str "else"); lit (str "while"); lit (str "for");
                 lit (str "do"); lit (str "switch")]) ;;
  WordB.

(** Line 257: [^\s*], group 1 of [case|default], then [\b]. *)
Definition switchLabel : regex :=
  Bol ;; Star space ;; Group 1 (words ["case"; "default"]) ;; WordB.

(** Line 260: [^\s*], group 1 of the basic types, [\s+], [\w+], [\s*],
    an opening parenthesis, any run without a closing parenthesis, a
    closing parenthesis, [\s*], [$]. *)
Definition bareSignature : regex :=
  Bol ;; Star space ;; Group 1 (words basicTypes) ;; Plus space ;;
  Plus word ;; Star space ;;
  chr "(" ;; Star (none_of (str ")")) ;; chr ")" ;;
  Star space ;; Eol.

(** Line 263: [^\s*], group 1 of [struct|union|enum|typedef], then [\b]. *)
Definition typeDefinition : regex :=
  Bol ;; Star space ;; Group 1 (words ["struct"; "union"; "enum"; "typedef"]) ;;
  WordB.

(** Line 266: [^\s*], one brace, [\s*], [$]. *)
Definition loneBrace : regex :=
  Bol ;; Star space ;; one_of (str "{}") ;; Star space ;; Eol.

(** Lines 269-276, in the order of the array. *)
Definition declarationShape : regex :=
  Bol ;; Star space ;;
  Group 1 (words ["int"; "char"; "float"; "double"; "void"; "long"; "short";
                  "unsigned"; "signed"; "const"; "static"; "extern"; "auto";
                  "register"]) ;;
  Plus space ;; Plus word.

(** [\w+\s*=\s*] and one character that is not [=]. *)
Definition assignmentShape : regex :=
  Plus word ;; Star space ;; chr "=" ;; Star space ;; none_of (str "=").

Definition jumpShape : regex :=
  Bol ;; Star space ;; Group 1 (words ["return"; "break"; "continue"; "goto"]) ;;
  WordB.

(** [\w+\s*], a parenthesised run without a closing parenthesis, not
    followed by [\s*] and an opening brace. *)
Definition callShape : regex :=
  Plus word ;; Star space ;;
  chr "(" ;; Star (none_of (str ")")) ;; chr ")" ;;
  NegLook (Star space ;; chr "{").

(** [\w+\s*], a bracketed run without a closing bracket, [\s*=]. *)
Definition indexedAssignmentShape : regex :=
  Plus word ;; Star space ;;
  chr "[" ;; Star (none_of (str "]")) ;; chr "]" ;;
  Star space ;; chr "=".

(** A star, [\w+\s*=]. *)
Definition derefAssignmentShape : regex :=
  chr "*" ;; Plus word ;; Star space ;; chr "=".

Definition needsSemicolonPatterns : list regex :=
  [declarationShape; assignmentShape; jumpShape; callShape;
   indexedAssignmentShape; derefAssignmentShape].

Definition shouldAddSemicolon (text : jsstring) : bool :=
  let trimmed := trim text in
  match trimmed with
  | [] => false
  | _ :: _ =>
      if endsWith trimmed (str ";") then false
      else if test endsStructural trimmed then false
      else if test directiveOrComment trimmed then false
      else if test controlKeyword trimmed then false
      else if test switchLabel trimmed then false
      else if test bareSignature trimmed then false
      else if test typeDefinition trimmed then false
      else if test loneBrace trimmed then false
      else existsb (fun pattern => test pattern trimmed) needsSemicolonPatterns
  end.

End Classifier.

(** ** The prototype generator, [autoGeneratePrototypes] *)

Module Synthesizer.

Import Classifier.
Local Open Scope regex_scope.
Local Open Scope string_scope.

Record func := Func { name : jsstring; prototype : jsstring }.

(** Lines 295-300: the index of the last line whose trimmed text starts
    with [#include]; [None] is the source's [-1]. *)
Fixpoint scanIncludes (ls : list jsstring) (i : nat) (last : option nat)
  : option nat :=
  match ls with
  | [] => last
  | l :: ls' =>
      scanIncludes ls' (S i)
        (if startsWith (trim l) (str "#include") then Some i else last)
  end.

Definition lastIncludeLine (lines : list jsstring) : option nat :=
  scanIncludes lines 0 None.

(** Line 307: [^\s*], group 1 of [int|void], [\s+main\s*] and an opening
    parenthesis. *)
Definition mainPattern : regex :=
  Bol ;; Star space ;; Group 1 (words ["int"; "void"]) ;; Plus space ;;
  lit (str "main") ;; Star space ;; chr "(".

(** Lines 305-311: the first line from index [i] on that matches. *)
Fixpoint scanMain (ls : list jsstring) (i : nat) : option nat :=
  match ls with
  | [] => None
  | l :: ls' => if test mainPattern l then Some i else scanMain ls' (S i)
  end.

Definition mainLine (lines : list jsstring) (lastInclude : nat) : option nat :=
  scanMain (skipn (S lastInclude) lines) (S lastInclude).

(** Line 316: [^\s*], group 1 of the basic types, [\s+], group 2 of
    [[a-zA-Z_]\w*], [\s*], an opening parenthesis, group 3 of any run
    without a closing parenthesis, a closing parenthesis, [\s*], an
    opening brace. *)
Definition functionPattern : regex :=
  Bol ;; Star space ;; Group 1 (words basicTypes) ;; Plus space ;;
  Group 2 (Cls is_ident_start ;; Star word) ;; Star space ;;
  chr "(" ;; Group 3 (Star (none_of (str ")"))) ;; chr ")" ;;
  Star space ;; chr "{".

(** [match[i]]; the three groups take part in every match of
    [functionPattern]. *)
Definition group (i : nat) (c : caps) : jsstring :=
  match capture i c with Some s => s | None => [] end.

(** Lines 320-332, for one line. *)
Definition scanLine (line : jsstring) : list func :=
  match exec functionPattern line with
  | None => []
  | Some (_, c) =>
      let returnType := group 1 c in
      let functionName := group 2 c in
      let parameters := trim (group 3 c) in
      if eqb functionName (str "main") then []
      else [Func functionName
              (returnType ++ str " " ++ functionName ++ str "(" ++ parameters
               ++ str ");")%list]
  end.

Definition foundFunctions (lines : list jsstring) (main : nat) : list func :=
  flat_map scanLine (skipn (S main) lines).

(** Line 340: the pattern of an existing declaration, [\b], the name,
    [\s*], a parenthesised run without a closing parenthesis, [\s*] and a
    semicolon.  The source builds it from text with the name spliced in.
    For a name of word characters the splice adds no metacharacter and the
    text denotes the pattern below; on any other name the constructor is
    not modelled ([None]: it may read the name as pattern syntax or throw
    a SyntaxError). *)
Definition declarationOf (name : jsstring) : regex :=
  WordB ;; lit name ;; Star space ;;
  chr "(" ;; Star (none_of (str ")")) ;; chr ")" ;;
  Star space ;; chr ";".

Definition newRegExp (name : jsstring) : option regex :=
  if forallb is_word name then Some (declarationOf name) else None.

(** Lines 339-342: [filter], whose callback may throw. *)
Fixpoint filterMissing (prototypeArea : jsstring) (fs : list func)
  : option (list func) :=
  match fs with
  | [] => Some []
  | f :: fs' =>
      match newRegExp (name f) with
      | None => None
      | Some pattern =>
          let keep := negb (test pattern prototypeArea) in
          match filterMissing prototypeArea fs' with
          | None => None
          | Some rest => Some (if keep then f :: rest else rest)
          end
      end
  end.

Definition prototypeArea (lines : list jsstring) (lastInclude main : nat)
  : jsstring :=
  join_lines (slice lines (S lastInclude) main).

(** Lines 291-342, past the guards of lines 286-289 (no edit in progress,
    the document is the one of the active editor): the missing prototypes,
    [Some []] where the source returns early, [None] where it throws. *)
Definition missingPrototypes (text : jsstring) : option (list func) :=
  let lines := split_lines text in
  match lastIncludeLine lines with
  | None => Some []
  | Some lastInclude =>
      match mainLine lines lastInclude with
      | None => Some []
      | Some main =>
          match foundFunctions lines main with
          | [] => Some []
          | found => filterMissing (prototypeArea lines lastInclude main) found
          end
      end
  end.

(** The declarations the generator produces, in the order it inserts
    them (line 349). *)
Definition synthesize (text : jsstring) : option (list jsstring) :=
  option_map (map prototype) (missingPrototypes text).

(** [editBuilder.insert(new Position(line, 0), ins)] on the text of the
    document: [ins] goes in front of the given line, and at the end of a
    document that has fewer lines.  The text is inserted as it is. *)
Fixpoint insertAtLine (line : nat) (ins text : jsstring) : jsstring :=
  match line with
  | 0 => (ins ++ text)%list
  | S line' =>
      match text with
      | [] => ins
      | c :: t =>
          c :: insertAtLine (if (c =? newline)%N then line' else line) ins t
      end
  end.

(** Lines 344-351: the document after the edit. *)
Definition insertPrototypes (text : jsstring) (protos : list jsstring)
  : jsstring :=
  match lastIncludeLine (split_lines text) with
  | None => text
  | Some lastInclude =>
      insertAtLine (S lastInclude)
        (newline :: join_lines protos ++ [newline])%list text
  end.

Definition autoGeneratePrototypes (text : jsstring) : option jsstring :=
  match missingPrototypes text with
  | None => None
  | Some [] => Some text
  | Some missing => Some (insertPrototypes text (map prototype missing))
  end.

End Synthesizer.

Import Classifier Synthesizer.


(** ** What a pattern matches *)

Module Sem.

(** Zero or more steps of a relation. *)
Inductive iter (R : mstate -> mstate -> Prop) : mstate -> mstate -> Prop :=
| iter_stop s : iter R s s
| iter_more s s1 s2 : R s s1 -> iter R s1 s2 -> iter R s s2.

(** [matches r s s']: from the position and captures [s] the pattern [r]
    can match and leave the position and captures [s'].  This is the set
    of results the backtracking matcher searches, without the order in
    which it searches them. *)
Fixpoint matches (r : regex) (s s' : mstate) : Prop :=
  match r with
  | Eps => s' = s
  | Cls f =>
      exists x t, after (fst s) = x :: t /\ f x = true /\
                  s' = (Pos (x :: before (fst s)) t, snd s)
  | Seq r1 r2 => exists s1, matches r1 s s1 /\ matches r2 s1 s'
  | Alt r1 r2 => matches r1 s s' \/ matches r2 s s'
  | Star r1 =>
      iter (fun a b => matches r1 a b /\
                       length (after (fst b)) < length (after (fst a))) s s'
  | Group i r1 =>
      exists s1, matches r1 s s1 /\
                 s' = (fst s1, (i, consumed (fst s) (fst s1)) :: snd s1)
  | Bol => before (fst s) = [] /\ s' = s
  | Eol => after (fst s) = [] /\ s' = s
  | WordB => at_word_boundary (fst s) = true /\ s' = s
  | NegLook r1 => (forall s1, ~ matches r1 s s1) /\ s' = s
  end.

(** The pattern matches somewhere in the string. *)
Definition found_in (r : regex) (s : jsstring) : Prop :=
  exists pre post s', s = pre ++ post /\
                      matches r (Pos (rev pre) post, []) s'.

End Sem.

Import Sem.


(** ** Vocabulary of the properties *)

Module Spec.

(** The structural characters of rule 2. *)
Definition structuralChars : jsstring := str "{},:\".

(** The control-flow keywords of rule 4. *)
Definition controlKeywords : list string :=
  ["if"; "else"; "else if"; "while"; "for"; "do"; "switch"]%string.

(** [s] begins with [kw] as a whole word: the keyword is followed by the
    end of the text or by a character outside [\w]. *)
Definition begins_with_word (kw s : jsstring) : Prop :=
  exists rest, s = kw ++ rest /\
               match rest with [] => True | c :: _ => is_word c = false end.

End Spec.

Import Spec.

(** ** Vocabulary of the properties: the prototype generator *)

Module Shape.

Definition spaces (s : jsstring) : Prop := forallb is_space s = true.

(** An identifier: a letter or underscore, then characters of [\w]. *)
Definition identifier (s : jsstring) : Prop :=
  exists c t, s = c :: t /\ is_ident_start c = true /\ forallb is_word t = true.

(** No closing parenthesis. *)
Definition no_rparen (s : jsstring) : Prop :=
  forallb (fun c => negb (existsb (N.eqb c) (str ")"))) s = true.

(** The text does not end with a character of [\w]. *)
Definition no_word_at_end (s : jsstring) : Prop :=
  word_before (Pos (rev s) []) = false.

(** A line that starts an include directive. *)
Definition IncludeLine (line : jsstring) : Prop :=
  exists rest, trim line = str "#include" ++ rest.

(** A line with the signature of the entry point: [int] or [void], the
    name [main] and an opening parenthesis. *)
Definition EntryPointLine (line : jsstring) : Prop :=
  exists ws0 rt ws1 ws2 rest,
    line = ws0 ++ str rt ++ ws1 ++ str "main" ++ ws2 ++ str "(" ++ rest /\
    spaces ws0 /\ In rt ["int"; "void"]%string /\
    ws1 <> [] /\ spaces ws1 /\ spaces ws2.

(** A line that defines a function: a basic type, an identifier, a
    parameter list without a closing parenthesis and an opening brace,
    all on the line. *)
Definition FunctionLine (line returnType name params : jsstring) : Prop :=
  exists ws0 ws1 ws2 ws3 rest,
    line = ws0 ++ returnType ++ ws1 ++ name ++ ws2 ++ str "(" ++ params
           ++ str ")" ++ ws3 ++ str "{" ++ rest /\
    spaces ws0 /\ In returnType (map str basicTypes) /\
    ws1 <> [] /\ spaces ws1 /\ identifier name /\ spaces ws2 /\
    no_rparen params /\ spaces ws3.

(** The prototype of a function. *)
Definition prototypeOf (returnType name params : jsstring) : jsstring :=
  returnType ++ str " " ++ name ++ str "(" ++ trim params ++ str ");".

(** The text contains a declaration of the name: the name, not preceded
    by a character of [\w], a parenthesised argument list without a
    closing parenthesis, and a semicolon, with optional white space
    around the list. *)
Definition DeclaredIn (name area : jsstring) : Prop :=
  exists pre ws1 args ws2 post,
    area = pre ++ name ++ ws1 ++ str "(" ++ args ++ str ")" ++ ws2
           ++ str ";" ++ post /\
    no_word_at_end pre /\ spaces ws1 /\ no_rparen args /\ spaces ws2.

(** The same with an argument list of any content. *)
Definition DeclaredAnyArgs (name area : jsstring) : Prop :=
  exists pre ws1 args ws2 post,
    area = pre ++ name ++ ws1 ++ str "(" ++ args ++ str ")" ++ ws2
           ++ str ";" ++ post /\
    no_word_at_end pre /\ spaces ws1 /\ spaces ws2.

End Shape.

Import Shape.

(** ** The anchors of a document *)

Module Anchors.

Definition isInclude (line : jsstring) : bool :=
  startsWith (trim line) (str "#include").

Definition isMain (line : jsstring) : bool := test mainPattern line.

(** The lines of a document around its last include line and the first
    entry-point line after it. *)
Record layout := Layout {
  head : list jsstring;
  includeLine : jsstring;
  area : list jsstring;
  entryLine : jsstring;
  body : list jsstring
}.

Definition linesOf (d : layout) : list jsstring :=
  head d ++ includeLine d :: area d ++ entryLine d :: body d.

Definition wellAnchored (d : layout) : Prop :=
  isInclude (includeLine d) = true /\
  forallb (fun l => negb (isInclude l)) (area d ++ entryLine d :: body d) = true /\
  forallb (fun l => negb (isMain l)) (area d) = true /\
  isMain (entryLine d) = true.

(** A function that is not yet declared in the declaration area. *)
Definition undeclared (areaText : jsstring) (f : func) : bool :=
  negb (test (declarationOf (name f)) areaText).

End Anchors.

Import Anchors.

(** ** Example documents *)

Module Examples.

(** A document, line by line. *)
Definition doc (ls : list string) : jsstring := join_lines (map str ls).

Local Open Scope string_scope.

Definition oneFunction : jsstring :=
  doc ["#include <stdio.h>";
       "";
       "int main() {";
       "  return 0;";
       "}";
       "";
       "int add(int a, int b) {";
       "  return a + b;";
       "}"].

Definition bThenA : jsstring :=
  doc ["#include <stdio.h>";
       "int main() {";
       "  return b(1) + a(2);";
       "}";
       "int b(int x) {";
       "  return x;";
       "}";
       "int a( int  y ) {";
       "  return y;";
       "}"].

Definition secondMain : jsstring :=
  doc ["#include <stdio.h>";
       "int main() {";
       "  return twice(1);";
       "}";
       "int main(void) {";
       "}";
       "int twice(int x) {";
       "  return 2 * x;";
       "}"].

(** The declaration has a closing parenthesis inside its argument list. *)
Definition nestedParenthesis : jsstring :=
  doc ["#include <stdio.h>";
       "void fill(int buf[sizeof(int)]);";
       "int main() {";
       "  return 0;";
       "}";
       "void fill(int *buf) {";
       "}"].

Definition sameNameTwice : jsstring :=
  doc ["#include <stdio.h>";
       "int main() {";
       "  return 0;";
       "}";
       "int f(int a) {";
       "}";
       "int f(int b) {";
       "}"].

Definition noInclude : jsstring :=
  doc ["int main() {";
       "  return 0;";
       "}";
       "int add(int a, int b) {";
       "}"].

Definition noEntryPoint : jsstring :=
  doc ["#include <stdio.h>";
       "int add(int a, int b) {";
       "}";
       "int sub(int a, int b) {";
       "}"].

End Examples.

Import Examples.

(** ** The prototypes a document calls for *)

Module Output.

(** [Emitted areaText lines out]: going down the lines after the entry
    point, every line that defines a function other than [main] that the
    declaration area does not declare contributes its prototype, and no
    other line contributes anything. *)
Inductive Emitted (areaText : jsstring)
  : list jsstring -> list jsstring -> Prop :=
| Emitted_end : Emitted areaText [] []
| Emitted_skip line lines out :
    (forall rt nm ps, FunctionLine line rt nm ps ->
                      nm = str "main" \/ DeclaredIn nm areaText) ->
    Emitted areaText lines out ->
    Emitted areaText (line :: lines) out
| Emitted_prototype line rt nm ps lines out :
    FunctionLine line rt nm ps -> nm <> str "main" ->
    ~ DeclaredIn nm areaText ->
    Emitted areaText lines out ->
    Emitted areaText (line :: lines) (prototypeOf rt nm ps :: out).

End Output.

Import Output.

(** ** Lines *)

Module Lines.

(** A line holds no line feed. *)
Definition oneLine (s : jsstring) : Prop :=
  forallb (fun c => negb (c =? newline)%N) s = true.

End Lines.

Import Lines.

(** ** The layout after the edit *)

Module Edit.

(** The prototypes go in after an empty line, right below the include
    line. *)
Definition withPrototypes (d : layout) (protos : list jsstring) : layout :=
  Layout (head d) (includeLine d) ([] :: protos ++ area d) (entryLine d) (body d).

End Edit.

Import Edit.

From Stdlib Require Import Sorted.


(** ** More of the string methods *)

Module JSMore.

(** [s.includes(p)] *)
Fixpoint includes (s p : jsstring) : bool :=
  startsWith s p || match s with [] => false | _ :: t => includes t p end.

(** [s.indexOf(p)]: the first index at which [p] occurs; [None] is the
    source's [-1]. *)
Fixpoint indexOf (s p : jsstring) : option nat :=
  if startsWith s p then Some 0
  else match s with
       | [] => None
       | _ :: t => option_map S (indexOf t p)
       end.

(** [s.substring(from, to)] for [from <= to]. *)
Definition substring (s : jsstring) (from to : nat) : jsstring :=
  firstn (to - from) (skipn from s).

(** [s.match(r)] without the global flag: the text of the first match,
    [match[0]], and its captures. *)
Fixpoint match_from (r : regex) (bef aft : jsstring)
  : option (jsstring * caps) :=
  match run r (Pos bef aft) [] accept with
  | Some (p', c) => Some (consumed (Pos bef aft) p', c)
  | None =>
      match aft with
      | [] => None
      | x :: t => match_from r (x :: bef) t
      end
  end.

Definition match_ (r : regex) (s : jsstring) : option (jsstring * caps) :=
  match_from r [] s.

End JSMore.

Import JSMore.

(** ** The diagnostics, [runDiagnostics] *)

Module Diagnostics.

Local Open Scope regex_scope.
Local Open Scope string_scope.

(** [vscode.Range]: the constructor orders its two positions. *)
Record range := Range {
  startLine : nat; startCharacter : nat; endLine : nat; endCharacter : nat
}.

Definition isBefore (l1 c1 l2 c2 : nat) : bool :=
  ((l1 <? l2) || ((l1 =? l2) && (c1 <? c2)))%nat.

Definition newRange (l1 c1 l2 c2 : nat) : range :=
  if isBefore l2 c2 l1 c1 then Range l2 c2 l1 c1 else Range l1 c1 l2 c2.

Inductive severity := Error | Warning | Information | Hint.

Record diagnostic := Diagnostic {
  where_ : range; message : jsstring; level : severity
}.

(** Lines 54-59, in the order of [Object.entries]. *)
Definition UNSAFE_FUNCTIONS : list (string * string) :=
  [("gets", "fgets"); ("strcpy", "strncpy"); ("strcat", "strncat");
   ("sprintf", "snprintf")].

(** Line 392. *)
Definition unsafeMessage (unsafeFunc safeFunc : string) : jsstring :=
  (str "Unsafe function '" ++ str unsafeFunc ++ str "'. Consider using '"
   ++ str safeFunc ++ str "' instead.")%list.

(** Lines 385-397.  The array of diagnostics is passed through.  A
    position with a negative character makes [vscode.Range] throw; that
    is the [None] here, reached when [indexOf] finds nothing. *)
Fixpoint checkUnsafeEntries (entries : list (string * string))
    (line : jsstring) (lineNumber : nat) (diagnostics : list diagnostic)
  : option (list diagnostic) :=
  match entries with
  | [] => Some diagnostics
  | (unsafeFunc, safeFunc) :: entries' =>
      if includes line (str unsafeFunc ++ str "(")%list then
        match indexOf line (str unsafeFunc) with
        | None => None
        | Some index =>
            checkUnsafeEntries entries' line lineNumber
              (diagnostics ++
               [Diagnostic
                  (newRange lineNumber index lineNumber
                     (index + length (str unsafeFunc)))
                  (unsafeMessage unsafeFunc safeFunc) Warning])%list
        end
      else checkUnsafeEntries entries' line lineNumber diagnostics
  end.

Definition checkUnsafeFunctions (line : jsstring) (lineNumber : nat)
    (diagnostics : list diagnostic) : option (list diagnostic) :=
  checkUnsafeEntries UNSAFE_FUNCTIONS line lineNumber diagnostics.

(** Line 400: [if\s*], an opening parenthesis, a run without a closing
    parenthesis, one character outside [=!<>], an equals sign not
    followed by another, a run without a closing parenthesis, a closing
    parenthesis. *)
Definition assignmentInIf : regex :=
  lit (str "if") ;; Star space ;; chr "(" ;; Star (none_of (str ")")) ;;
  none_of (str "=!<>") ;; chr "=" ;; NegLook (chr "=") ;;
  Star (none_of (str ")")) ;; chr ")".

Definition assignmentMessage : jsstring :=
  str "Possible assignment instead of comparison in conditional statement".

(** Lines 399-409. *)
Definition checkAssignmentInConditional (line : jsstring) (lineNumber : nat)
    (diagnostics : list diagnostic) : option (list diagnostic) :=
  if test assignmentInIf line then
    match indexOf line (str "if") with
    | None => None
    | Some index =>
        Some (diagnostics ++
              [Diagnostic (newRange lineNumber index lineNumber (length line))
                 assignmentMessage Warning])%list
    end
  else Some diagnostics.

(** Line 412: [\b], group 1 of [malloc|calloc|realloc], [\s*] and an
    opening parenthesis; line 413: the same without the last two. *)
Definition allocationName : regex :=
  WordB ;; Group 1 (words ["malloc"; "calloc"; "realloc"]).

Definition allocationCall : regex :=
  WordB ;; Group 1 (words ["malloc"; "calloc"; "realloc"]) ;;
  Star space ;; chr "(".

Definition allocationMessage : jsstring :=
  str "Remember to free allocated memory to prevent memory leaks".

(** Lines 411-424. *)
Definition checkMemoryAllocation (line : jsstring) (lineNumber : nat)
    (diagnostics : list diagnostic) : option (list diagnostic) :=
  if test allocationCall line then
    match match_ allocationName line with
    | Some (match0, _) =>
        match indexOf line match0 with
        | None => None
        | Some index =>
            Some (diagnostics ++
                  [Diagnostic (newRange lineNumber index lineNumber (length line))
                     allocationMessage Information])%list
        end
    | None => Some diagnostics
    end
  else Some diagnostics.

(** Line 429: [\bNULL\b] and [\bif\b]. *)
Definition wholeWord (w : string) : regex := WordB ;; lit (str w) ;; WordB.

Definition fopenMessage : jsstring :=
  str "Consider checking if fopen() returned NULL before using the file pointer".

(** Lines 426-439. *)
Definition checkFopenWithoutNullCheck (lines : list jsstring)
    (line : jsstring) (lineNumber : nat) (diagnostics : list diagnostic)
  : option (list diagnostic) :=
  if includes line (str "fopen(") then
    let nextLines :=
      join_lines (slice lines (lineNumber + 1)
                    (Nat.min (lineNumber + 4) (length lines))) in
    if negb (test (wholeWord "NULL") nextLines)
       && negb (test (wholeWord "if") nextLines) then
      match indexOf line (str "fopen") with
      | None => None
      | Some index =>
          Some (diagnostics ++
                [Diagnostic (newRange lineNumber index lineNumber (length line))
                   fopenMessage Information])%list
      end
    else Some diagnostics
  else Some diagnostics.

(** Lines 366-380: the loop, from line [i] on. *)
Fixpoint diagnoseFrom (lines rest : list jsstring) (i : nat)
    (diagnostics : list diagnostic) : option (list diagnostic) :=
  match rest with
  | [] => Some diagnostics
  | line :: rest' =>
      match checkUnsafeFunctions line i diagnostics with
      | None => None
      | Some d1 =>
          match checkAssignmentInConditional line i d1 with
          | None => None
          | Some d2 =>
              match checkMemoryAllocation line i d2 with
              | None => None
              | Some d3 =>
                  match checkFopenWithoutNullCheck lines line i d3 with
                  | None => None
                  | Some d4 => diagnoseFrom lines rest' (S i) d4
                  end
              end
          end
      end
  end.

(** Lines 361-383: the diagnostics set for the document, [None] where
    the source throws. *)
Definition runDiagnostics (text : jsstring) : option (list diagnostic) :=
  let lines := split_lines text in
  diagnoseFrom lines lines 0 [].

End Diagnostics.

Import Diagnostics.

(** ** Vocabulary of the diagnostics *)

Module DiagShape.

(** [p] occurs in [s]. *)
Definition occurs (p s : jsstring) : Prop :=
  exists pre post, s = pre ++ p ++ post.

(** The first occurrence of [p] in [s] starts at index [i]. *)
Definition first_at (p s : jsstring) (i : nat) : Prop :=
  exists pre post, s = pre ++ p ++ post /\ length pre = i /\
    forall pre' post', s = pre' ++ p ++ post' -> i <= length pre'.

(** A diagnostic on one line of the document, within the line. *)
Definition within (lines : list jsstring) (d : diagnostic) : Prop :=
  startLine (where_ d) = endLine (where_ d) /\
  exists line, nth_error lines (startLine (where_ d)) = Some line /\
               startCharacter (where_ d) <= endCharacter (where_ d) /\
               endCharacter (where_ d) <= length line.

(** [w] occurs in [s] as a whole word: no character of [\w] right
    before or right after it. *)
Definition occurs_as_word (w s : jsstring) : Prop :=
  exists pre post, s = pre ++ w ++ post /\ no_word_at_end pre /\
                   word_after (Pos [] post) = false.

(** What [checkUnsafeFunctions] adds for one entry of the table. *)
Definition unsafeReport (line : jsstring) (n : nat) (e : string * string)
  : list diagnostic :=
  if includes line (str (fst e) ++ str "(") then
    match indexOf line (str (fst e)) with
    | Some i =>
        [Diagnostic (Range n i n (i + length (str (fst e))))
           (unsafeMessage (fst e) (snd e)) Warning]
    | None => []
    end
  else [].

End DiagShape.

Import DiagShape.

Module DiagShape2.

(** A character of the class [[^=!<>]]. *)
Definition plain_before_equals (c : char) : bool :=
  negb (existsb (N.eqb c) (str "=!<>")).

(** An [if] with, inside its parentheses and before any closing
    parenthesis, an equals sign that is neither part of [==], [!=], [<=],
    [>=] nor followed by another equals sign. *)
Definition AssignmentInIf (line : jsstring) : Prop :=
  exists pre ws a c b post,
    line = pre ++ str "if" ++ ws ++ str "(" ++ a ++ c :: str "=" ++ b
           ++ str ")" ++ post /\
    spaces ws /\ no_rparen a /\ plain_before_equals c = true /\
    no_rparen b /\ (forall b', b <> 61%N :: b').

Definition allocators : list string := ["malloc"; "calloc"; "realloc"]%string.

(** A call of an allocator: its name, not preceded by a character of
    [\w], optional white space and an opening parenthesis. *)
Definition AllocationCall (line : jsstring) : Prop :=
  exists pre w ws post,
    line = pre ++ str w ++ ws ++ str "(" ++ post /\
    In w allocators /\ no_word_at_end pre /\ spaces ws.

End DiagShape2.

Import DiagShape2.

Module DiagShape3.

(** A diagnostic on line [n], within the text of the line. *)
Definition on_line (n : nat) (line : jsstring) (d : diagnostic) : Prop :=
  startLine (where_ d) = n /\ endLine (where_ d) = n /\
  startCharacter (where_ d) <= endCharacter (where_ d) /\
  endCharacter (where_ d) <= length line.

(** Diagnostics in the order of their lines. *)
Definition by_line (ds : list diagnostic) : Prop :=
  StronglySorted (fun a b => startLine (where_ a) <= startLine (where_ b)) ds.

End DiagShape3.

Import DiagShape3.

(** ** More vocabulary of the classifier *)

Module ClassifierShape.

(** The patterns of lines 257, 263 and 272 have one form: [^\s*], a group
    of keywords and [\b]. *)
Definition keywordPattern (ws : list string) : regex :=
  Seq Bol (Seq (Star space) (Seq (Group 1 (words ws)) WordB)).

Definition labelKeywords : list string := ["case"; "default"]%string.
Definition typeKeywords : list string :=
  ["struct"; "union"; "enum"; "typedef"]%string.
Definition jumpKeywords : list string :=
  ["return"; "break"; "continue"; "goto"]%string.

Definition controlOpenings : list string :=
  ["if"; "else"; "while"; "for"; "do"; "switch"]%string.

(** What a line must begin with for one of the rejecting patterns that
    are anchored at the start to match. *)
Definition rejectedOpenings : list string :=
  (controlOpenings ++ labelKeywords ++ typeKeywords ++ basicTypes
   ++ ["#"; "//"; "/*"; "{"; "}"]%string)%list.

(** A signature with nothing after its parameter list. *)
Definition BareSignature (s : jsstring) : Prop :=
  exists rt ws1 nm ws2 ps,
    s = str rt ++ ws1 ++ nm ++ ws2 ++ str "(" ++ ps ++ str ")" /\
    In rt basicTypes /\ ws1 <> [] /\ spaces ws1 /\
    nm <> [] /\ forallb is_word nm = true /\ spaces ws2 /\ no_rparen ps.

End ClassifierShape.

Import ClassifierShape.

(** ** The edit of [addSemicolonIfNeeded] *)

Module Semicolon.

(** The document with line [lineNum] replaced. *)
Fixpoint setLine (document : list jsstring) (lineNum : nat) (text : jsstring)
  : list jsstring :=
  match document, lineNum with
  | [], _ => []
  | _ :: rest, 0 => text :: rest
  | l :: rest, S n => l :: setLine rest n text
  end.

(** Lines 216-241, past the guards on the edit in progress and on the
    active editor, on the lines of the document: a line number outside
    the document changes nothing, and the semicolon goes at the end of
    the line as it is, behind any trailing white space. *)
Definition addSemicolonIfNeeded (document : list jsstring) (lineNum : nat)
  : list jsstring :=
  match nth_error document lineNum with
  | None => document
  | Some lineText =>
      let text := trimEnd lineText in
      if shouldAddSemicolon text
      then setLine document lineNum (lineText ++ str ";")
      else document
  end.

End Semicolon.

Import Semicolon.

(** ** The set-up of a new file *)

Module Setup.

Local Open Scope string_scope.

Definition tab : char := 9%N.

(** Lines 192-199. *)
Definition initialTemplate : jsstring :=
  join_lines [str "#include <stdio.h>";
              str "#include <stdlib.h>";
              str "";
              str "";
              str "int main() {";
              [tab];
              (tab :: str "return 0;")%list;
              str "}"].

(** Lines 201-203: the template goes in at the start of the document. *)
Definition setupNewCFileFromDocument (text : jsstring) : jsstring :=
  (initialTemplate ++ text)%list.

(** Lines 180-185, and the same test at line 125: only a document that
    is blank is set up. *)
Definition setupNewCFile (text : jsstring) : jsstring :=
  match trim text with
  | [] => setupNewCFileFromDocument text
  | _ :: _ => text
  end.

End Setup.

Import Setup.

(** ** The documentation command, [generateFunctionDoc] *)

Module DocGen.

Local Open Scope regex_scope.
Local Open Scope string_scope.

(** [s.split(sep)] for a separator of one character. *)
Fixpoint split_on (sep : char) (s : jsstring) : list jsstring :=
  match s with
  | [] => [[]]
  | c :: t =>
      if (c =? sep)%N then [] :: split_on sep t
      else match split_on sep t with
           | [] => [[c]]
           | l :: ls => (c :: l) :: ls
           end
  end.

(** The loop of [RegExp.prototype[Symbol.split]] for a pattern without
    groups: [bef] is the text before index [q], nearest first, [piece]
    the text from [p] to [q], nearest first, [aft] the text from [q] on.
    A match at [q] that ends at [p] is skipped; after any other match the
    piece is closed and the search goes on behind the match. *)
Fixpoint split_loop (r : regex) (fuel : nat) (bef piece aft : jsstring)
  : list jsstring :=
  match fuel with
  | 0 => [rev piece ++ aft]%list
  | S fuel' =>
      match aft with
      | [] => [rev piece]
      | x :: t =>
          match run r (Pos bef aft) [] accept with
          | Some (p', _) =>
              if (length (after p') =? length aft)%nat
                 && match piece with [] => true | _ :: _ => false end
              then split_loop r fuel' (x :: bef) (x :: piece) t
              else rev piece :: split_loop r fuel' (before p') [] (after p')
          | None => split_loop r fuel' (x :: bef) (x :: piece) t
          end
      end
  end.

(** [s.split(r)]: every step of the loop moves [q] forward or closes a
    piece, so twice the length bounds the number of steps. *)
Definition split_regex (r : regex) (s : jsstring) : list jsstring :=
  match s with
  | [] => match run r (Pos [] []) [] accept with
          | Some _ => []
          | None => [[]]
          end
  | _ :: _ => split_loop r (2 * length s + 1) [] [] s
  end.

(** [a.pop() || ''] *)
Definition popOrEmpty (a : list jsstring) : jsstring := last a [].

(** Line 512: group 1 of [\w+], [\s+], group 2 of [\w+], [\s*], an
    opening parenthesis, group 3 of any run without a closing
    parenthesis, a closing parenthesis. *)
Definition docPattern : regex :=
  Group 1 (Plus word) ;; Plus space ;; Group 2 (Plus word) ;; Star space ;;
  chr "(" ;; Group 3 (Star (none_of (str ")"))) ;; chr ")".

Definition isEmpty (s : jsstring) : bool :=
  match s with [] => true | _ :: _ => false end.

(** Line 519. *)
Definition parameterListOf (params : jsstring) : list jsstring :=
  filter (fun p => negb (isEmpty p)) (map trim (split_on 44%N params)).

(** Line 526. *)
Definition paramNameOf (param : jsstring) : jsstring :=
  popOrEmpty (split_regex (Plus space) param).

(** Line 527. *)
Definition paramDoc (param : jsstring) : jsstring :=
  (str " * @param " ++ paramNameOf param ++ str " Description of "
   ++ paramNameOf param ++ [newline])%list.

(** Lines 510-534: the comment for the text of a line, [None] where the
    source shows its error message and stops. *)
Definition documentationFor (text : jsstring) : option jsstring :=
  match match_ docPattern text with
  | None => None
  | Some (_, c) =>
      let returnType := group 1 c in
      let functionName := group 2 c in
      let params := group 3 c in
      let parameterList := parameterListOf params in
      Some (str "/**" ++ [newline]
            ++ str " * @brief Brief description of " ++ functionName ++ [newline]
            ++ str " *" ++ [newline]
            ++ concat (map paramDoc parameterList)
            ++ (if negb (JS.eqb returnType (str "void"))
                then str " * @return Description of return value" ++ [newline]
                else [])
            ++ str " */" ++ [newline])%list
  end.

(** Lines 504-539 on the text of the document, for a cursor on line
    [line]: the document after the edit, [None] where nothing is
    edited. *)
Definition generateFunctionDoc (document : jsstring) (line : nat)
  : option jsstring :=
  match nth_error (split_lines document) line with
  | None => None
  | Some text =>
      match documentationFor text with
      | None => None
      | Some documentation => Some (insertAtLine line documentation document)
      end
  end.

End DocGen.

Import DocGen.

(** ** Vocabulary of the documentation command *)

Module DocShape.

(** The pieces with [sep] between them. *)
Fixpoint join_on (sep : char) (a : list jsstring) : jsstring :=
  match a with
  | [] => []
  | [l] => l
  | l :: ls => l ++ sep :: join_on sep ls
  end.

Definition comma : char := 44%N.

Definition no_space (s : jsstring) : Prop :=
  forallb (fun c => negb (is_space c)) s = true.

(** Neither a comma nor a closing parenthesis. *)
Definition inside_list (s : jsstring) : Prop :=
  forallb (fun c => negb (c =? comma)%N && negb (c =? 41)%N) s = true.

(** One parameter as written between two commas, and its name: the name
    is the last stretch of characters other than white space.  Before it
    comes nothing, or text that ends with white space; behind it comes
    white space only. *)
Definition WrittenParameter (piece name : jsstring) : Prop :=
  exists pre trail,
    piece = pre ++ name ++ trail /\
    (pre = [] \/ exists p s, pre = p ++ [s] /\ is_space s = true) /\
    spaces trail /\ name <> [] /\ no_space name /\ inside_list piece.

(** A signature in [text], behind [pre]: a word, white space, a word,
    optional white space and a parenthesis that holds [ps]. *)
Definition Signature (text pre returnType functionName ps : jsstring) : Prop :=
  exists ws1 ws2 rest,
    text = pre ++ returnType ++ ws1 ++ functionName ++ ws2
           ++ str "(" ++ ps ++ str ")" ++ rest /\
    returnType <> [] /\ forallb is_word returnType = true /\
    ws1 <> [] /\ spaces ws1 /\
    functionName <> [] /\ forallb is_word functionName = true /\
    spaces ws2 /\ no_rparen ps.

(** The lines of the comment. *)
Definition commentLines (returnType functionName : jsstring)
    (names : list jsstring) : list jsstring :=
  [str "/**"; str " * @brief Brief description of " ++ functionName; str " *"]
  ++ map (fun nm => str " * @param " ++ nm ++ str " Description of " ++ nm) names
  ++ (if JS.eqb returnType (str "void") then []
      else [str " * @return Description of return value"])
  ++ [str " */"].

(** Lines, each ended by a line feed. *)
Definition unlines (ls : list jsstring) : jsstring :=
  concat (map (fun l => l ++ [newline]) ls).

(** The last stretch of [aft] without white space, where [acc] holds,
    nearest first, what came before [aft] since the last white space. *)
Fixpoint lastToken (acc aft : jsstring) : jsstring :=
  match aft with
  | [] => rev acc
  | x :: t => if is_space x then lastToken [] t else lastToken (x :: acc) t
  end.

End DocShape.

Import DocShape.

(** * Properties *)

Unset Implicit Arguments.

(** ** The matcher and the relational semantics agree *)

Section StarLoop.

Variable step : pos -> caps -> cont -> option mstate.
Variable R : mstate -> mstate -> Prop.

Let R' (a b : mstate) : Prop :=
  R a b /\ length (after (fst b)) < length (after (fst a)).

Hypothesis step_sound : forall p c k res,
  step p c k = Some res -> exists s', R (p, c) s' /\ k (fst s') (snd s') = Some res.
Hypothesis step_complete : forall p c k s',
  R (p, c) s' -> k (fst s') (snd s') <> None -> step p c k <> None.

Lemma star_loop_sound n : forall p c k res,
  star_loop step n p c k = Some res ->
  exists s', iter R' (p, c) s' /\ k (fst s') (snd s') = Some res.
Proof.
  induction n as [|n IH]; intros p c k res H; simpl in H.
  - exists (p, c). split; [constructor | exact H].
  - destruct (step p c _) as [res'|] eqn:E.
    + inversion H; subst res'; clear H.
      apply step_sound in E. destruct E as [[p1 c1] [HR Hk]]. simpl in Hk.
      destruct (Nat.ltb_spec (length (after p1)) (length (after p))) as [Hlt|]; [|discriminate].
      apply IH in Hk. destruct Hk as [s' [Hit Hk]].
      exists s'. split; [|exact Hk].
      apply iter_more with (s1 := (p1, c1)); [split; assumption | exact Hit].
    + exists (p, c). split; [constructor | exact H].
Qed.

Lemma star_loop_complete n : forall p c k s',
  iter R' (p, c) s' -> k (fst s') (snd s') <> None ->
  length (after p) <= n ->
  star_loop step n p c k <> None.
Proof.
  induction n as [|n IH]; intros p c k s' Hit Hk Hn.
  - inversion Hit as [|a [p1 c1] b [_ Hlt]]; subst.
    + exact Hk.
    + simpl in Hlt. lia.
  - simpl. inversion Hit as [|a [p1 c1] b [HR Hlt] Hit']; subst.
    + destruct (step p c _); [discriminate | exact Hk].
    + simpl in Hlt.
      destruct (step p c _) eqn:E; [discriminate|].
      exfalso. revert E. eapply step_complete; [exact HR|]. simpl.
      destruct (Nat.ltb_spec (length (after p1)) (length (after p))); [|lia].
      eapply IH; [exact Hit' | exact Hk | lia].
Qed.

End StarLoop.

Lemma run_matches r :
  (forall p c k res, run r p c k = Some res ->
     exists s', matches r (p, c) s' /\ k (fst s') (snd s') = Some res) /\
  (forall p c k s', matches r (p, c) s' -> k (fst s') (snd s') <> None ->
     run r p c k <> None).
Proof.
  induction r as [|f|r1 [S1 C1] r2 [S2 C2]|r1 [S1 C1] r2 [S2 C2]|r1 [S1 C1]
                 |i r1 [S1 C1]| | | |r1 [S1 C1]]; split; simpl.
  - intros p c k res H. exists (p, c). auto.
  - intros p c k s' -> H. exact H.
  - intros p c k res H. destruct (after p) as [|x t] eqn:E; [discriminate|].
    destruct (f x) eqn:Ef; [|discriminate].
    exists (Pos (x :: before p) t, c). split; [|exact H].
    exists x, t. auto.
  - intros p c k s' (x & t & E & Ef & ->) H. simpl in *. rewrite E, Ef. exact H.
  - intros p c k res H. apply S1 in H. destruct H as [[p1 c1] [H1 H]].
    simpl in H. apply S2 in H. destruct H as [s' [H2 H]].
    exists s'. split; [exists (p1, c1); auto | exact H].
  - intros p c k s' ([p1 c1] & H1 & H2) H.
    eapply C1; [exact H1|]. simpl. eapply C2; eauto.
  - intros p c k res H. destruct (run r1 p c k) eqn:E.
    + inversion H; subst. apply S1 in E. destruct E as [s' [? ?]]. exists s'; auto.
    + apply S2 in H. destruct H as [s' [? ?]]. exists s'; auto.
  - intros p c k s' [H1|H2] H.
    + destruct (run r1 p c k) eqn:E; [discriminate|].
      exfalso. revert E. eapply C1; eauto.
    + destruct (run r1 p c k); [discriminate|]. eapply C2; eauto.
  - intros p c k res H. eapply star_loop_sound in H; [exact H | exact S1].
  - intros p c k s' Hit H.
    eapply star_loop_complete; [exact C1 | exact Hit | exact H | simpl; lia].
  - intros p c k res H. apply S1 in H. destruct H as [[p1 c1] [H1 H]].
    simpl in H. eexists. split; [exists (p1, c1); split; [exact H1 | reflexivity]|exact H].
  - intros p c k s' ([p1 c1] & H1 & ->) H. eapply C1; [exact H1 | exact H].
  - intros p c k res H. destruct (before p) eqn:E; [|discriminate]. exists (p, c). auto.
  - intros p c k s' [E ->] H. simpl in *. rewrite E. exact H.
  - intros p c k res H. destruct (after p) eqn:E; [|discriminate]. exists (p, c). auto.
  - intros p c k s' [E ->] H. simpl in *. rewrite E. exact H.
  - intros p c k res H. destruct (at_word_boundary p) eqn:E; [|discriminate].
    exists (p, c). auto.
  - intros p c k s' [E ->] H. simpl in *. rewrite E. exact H.
  - intros p c k res H. destruct (run r1 p c _) eqn:E; [discriminate|].
    exists (p, c). split; [split; [|reflexivity] | exact H].
    intros s1 Hm. revert E. eapply C1; [exact Hm | discriminate].
  - intros p c k s' [Hno ->] H. simpl in *.
    destruct (run r1 p c _) eqn:E; [|exact H].
    apply S1 in E. destruct E as [s1 [Hm _]]. exfalso. exact (Hno s1 Hm).
Qed.

Lemma run_sound r p c k res :
  run r p c k = Some res ->
  exists s', matches r (p, c) s' /\ k (fst s') (snd s') = Some res.
Proof. apply run_matches. Qed.

Lemma run_complete r p c k s' :
  matches r (p, c) s' -> k (fst s') (snd s') <> None -> run r p c k <> None.
Proof. apply run_matches. Qed.

Lemma run_accept_sound r p c s' :
  run r p c accept = Some s' -> matches r (p, c) s'.
Proof.
  intros H. apply run_sound in H. destruct H as [[p1 c1] [Hm Hk]].
  unfold accept in Hk. simpl in Hk. inversion Hk; subst. exact Hm.
Qed.

Lemma exec_from_sound r : forall aft bef res,
  exec_from r bef aft = Some res ->
  exists pre post, aft = pre ++ post /\
                   matches r (Pos (rev pre ++ bef) post, []) res.
Proof.
  induction aft as [|x t IH]; intros bef res H; simpl in H.
  - destruct (run r _ _ _) eqn:E; [|discriminate]. inversion H; subst.
    exists [], []. split; [reflexivity|]. apply run_accept_sound. exact E.
  - destruct (run r _ _ _) eqn:E.
    + inversion H; subst. exists [], (x :: t). split; [reflexivity|].
      apply run_accept_sound. exact E.
    + apply IH in H. destruct H as (pre & post & -> & Hm).
      exists (x :: pre), post. split; [reflexivity|].
      simpl. rewrite <- app_assoc. exact Hm.
Qed.

Lemma exec_from_complete r : forall pre bef post s',
  matches r (Pos (rev pre ++ bef) post, []) s' ->
  exec_from r bef (pre ++ post) <> None.
Proof.
  induction pre as [|x pre IH]; intros bef post s' Hm.
  - simpl in *. destruct post; simpl;
      (destruct (run r _ _ _) eqn:E; [discriminate|]);
      exfalso; revert E; (eapply run_complete; [exact Hm | discriminate]).
  - simpl. destruct (run r _ _ _) eqn:E; [discriminate|].
    eapply IH. simpl in Hm. rewrite <- app_assoc in Hm. exact Hm.
Qed.

(** [test] decides [found_in]. *)
Lemma test_found_in r s : test r s = true <-> found_in r s.
Proof.
  unfold test, exec, found_in. split.
  - destruct (exec_from r [] s) as [res|] eqn:E; [|discriminate]. intros _.
    apply exec_from_sound in E. destruct E as (pre & post & -> & Hm).
    rewrite app_nil_r in Hm. eauto.
  - intros (pre & post & s' & -> & Hm).
    destruct (exec_from r [] (pre ++ post)) eqn:E; [reflexivity|].
    exfalso. revert E. eapply exec_from_complete. rewrite app_nil_r. exact Hm.
Qed.

Lemma test_false_iff r s : test r s = false <-> ~ found_in r s.
Proof.
  rewrite <- test_found_in. destruct (test r s); split; congruence.
Qed.

(** ** What the building blocks match *)

Lemma consumed_app b l t b' :
  consumed (Pos b (l ++ t)) (Pos b' t) = l.
Proof.
  unfold consumed. simpl. rewrite length_app, Nat.add_sub.
  rewrite firstn_app, Nat.sub_diag, firstn_all. simpl. apply app_nil_r.
Qed.

Lemma matches_cls f b a c s' :
  matches (Cls f) (Pos b a, c) s' <->
  exists x t, a = x :: t /\ f x = true /\ s' = (Pos (x :: b) t, c).
Proof. reflexivity. Qed.

Lemma matches_chr ch b a c s' :
  matches (chr ch) (Pos b a, c) s' <->
  exists t, a = N_of_ascii ch :: t /\ s' = (Pos (N_of_ascii ch :: b) t, c).
Proof.
  unfold chr. rewrite matches_cls. split.
  - intros (x & t & -> & E & ->). apply N.eqb_eq in E. subst x. eauto.
  - intros (t & -> & ->). exists (N_of_ascii ch), t. rewrite N.eqb_refl. auto.
Qed.

Lemma matches_lit s : forall b a c s',
  matches (lit s) (Pos b a, c) s' <->
  exists t, a = s ++ t /\ s' = (Pos (rev s ++ b) t, c).
Proof.
  induction s as [|x s IH]; intros b a c s'; simpl.
  - split; [intros ->; eauto | intros (t & -> & ->); reflexivity].
  - split.
    + intros ([p1 c1] & (y & t & E & Ey & E1) & H). simpl in *.
      apply N.eqb_eq in Ey. subst y a. inversion E1; subst p1 c1.
      apply IH in H. destruct H as (t' & -> & ->).
      exists t'. rewrite <- app_assoc. auto.
    + intros (t & -> & ->). exists (Pos (x :: b) (s ++ t), c). split.
      * exists x, (s ++ t). simpl. rewrite N.eqb_refl. auto.
      * apply IH. exists t. rewrite <- app_assoc. auto.
Qed.

Lemma matches_star_cls f b a c s' :
  matches (Star (Cls f)) (Pos b a, c) s' <->
  exists l t, a = l ++ t /\ forallb f l = true /\ s' = (Pos (rev l ++ b) t, c).
Proof.
  simpl. split.
  - intros H. remember (Pos b a, c) as s eqn:Es. revert b a Es.
    induction H as [s|s s1 s2 [(x & t & E & Ex & ->) _] _ IH]; intros b a ->.
    + exists [], a. auto.
    + simpl in *. subst a.
      destruct (IH _ _ eq_refl) as (l & t' & -> & Hl & ->).
      exists (x :: l), t'. simpl. rewrite Ex, Hl, <- app_assoc. auto.
  - intros (l & t & -> & Hl & ->). revert b Hl.
    induction l as [|x l IH]; intros b Hl; simpl in *.
    + constructor.
    + apply andb_prop in Hl. destruct Hl as [Hx Hl].
      apply iter_more with (s1 := (Pos (x :: b) (l ++ t), c)).
      * split; [exists x, (l ++ t); auto | simpl; lia].
      * rewrite <- app_assoc. apply IH. exact Hl.
Qed.

Lemma matches_plus_cls f b a c s' :
  matches (Plus (Cls f)) (Pos b a, c) s' <->
  exists l t, a = l ++ t /\ l <> [] /\ forallb f l = true /\
              s' = (Pos (rev l ++ b) t, c).
Proof.
  unfold Plus. change (matches (Seq ?r1 ?r2) ?s ?s')
    with (exists s1, matches r1 s s1 /\ matches r2 s1 s'). split.
  - intros (s1 & (x & t & E & Ex & ->) & H). simpl in E. subst a.
    apply matches_star_cls in H. destruct H as (l & t' & -> & Hl & ->).
    exists (x :: l), t'. simpl. rewrite Ex, Hl, <- app_assoc.
    repeat split; auto. discriminate.
  - intros (l & t & -> & Hne & Hl & ->). destruct l as [|x l]; [congruence|].
    simpl in Hl. apply andb_prop in Hl. destruct Hl as [Hx Hl].
    exists (Pos (x :: b) (l ++ t), c). split.
    + exists x, (l ++ t). auto.
    + apply matches_star_cls. exists l, t. simpl. rewrite <- app_assoc. auto.
Qed.

Lemma matches_words ws : forall b a c s',
  matches (words ws) (Pos b a, c) s' <->
  exists w t, In w ws /\ a = str w ++ t /\ s' = (Pos (rev (str w) ++ b) t, c).
Proof.
  unfold words. induction ws as [|w ws IH]; intros b a c s'.
  - simpl. split; [intros (x & t & _ & F & _); discriminate | intros (w & t & [] & _)].
  - destruct ws as [|w' ws].
    + simpl alts. rewrite matches_lit. split.
      * intros (t & -> & ->). exists w, t. simpl. auto.
      * intros (w0 & t & [<-|[]] & -> & ->). eauto.
    + change (alts (map _ (w :: w' :: ws)))
        with (Alt (lit (str w)) (alts (map (fun w => lit (str w)) (w' :: ws)))).
      change (matches (Alt ?r1 ?r2) ?s ?s')
        with (matches r1 s s' \/ matches r2 s s').
      rewrite matches_lit, IH. split.
      * intros [(t & -> & ->)|(w0 & t & Hin & -> & ->)].
        -- exists w, t. simpl. auto.
        -- exists w0, t. split; [right; exact Hin | auto].
      * intros (w0 & t & [<-|Hin] & -> & ->).
        -- left. eauto.
        -- right. eauto.
Qed.

(** A pattern without groups moves the position forward and leaves the
    captures alone. *)
Lemma plain_moves r : plain r = true -> forall b a c s',
  matches r (Pos b a, c) s' ->
  exists l t, a = l ++ t /\ s' = (Pos (rev l ++ b) t, c).
Proof.
  induction r as [|f|r1 IH1 r2 IH2|r1 IH1 r2 IH2|r1 IH1|i r1 IH1| | | |r1 IH1];
    simpl; intros Hp b a c s' H.
  - subst. exists [], a. auto.
  - destruct H as (x & t & -> & _ & ->). exists [x], t. auto.
  - apply andb_prop in Hp. destruct Hp as [Hp1 Hp2].
    destruct H as (s1 & H1 & H2).
    destruct (IH1 Hp1 _ _ _ _ H1) as (l1 & t1 & -> & ->).
    destruct (IH2 Hp2 _ _ _ _ H2) as (l2 & t2 & -> & ->).
    exists (l1 ++ l2), t2. rewrite rev_app_distr, <- !app_assoc. auto.
  - apply andb_prop in Hp. destruct Hp as [Hp1 Hp2].
    destruct H as [H|H]; eauto.
  - remember (Pos b a, c) as s eqn:Es. revert b a Es.
    induction H as [s|s s1 s2 [H1 _] _ IH]; intros b a ->.
    + exists [], a. auto.
    + destruct (IH1 Hp _ _ _ _ H1) as (l1 & t1 & -> & ->).
      destruct (IH _ _ eq_refl) as (l2 & t2 & -> & ->).
      exists (l1 ++ l2), t2. rewrite rev_app_distr, <- !app_assoc. auto.
  - discriminate.
  - destruct H as [_ ->]. exists [], a. auto.
  - destruct H as [_ ->]. exists [], a. auto.
  - destruct H as [_ ->]. exists [], a. auto.
  - destruct H as [_ ->]. exists [], a. auto.
Qed.

Lemma plain_lit s : plain (lit s) = true.
Proof. induction s; simpl; auto. Qed.

Lemma plain_alts rs : forallb plain rs = true -> plain (alts rs) = true.
Proof.
  induction rs as [|r [|r' rs] IH]; simpl in *; auto.
  - rewrite andb_true_r. auto.
  - intros H. apply andb_prop in H. destruct H as [-> H]. simpl. auto.
Qed.

Lemma plain_words ws : plain (words ws) = true.
Proof.
  apply plain_alts. induction ws; simpl; auto. rewrite plain_lit. auto.
Qed.

(** A group around such a pattern records the text it moved over. *)
Lemma matches_group i r b a c s' :
  plain r = true ->
  matches (Group i r) (Pos b a, c) s' <->
  exists l t, a = l ++ t /\ matches r (Pos b a, c) (Pos (rev l ++ b) t, c) /\
              s' = (Pos (rev l ++ b) t, (i, l) :: c).
Proof.
  intros Hr. simpl. split.
  - intros (s1 & H & ->).
    destruct (plain_moves _ Hr _ _ _ _ H) as (l & t & -> & ->).
    exists l, t. simpl. rewrite consumed_app. auto.
  - intros (l & t & -> & H & ->). eexists. split; [exact H|].
    simpl. rewrite consumed_app. reflexivity.
Qed.

Lemma matches_seq r1 r2 s s' :
  matches (Seq r1 r2) s s' <-> exists s1, matches r1 s s1 /\ matches r2 s1 s'.
Proof. reflexivity. Qed.

Lemma matches_bol b a c s' :
  matches Bol (Pos b a, c) s' <-> b = [] /\ s' = (Pos b a, c).
Proof. reflexivity. Qed.

Lemma matches_eol b a c s' :
  matches Eol (Pos b a, c) s' <-> a = [] /\ s' = (Pos b a, c).
Proof. reflexivity. Qed.

Lemma matches_wordb b a c s' :
  matches WordB (Pos b a, c) s' <->
  at_word_boundary (Pos b a) = true /\ s' = (Pos b a, c).
Proof. reflexivity. Qed.

(** ** The classifier *)

Lemma matches_alts rs : forall s s',
  matches (alts rs) s s' <-> exists r, In r rs /\ matches r s s'.
Proof.
  induction rs as [|r rs IH]; intros s s'.
  - simpl. split; [intros (x & t & _ & F & _); discriminate | intros (r & [] & _)].
  - destruct rs as [|r' rs].
    + simpl. split; [eauto | intros (r0 & [<-|[]] & H); exact H].
    + change (alts (r :: r' :: rs)) with (Alt r (alts (r' :: rs))).
      change (matches (Alt ?r1 ?r2) ?s ?s')
        with (matches r1 s s' \/ matches r2 s s').
      rewrite IH. split.
      * intros [H|(r0 & Hin & H)]; [exists r | exists r0]; simpl; auto.
      * intros (r0 & [<-|Hin] & H); [left | right]; eauto.
Qed.

Lemma endsWith_app_last l c d :
  endsWith (l ++ [c]) [d] = (d =? c)%N.
Proof.
  unfold endsWith. rewrite rev_app_distr. simpl. apply andb_true_r.
Qed.

(** Every test before the last line of [shouldAddSemicolon] can only
    answer [false]. *)
Lemma shouldAddSemicolon_rejects text r :
  In r [endsStructural; directiveOrComment; controlKeyword; switchLabel;
        bareSignature; typeDefinition; loneBrace] ->
  test r (trim text) = true ->
  shouldAddSemicolon text = false.
Proof.
  intros Hin Ht. unfold shouldAddSemicolon.
  destruct (trim text) as [|x t]; [reflexivity|].
  repeat match goal with
         | |- (if ?b then _ else _) = false =>
             destruct b eqn:?; [reflexivity|]
         end.
  simpl in Hin.
  repeat (destruct Hin as [<-|Hin]; [congruence|]). destruct Hin.
Qed.

Lemma found_endsStructural l c :
  In c structuralChars -> found_in endsStructural (l ++ [c]).
Proof.
  intros Hc. exists l, [c]. eexists. split; [reflexivity|].
  unfold endsStructural. apply matches_seq. eexists. split.
  - apply matches_cls. exists c, []. split; [reflexivity|]. split; [|reflexivity].
    apply existsb_exists. exists c. split; [exact Hc | apply N.eqb_refl].
  - apply matches_eol. auto.
Qed.

(** C6. A line whose trimmed text is not empty and ends with an opening
    or closing brace, a comma, a colon or a backslash is never given a
    semicolon. *)
Theorem shouldAddSemicolon_structural_end : forall text l c,
  trim text = l ++ [c] -> In c structuralChars ->
  shouldAddSemicolon text = false.
Proof.
  intros text l c Ht Hc.
  apply shouldAddSemicolon_rejects with (r := endsStructural); [simpl; auto|].
  rewrite Ht. apply test_found_in. apply found_endsStructural. exact Hc.
Qed.

Lemma shouldAddSemicolon_structural_end_witness :
  shouldAddSemicolon (str "  int main() {  ") = false.
Proof.
  apply (@shouldAddSemicolon_structural_end _ (str "int main() ") 123%N).
  - reflexivity.
  - simpl. auto.
Defined.

Lemma found_controlKeyword kw rest :
  In kw ["if"; "else"; "while"; "for"; "do"; "switch"]%string ->
  match rest with [] => True | c :: _ => is_word c = false end ->
  found_in controlKeyword (str kw ++ rest).
Proof.
  intros Hkw Hrest. exists [], (str kw ++ rest). eexists.
  split; [reflexivity|]. unfold controlKeyword.
  apply matches_seq. eexists. split; [apply matches_bol; auto|].
  apply matches_seq. eexists. split; [simpl; apply iter_stop|].
  apply matches_seq. exists (Pos (rev (str kw)) rest, [(1, str kw)]). split.
  - apply matches_group; [reflexivity|].
    exists (str kw), rest. rewrite app_nil_r. repeat split.
    apply matches_alts. exists (lit (str kw)). split.
    + simpl in Hkw. simpl.
      repeat (destruct Hkw as [<-|Hkw]; [auto 10|]). destruct Hkw.
    + apply matches_lit. exists rest. rewrite app_nil_r. auto.
  - apply matches_wordb. split; [|reflexivity].
    unfold at_word_boundary, word_before, word_after. simpl after.
    simpl in Hkw.
    repeat (destruct Hkw as [<-|Hkw];
            [destruct rest; [reflexivity | simpl; rewrite Hrest; reflexivity]|]).
    destruct Hkw.
Qed.

(** C7. A line whose trimmed text begins with a control-flow keyword as a
    whole word is never given a semicolon; this holds for [if (x == 5)]
    and for [if (x = 5)], although the latter has the shape of an
    assignment. *)
Theorem shouldAddSemicolon_control_keyword :
  (forall text kw, In kw controlKeywords ->
     begins_with_word (str kw) (trim text) ->
     shouldAddSemicolon text = false) /\
  shouldAddSemicolon (str "if (x == 5)") = false /\
  shouldAddSemicolon (str "if (x = 5)") = false /\
  test assignmentShape (str "if (x = 5)") = true.
Proof.
  split; [|repeat split; reflexivity].
  intros text kw Hkw (rest & Ht & Hrest).
  apply shouldAddSemicolon_rejects with (r := controlKeyword); [simpl; auto|].
  rewrite Ht. apply test_found_in.
  assert (Hcases : In kw ["if"; "else"; "while"; "for"; "do"; "switch"]%string
                   \/ kw = "else if"%string).
  { simpl in Hkw. simpl. intuition. }
  destruct Hcases as [Hin| ->].
  - apply found_controlKeyword; assumption.
  - change (str "else if" ++ rest) with (str "else" ++ (str " if" ++ rest)).
    apply found_controlKeyword; [simpl; auto | reflexivity].
Qed.

Lemma shouldAddSemicolon_control_keyword_witness :
  shouldAddSemicolon (str "  while (i < n)") = false.
Proof.
  apply (proj1 shouldAddSemicolon_control_keyword _ "while"%string).
  - simpl. auto 10.
  - exists (str " (i < n)"). split; reflexivity.
Defined.

(** C8. A line whose trimmed text is empty or already ends with a
    semicolon is never given another one; [int x = 5] and [return 0] are
    given one, [int x = 5;] and [return 0;] are not. *)
Theorem shouldAddSemicolon_never_doubles :
  (forall text,
     trim text = [] \/ (exists l, trim text = l ++ str ";") ->
     shouldAddSemicolon text = false) /\
  shouldAddSemicolon (str "int x = 5") = true /\
  shouldAddSemicolon (str "return 0") = true /\
  shouldAddSemicolon (str "int x = 5;") = false /\
  shouldAddSemicolon (str "return 0;") = false.
Proof.
  split; [|repeat split; reflexivity].
  intros text [E|[l E]]; unfold shouldAddSemicolon; rewrite E; [reflexivity|].
  destruct (l ++ str ";") eqn:El; [reflexivity|]. rewrite <- El.
  change (str ";") with [59%N]. rewrite endsWith_app_last. reflexivity.
Qed.

Lemma shouldAddSemicolon_never_doubles_witness :
  shouldAddSemicolon (str "  x = y + 1;  ") = false.
Proof.
  apply (proj1 shouldAddSemicolon_never_doubles).
  right. exists (str "x = y + 1"). reflexivity.
Defined.

(** ** Strings *)

Lemma startsWith_iff p : forall s,
  startsWith s p = true <-> exists r, s = p ++ r.
Proof.
  induction p as [|a p IH]; intros s; simpl.
  - split; eauto.
  - destruct s as [|b s].
    + split; [discriminate | intros (r & E); discriminate].
    + rewrite andb_true_iff, N.eqb_eq, IH. split.
      * intros [-> (r & ->)]. eauto.
      * intros (r & E). inversion E; subst. eauto.
Qed.

(** The longest prefix in a class is unique. *)
Lemma span_unique (f : char -> bool) : forall l1 l2 r1 r2,
  l1 ++ r1 = l2 ++ r2 ->
  forallb f l1 = true -> forallb f l2 = true ->
  match r1 with [] => True | c :: _ => f c = false end ->
  match r2 with [] => True | c :: _ => f c = false end ->
  l1 = l2 /\ r1 = r2.
Proof.
  induction l1 as [|x l1 IH]; intros [|y l2] r1 r2 E H1 H2 E1 E2; simpl in *.
  - auto.
  - subst r1. apply andb_prop in H2. destruct H2 as [Hy _]. congruence.
  - subst r2. apply andb_prop in H1. destruct H1 as [Hx _]. congruence.
  - inversion E; subst y. apply andb_prop in H1, H2.
    destruct H1 as [_ H1], H2 as [_ H2].
    destruct (IH l2 r1 r2) as [-> ->]; auto.
Qed.

Lemma forallb_dropWhile f g s :
  forallb f s = true -> forallb f (dropWhile g s) = true.
Proof.
  induction s as [|c s IH]; simpl; [auto|].
  intros H. apply andb_prop in H. destruct H as [Hc H].
  destruct (g c); [auto | simpl; rewrite Hc, H; reflexivity].
Qed.

Lemma forallb_rev (f : char -> bool) s : forallb f (rev s) = forallb f s.
Proof.
  induction s as [|c s IH]; simpl; [reflexivity|].
  rewrite forallb_app, IH. simpl. rewrite andb_true_r. apply andb_comm.
Qed.

Lemma forallb_trim f s : forallb f s = true -> forallb f (trim s) = true.
Proof.
  intros H. unfold trim, trimEnd, trimStart.
  rewrite forallb_rev. apply forallb_dropWhile. rewrite forallb_rev.
  apply forallb_dropWhile. exact H.
Qed.

Lemma rev_inj (l1 l2 : jsstring) : rev l1 = rev l2 -> l1 = l2.
Proof. intros H. rewrite <- (rev_involutive l1), H. apply rev_involutive. Qed.

(** ** The patterns of the prototype generator *)

Ltac pos_eq H :=
  let E := fresh "E" in
  inversion H as [[E]]; clear H;
  try (apply app_inv_tail in E; apply rev_inj in E).

Lemma functionPattern_sound pre post p c :
  matches functionPattern (Pos (rev pre) post, []) (p, c) ->
  pre = [] /\
  exists rt nm params,
    FunctionLine post rt nm params /\
    capture 1 c = Some rt /\ capture 2 c = Some nm /\ capture 3 c = Some params.
Proof.
  unfold functionPattern. intros H.
  apply matches_seq in H. destruct H as (s0 & H0 & H).
  apply matches_bol in H0. destruct H0 as [Hpre ->].
  assert (pre = []) as -> by (apply rev_inj; exact Hpre). split; [reflexivity|].
  simpl rev in H.
  apply matches_seq in H. destruct H as (s1 & H1 & H).
  apply matches_star_cls in H1. destruct H1 as (ws0 & t0 & -> & Hws0 & ->).
  apply matches_seq in H. destruct H as (s2 & H2 & H).
  apply matches_group in H2; [|apply plain_words].
  destruct H2 as (rt & t1 & -> & Hrt & ->).
  apply matches_words in Hrt. destruct Hrt as (w & t1' & Hw & Ert & Epos).
  pos_eq Epos. subst t1' rt. clear Ert.
  apply matches_seq in H. destruct H as (s3 & H3 & H).
  apply matches_plus_cls in H3. destruct H3 as (ws1 & t2 & -> & Hne1 & Hws1 & ->).
  apply matches_seq in H. destruct H as (s4 & H4 & H).
  apply matches_group in H4; [|reflexivity].
  destruct H4 as (nm & t3 & -> & Hnm & ->).
  apply matches_seq in Hnm. destruct Hnm as (s5 & H5 & Hnm).
  apply matches_cls in H5. destruct H5 as (x & t4 & Ex & Hx & ->).
  apply matches_star_cls in Hnm. destruct Hnm as (nm' & t5 & -> & Hnm' & Epos).
  inversion Epos as [[Eb Ea]]; clear Epos. subst t5.
  change (rev nm' ++ x :: ?b) with (rev nm' ++ [x] ++ b) in Eb.
  rewrite (app_assoc (rev nm') [x]) in Eb. apply app_inv_tail in Eb.
  change (rev nm' ++ [x]) with (rev (x :: nm')) in Eb. apply rev_inj in Eb.
  subst nm. clear Ex.
  apply matches_seq in H. destruct H as (s6 & H6 & H).
  apply matches_star_cls in H6. destruct H6 as (ws2 & t6 & -> & Hws2 & ->).
  apply matches_seq in H. destruct H as (s7 & H7 & H).
  apply matches_chr in H7. destruct H7 as (t7 & -> & ->).
  apply matches_seq in H. destruct H as (s8 & H8 & H).
  apply matches_group in H8; [|reflexivity].
  destruct H8 as (params & t8 & -> & Hps & ->).
  apply matches_star_cls in Hps. destruct Hps as (ps' & t9 & Eps' & Hps' & Epos).
  pos_eq Epos. subst t9 ps'. clear Eps'.
  apply matches_seq in H. destruct H as (s9 & H9 & H).
  apply matches_chr in H9. destruct H9 as (t10 & -> & ->).
  apply matches_seq in H. destruct H as (s10 & H10 & H).
  apply matches_star_cls in H10. destruct H10 as (ws3 & t11 & -> & Hws3 & ->).
  apply matches_chr in H. destruct H as (rest & -> & E).
  inversion E; subst p c; clear E.
  exists (str w), (x :: nm'), params. split.
  - exists ws0, ws1, ws2, ws3, rest. repeat split; auto.
    + apply in_map. exact Hw.
    + exists x, nm'. auto.
  - simpl. auto.
Qed.

Lemma functionPattern_complete line rt nm params :
  FunctionLine line rt nm params ->
  exists p, matches functionPattern (Pos [] line, [])
              (p, [(3, params); (2, nm); (1, rt)]).
Proof.
  intros (ws0 & ws1 & ws2 & ws3 & rest & -> & Hws0 & Hrt & Hne1 & Hws1 &
          (x & nm' & -> & Hx & Hnm') & Hws2 & Hps & Hws3).
  apply in_map_iff in Hrt. destruct Hrt as (w & <- & Hw).
  eexists. unfold functionPattern.
  apply matches_seq. eexists. split; [apply matches_bol; auto|].
  apply matches_seq. eexists. split.
  { apply matches_star_cls. exists ws0. eexists. eauto. }
  apply matches_seq. eexists. split.
  { apply matches_group; [apply plain_words|]. exists (str w). eexists.
    split; [reflexivity|]. split; [|reflexivity].
    apply matches_words. exists w. eexists. eauto. }
  apply matches_seq. eexists. split.
  { apply matches_plus_cls. exists ws1. eexists. eauto. }
  apply matches_seq. eexists. split.
  { apply matches_group; [reflexivity|]. exists (x :: nm'). eexists.
    split; [reflexivity|]. split; [|reflexivity].
    apply matches_seq. eexists. split.
    - apply matches_cls. simpl. eexists x, _.
      split; [reflexivity|]. split; [exact Hx | reflexivity].
    - apply matches_star_cls. exists nm'. eexists.
      split; [reflexivity|]. split; [exact Hnm'|].
      do 2 f_equal. simpl rev. rewrite <- app_assoc. reflexivity. }
  apply matches_seq. eexists. split.
  { apply matches_star_cls. exists ws2. eexists. eauto. }
  apply matches_seq. eexists. split.
  { apply matches_chr. eexists. split; reflexivity. }
  apply matches_seq. eexists. split.
  { apply matches_group; [reflexivity|]. exists params. eexists.
    split; [reflexivity|]. split; [|reflexivity].
    apply matches_star_cls. exists params. eexists. eauto. }
  apply matches_seq. eexists. split.
  { apply matches_chr. eexists. split; reflexivity. }
  apply matches_seq. eexists. split.
  { apply matches_star_cls. exists ws3. eexists. eauto. }
  apply matches_chr. eexists. split; reflexivity.
Qed.

Lemma basicType_letters rt :
  In rt (map str basicTypes) ->
  forallb (fun c => negb (is_space c)) rt = true /\
  forallb is_word rt = true /\ rt <> [].
Proof.
  simpl. intros H.
  repeat (destruct H as [<-|H]; [repeat split; try reflexivity; discriminate|]).
  destruct H.
Qed.

Lemma ident_start_word c : is_ident_start c = true -> is_word c = true.
Proof.
  unfold is_ident_start, is_word. intros H.
  repeat (apply orb_prop in H; destruct H as [H|H]); rewrite H;
    repeat rewrite orb_true_r; reflexivity.
Qed.

Lemma word_not_space c : is_word c = true -> is_space c = false.
Proof.
  unfold is_word, is_space. intros H.
  repeat match goal with
         | H : (_ || _)%bool = true |- _ => apply orb_prop in H; destruct H as [H|H]
         | H : (_ && _)%bool = true |- _ => apply andb_prop in H; destruct H
         | H : (_ <=? _)%N = true |- _ => apply N.leb_le in H
         | H : (_ =? _)%N = true |- _ => apply N.eqb_eq in H
         end;
  repeat match goal with
         | |- (_ || _)%bool = false => apply orb_false_intro
         | |- (_ && _)%bool = false => apply andb_false_iff
         end;
  try (apply N.eqb_neq; lia);
  try (left; apply N.leb_gt; lia); try (right; apply N.leb_gt; lia).
Qed.

Lemma identifier_word nm : identifier nm -> forallb is_word nm = true.
Proof.
  intros (c & t & -> & Hc & Ht). simpl. rewrite (ident_start_word _ Hc), Ht.
  reflexivity.
Qed.

Lemma space_not_word c : is_space c = true -> is_word c = false.
Proof.
  intros H. destruct (is_word c) eqn:E; [|reflexivity].
  apply word_not_space in E. congruence.
Qed.

Lemma FunctionLine_unique line rt nm ps rt' nm' ps' :
  FunctionLine line rt nm ps -> FunctionLine line rt' nm' ps' ->
  rt = rt' /\ nm = nm' /\ ps = ps'.
Proof.
  intros (ws0 & ws1 & ws2 & ws3 & rest & -> & Hws0 & Hrt & Hne1 & Hws1 &
          Hnm & Hws2 & Hps & Hws3)
         (ws0' & ws1' & ws2' & ws3' & rest' & E & Hws0' & Hrt' & Hne1' & Hws1' &
          Hnm' & Hws2' & Hps' & Hws3').
  pose proof (identifier_word _ Hnm) as Wnm.
  pose proof (identifier_word _ Hnm') as Wnm'.
  destruct Hnm as (x & n & -> & Hx & Hn), Hnm' as (x' & n' & -> & Hx' & Hn').
  apply ident_start_word in Hx, Hx'.
  destruct (basicType_letters _ Hrt) as (Nrt & _ & Ert).
  destruct (basicType_letters _ Hrt') as (Nrt' & _ & Ert').
  apply span_unique with (f := is_space) in E; auto.
  2:{ destruct rt; [congruence|]. simpl in *. apply andb_prop in Nrt.
      destruct Nrt as [Nrt _]. apply negb_true_iff in Nrt. exact Nrt. }
  2:{ destruct rt'; [congruence|]. simpl in *. apply andb_prop in Nrt'.
      destruct Nrt' as [Nrt' _]. apply negb_true_iff in Nrt'. exact Nrt'. }
  destruct E as [_ E].
  apply span_unique with (f := fun c => negb (is_space c)) in E; auto.
  2:{ destruct ws1; [congruence|]. simpl in *. apply andb_prop in Hws1.
      destruct Hws1 as [-> _]. reflexivity. }
  2:{ destruct ws1'; [congruence|]. simpl in *. apply andb_prop in Hws1'.
      destruct Hws1' as [-> _]. reflexivity. }
  destruct E as [<- E]. split; [reflexivity|].
  apply span_unique with (f := is_space) in E; auto.
  2:{ simpl. apply word_not_space. exact Hx. }
  2:{ simpl. apply word_not_space. exact Hx'. }
  destruct E as [_ E].
  apply span_unique with (f := is_word) in E; auto.
  2:{ destruct ws2; simpl in *; [reflexivity|]. apply andb_prop in Hws2.
      destruct Hws2 as [H _]. apply space_not_word. exact H. }
  2:{ destruct ws2'; simpl in *; [reflexivity|]. apply andb_prop in Hws2'.
      destruct Hws2' as [H _]. apply space_not_word. exact H. }
  destruct E as [<- E]. split; [reflexivity|].
  apply span_unique with (f := is_space) in E; auto; try reflexivity.
  destruct E as [_ E]. inversion E as [E']; clear E.
  apply span_unique with (f := fun c => negb (existsb (N.eqb c) (str ")"))) in E';
    auto; try reflexivity.
  destruct E' as [<- _]. reflexivity.
Qed.

Lemma eqb_eq s : forall t, JS.eqb s t = true <-> s = t.
Proof.
  induction s as [|a s IH]; intros [|b t]; simpl; try (split; congruence).
  rewrite andb_true_iff, N.eqb_eq, IH. split.
  - intros [-> ->]. reflexivity.
  - intros E. inversion E. auto.
Qed.

(** What [scanLine] records for a line. *)
Lemma scanLine_cases line :
  (scanLine line = [] /\
   forall rt nm ps, FunctionLine line rt nm ps -> nm = str "main") \/
  (exists rt nm ps,
     FunctionLine line rt nm ps /\ nm <> str "main" /\
     scanLine line = [Func nm (prototypeOf rt nm ps)]).
Proof.
  unfold scanLine. destruct (exec functionPattern line) as [[p c]|] eqn:E.
  - apply exec_from_sound in E. destruct E as (pre & post & -> & H).
    rewrite app_nil_r in H. apply functionPattern_sound in H.
    destruct H as (-> & rt & nm & ps & HF & E1 & E2 & E3). simpl app.
    unfold group. rewrite E1, E2, E3.
    destruct (JS.eqb nm (str "main")) eqn:Em.
    + left. split; [reflexivity|]. intros rt' nm' ps' HF'.
      destruct (FunctionLine_unique _ _ _ _ _ _ _ HF HF') as (_ & <- & _).
      apply eqb_eq. exact Em.
    + right. exists rt, nm, ps. repeat split; auto.
      intros ->. simpl in Em. discriminate.
  - left. split; [reflexivity|]. intros rt nm ps HF. exfalso.
    destruct (functionPattern_complete _ _ _ _ HF) as (p & H).
    revert E. apply (exec_from_complete _ [] [] _ _ H).
Qed.

Lemma scanLine_function line rt nm ps :
  FunctionLine line rt nm ps -> nm <> str "main" ->
  scanLine line = [Func nm (prototypeOf rt nm ps)].
Proof.
  intros HF Hnm. destruct (scanLine_cases line) as [[_ H]|(rt' & nm' & ps' & HF' & _ & E)].
  - elim Hnm. eapply H. exact HF.
  - destruct (FunctionLine_unique _ _ _ _ _ _ _ HF HF') as (<- & <- & <-). exact E.
Qed.

Lemma no_word_at_end_boundary pre x rest :
  is_word x = true ->
  at_word_boundary (Pos (rev pre) (x :: rest)) = true <-> no_word_at_end pre.
Proof.
  intros Hx. unfold at_word_boundary, no_word_at_end, word_before, word_after.
  simpl. rewrite Hx. destruct (rev pre) as [|c t]; [split; reflexivity|].
  destruct (is_word c); simpl; split; congruence.
Qed.

(** [declarationOf] finds exactly the declarations of [DeclaredIn]. *)
Lemma declarationOf_found nm area :
  identifier nm ->
  found_in (declarationOf nm) area <-> DeclaredIn nm area.
Proof.
  intros Hid. pose proof Hid as (x & n & -> & Hx & Hn).
  apply ident_start_word in Hx. unfold declarationOf. split.
  - intros (pre & post & [p c] & -> & H).
    apply matches_seq in H. destruct H as (s0 & H0 & H).
    apply matches_wordb in H0. destruct H0 as [Hb ->].
    apply matches_seq in H. destruct H as (s1 & H1 & H).
    apply matches_lit in H1. destruct H1 as (t1 & -> & ->).
    apply matches_seq in H. destruct H as (s2 & H2 & H).
    apply matches_star_cls in H2. destruct H2 as (ws1 & t2 & -> & Hws1 & ->).
    apply matches_seq in H. destruct H as (s3 & H3 & H).
    apply matches_chr in H3. destruct H3 as (t3 & -> & ->).
    apply matches_seq in H. destruct H as (s4 & H4 & H).
    apply matches_star_cls in H4. destruct H4 as (args & t4 & -> & Hargs & ->).
    apply matches_seq in H. destruct H as (s5 & H5 & H).
    apply matches_chr in H5. destruct H5 as (t5 & -> & ->).
    apply matches_seq in H. destruct H as (s6 & H6 & H).
    apply matches_star_cls in H6. destruct H6 as (ws2 & t6 & -> & Hws2 & ->).
    apply matches_chr in H. destruct H as (rest & -> & _).
    exists pre, ws1, args, ws2, rest. repeat split; auto.
    simpl in Hb. apply (no_word_at_end_boundary pre x _ Hx) in Hb. exact Hb.
  - intros (pre & ws1 & args & ws2 & post & -> & Hpre & Hws1 & Hargs & Hws2).
    exists pre. eexists. eexists. split; [reflexivity|].
    apply matches_seq. eexists. split.
    { apply matches_wordb. split; [|reflexivity]. simpl.
      apply (no_word_at_end_boundary pre x _ Hx). exact Hpre. }
    apply matches_seq. eexists. split.
    { apply matches_lit. eexists. split; reflexivity. }
    apply matches_seq. eexists. split.
    { apply matches_star_cls. exists ws1. eexists. eauto. }
    apply matches_seq. eexists. split.
    { apply matches_chr. eexists. split; reflexivity. }
    apply matches_seq. eexists. split.
    { apply matches_star_cls. exists args. eexists. eauto. }
    apply matches_seq. eexists. split.
    { apply matches_chr. eexists. split; reflexivity. }
    apply matches_seq. eexists. split.
    { apply matches_star_cls. exists ws2. eexists. eauto. }
    apply matches_chr. eexists. split; reflexivity.
Qed.

Lemma mainPattern_found line :
  found_in mainPattern line -> EntryPointLine line.
Proof.
  intros (pre & post & [p c] & -> & H). unfold mainPattern in H.
  apply matches_seq in H. destruct H as (s0 & H0 & H).
  apply matches_bol in H0. destruct H0 as [Hpre ->].
  assert (pre = []) as -> by (apply rev_inj; exact Hpre). simpl rev in H.
  apply matches_seq in H. destruct H as (s1 & H1 & H).
  apply matches_star_cls in H1. destruct H1 as (ws0 & t0 & -> & Hws0 & ->).
  apply matches_seq in H. destruct H as (s2 & H2 & H).
  apply matches_group in H2; [|apply plain_words].
  destruct H2 as (rt & t1 & -> & Hrt & ->).
  apply matches_words in Hrt. destruct Hrt as (w & t1' & Hw & Ert & Epos).
  pos_eq Epos. subst t1' rt. clear Ert.
  apply matches_seq in H. destruct H as (s3 & H3 & H).
  apply matches_plus_cls in H3. destruct H3 as (ws1 & t2 & -> & Hne1 & Hws1 & ->).
  apply matches_seq in H. destruct H as (s4 & H4 & H).
  apply matches_lit in H4. destruct H4 as (t3 & -> & ->).
  apply matches_seq in H. destruct H as (s5 & H5 & H).
  apply matches_star_cls in H5. destruct H5 as (ws2 & t4 & -> & Hws2 & ->).
  apply matches_chr in H. destruct H as (rest & -> & _).
  exists ws0, w, ws1, ws2, rest. repeat split; auto.
Qed.

Lemma EntryPointLine_found line :
  EntryPointLine line -> found_in mainPattern line.
Proof.
  intros (ws0 & w & ws1 & ws2 & rest & -> & Hws0 & Hw & Hne1 & Hws1 & Hws2).
  exists []. eexists. eexists. split; [reflexivity|]. unfold mainPattern.
  apply matches_seq. eexists. split; [apply matches_bol; auto|].
  apply matches_seq. eexists. split.
  { apply matches_star_cls. exists ws0. eexists. eauto. }
  apply matches_seq. eexists. split.
  { apply matches_group; [apply plain_words|]. exists (str w). eexists.
    split; [reflexivity|]. split; [|reflexivity].
    apply matches_words. exists w. eexists. eauto. }
  apply matches_seq. eexists. split.
  { apply matches_plus_cls. exists ws1. eexists. eauto. }
  apply matches_seq. eexists. split.
  { apply matches_lit. eexists. split; reflexivity. }
  apply matches_seq. eexists. split.
  { apply matches_star_cls. exists ws2. eexists. eauto. }
  apply matches_chr. eexists. split; reflexivity.
Qed.

Lemma mainPattern_test line :
  test mainPattern line = true <-> EntryPointLine line.
Proof.
  rewrite test_found_in. split; [apply mainPattern_found | apply EntryPointLine_found].
Qed.

(** ** The scans for the include line and the entry point *)

Lemma scanIncludes_cons l ls i last :
  scanIncludes (l :: ls) i last
  = scanIncludes ls (S i) (if isInclude l then Some i else last).
Proof. reflexivity. Qed.

Lemma scanMain_cons l ls i :
  scanMain (l :: ls) i = if isMain l then Some i else scanMain ls (S i).
Proof. reflexivity. Qed.

Lemma scanIncludes_app a : forall b i last,
  scanIncludes (a ++ b) i last =
  scanIncludes b (i + length a) (scanIncludes a i last).
Proof.
  induction a as [|l a IH]; intros b i last.
  - simpl. rewrite Nat.add_0_r. reflexivity.
  - rewrite <- app_comm_cons, !scanIncludes_cons, IH. simpl length.
    f_equal. lia.
Qed.

Lemma scanIncludes_none ls : forall i last,
  forallb (fun l => negb (isInclude l)) ls = true ->
  scanIncludes ls i last = last.
Proof.
  induction ls as [|l ls IH]; intros i last H; [reflexivity|].
  cbn [forallb] in H. apply andb_prop in H. destruct H as [Hl H].
  apply negb_true_iff in Hl. rewrite scanIncludes_cons, Hl. apply IH. exact H.
Qed.

Lemma scanIncludes_some ls : forall i last L,
  scanIncludes ls i last = Some L ->
  (last = Some L /\ forallb (fun l => negb (isInclude l)) ls = true) \/
  (exists hd incl tl,
      ls = hd ++ incl :: tl /\ L = i + length hd /\ isInclude incl = true /\
      forallb (fun l => negb (isInclude l)) tl = true).
Proof.
  induction ls as [|l ls IH]; intros i last L H.
  - left. auto.
  - rewrite scanIncludes_cons in H. apply IH in H.
    destruct H as [[E Hn]|(hd & incl & tl & -> & -> & Hi & Hn)].
    + destruct (isInclude l) eqn:El.
      * right. exists [], l, ls. inversion E; subst. simpl.
        rewrite Nat.add_0_r. auto.
      * left. cbn [forallb]. rewrite El. auto.
    + right. exists (l :: hd), incl, tl. simpl. repeat split; auto; lia.
Qed.

Lemma scanIncludes_is_none ls : forall i last,
  scanIncludes ls i last = None ->
  last = None /\ forallb (fun l => negb (isInclude l)) ls = true.
Proof.
  induction ls as [|l ls IH]; intros i last H; [auto|].
  rewrite scanIncludes_cons in H. apply IH in H. destruct H as [E Hn].
  cbn [forallb]. destruct (isInclude l); [discriminate|]. auto.
Qed.

Lemma lastIncludeLine_none lines :
  lastIncludeLine lines = None <->
  forallb (fun l => negb (isInclude l)) lines = true.
Proof.
  unfold lastIncludeLine. split.
  - intros H. apply scanIncludes_is_none in H. tauto.
  - apply scanIncludes_none.
Qed.

Lemma lastIncludeLine_some lines L :
  lastIncludeLine lines = Some L <->
  exists hd incl tl,
    lines = hd ++ incl :: tl /\ length hd = L /\ isInclude incl = true /\
    forallb (fun l => negb (isInclude l)) tl = true.
Proof.
  unfold lastIncludeLine. split.
  - intros H. apply scanIncludes_some in H.
    destruct H as [[E _]|(hd & incl & tl & -> & -> & Hi & Hn)]; [discriminate|].
    exists hd, incl, tl. auto.
  - intros (hd & incl & tl & -> & <- & Hi & Hn).
    rewrite scanIncludes_app, scanIncludes_cons, Hi.
    apply scanIncludes_none. exact Hn.
Qed.

Lemma scanMain_some ls : forall i M,
  scanMain ls i = Some M <->
  exists ar mainl bd,
    ls = ar ++ mainl :: bd /\ M = i + length ar /\
    forallb (fun l => negb (isMain l)) ar = true /\ isMain mainl = true.
Proof.
  induction ls as [|l ls IH]; intros i M.
  - split; [discriminate | intros ([|? ?] & ? & ? & E & _); discriminate].
  - rewrite scanMain_cons. destruct (isMain l) eqn:El.
    + split.
      * intros E. inversion E; subst. exists [], l, ls. simpl.
        rewrite Nat.add_0_r. auto.
      * intros ([|a ar] & mainl & bd & E & -> & Hn & Hm).
        -- simpl. f_equal. lia.
        -- inversion E; subst a. cbn [forallb] in Hn. rewrite El in Hn.
           discriminate.
    + rewrite IH. split.
      * intros (ar & mainl & bd & -> & -> & Hn & Hm).
        exists (l :: ar), mainl, bd. cbn [forallb]. rewrite El.
        repeat split; auto; simpl; lia.
      * intros ([|a ar] & mainl & bd & E & -> & Hn & Hm).
        -- inversion E; subst. congruence.
        -- inversion E; subst. cbn [forallb] in Hn. apply andb_prop in Hn.
           destruct Hn as [_ Hn].
           exists ar, mainl, bd. repeat split; auto; simpl; lia.
Qed.

Lemma scanMain_none ls : forall i,
  scanMain ls i = None <-> forallb (fun l => negb (isMain l)) ls = true.
Proof.
  induction ls as [|l ls IH]; intros i; [simpl; tauto|].
  rewrite scanMain_cons. cbn [forallb].
  destruct (isMain l); simpl; [split; discriminate | apply IH].
Qed.

Lemma skipn_S_app_cons {A} (l1 : list A) x l2 :
  skipn (S (length l1)) (l1 ++ x :: l2) = l2.
Proof. induction l1; simpl; auto. Qed.

(** A document with both anchors has a well-anchored layout, and the
    other way round. *)
Lemma anchors_layout lines L M :
  lastIncludeLine lines = Some L -> mainLine lines L = Some M ->
  exists d, lines = linesOf d /\ wellAnchored d /\
            L = length (head d) /\ M = S L + length (area d).
Proof.
  intros HL HM. apply lastIncludeLine_some in HL.
  destruct HL as (hd & incl & tl & -> & <- & Hi & Hn).
  unfold mainLine in HM. rewrite skipn_S_app_cons in HM.
  apply scanMain_some in HM. destruct HM as (ar & mainl & bd & -> & -> & Hnm & Hm).
  exists (Layout hd incl ar mainl bd). unfold linesOf, wellAnchored. simpl.
  repeat split; auto.
Qed.

Lemma layout_anchors d :
  wellAnchored d ->
  lastIncludeLine (linesOf d) = Some (length (head d)) /\
  mainLine (linesOf d) (length (head d))
    = Some (S (length (head d)) + length (area d)) /\
  prototypeArea (linesOf d) (length (head d))
    (S (length (head d)) + length (area d)) = join_lines (area d) /\
  foundFunctions (linesOf d) (S (length (head d)) + length (area d))
    = flat_map scanLine (body d).
Proof.
  intros (Hi & Hn & Hnm & Hm). unfold linesOf. repeat split.
  - apply lastIncludeLine_some. exists (head d), (includeLine d). eauto.
  - unfold mainLine. rewrite skipn_S_app_cons. apply scanMain_some.
    exists (area d), (entryLine d), (body d). auto.
  - unfold prototypeArea, slice. rewrite skipn_S_app_cons.
    replace (S (length (head d)) + length (area d) - S (length (head d)))
      with (length (area d) + 0) by lia.
    rewrite firstn_app_2. simpl. rewrite app_nil_r. reflexivity.
  - unfold foundFunctions. f_equal.
    replace (S (S (length (head d)) + length (area d)))
      with (S (length (head d ++ includeLine d :: area d)))
      by (rewrite length_app; simpl; lia).
    replace (head d ++ includeLine d :: area d ++ entryLine d :: body d)
      with ((head d ++ includeLine d :: area d) ++ entryLine d :: body d)
      by (rewrite <- app_assoc; reflexivity).
    apply skipn_S_app_cons.
Qed.

(** ** The filter for missing prototypes *)

Lemma filterMissing_words areaText fs :
  Forall (fun f => forallb is_word (name f) = true) fs ->
  filterMissing areaText fs = Some (filter (undeclared areaText) fs).
Proof.
  induction 1 as [|f fs Hf _ IH]; simpl; [reflexivity|].
  unfold newRegExp. rewrite Hf, IH. reflexivity.
Qed.

Lemma found_function body f :
  In f (flat_map scanLine body) ->
  exists line rt ps,
    In line body /\ FunctionLine line rt (name f) ps /\
    name f <> str "main" /\ prototype f = prototypeOf rt (name f) ps.
Proof.
  intros H. apply in_flat_map in H. destruct H as (line & Hl & Hf).
  destruct (scanLine_cases line) as [[E _]|(rt & nm & ps & HF & Hnm & E)];
    rewrite E in Hf; simpl in Hf; [destruct Hf|].
  destruct Hf as [<-|[]]. exists line, rt, ps. auto.
Qed.

Lemma found_names_words body :
  Forall (fun f => forallb is_word (name f) = true) (flat_map scanLine body).
Proof.
  apply Forall_forall. intros f Hf. apply found_function in Hf.
  destruct Hf as (line & rt & ps & _ & (ws0 & ws1 & ws2 & ws3 & rest & _ & _ & _ &
                                        _ & _ & Hid & _) & _).
  apply identifier_word. exact Hid.
Qed.

(** The missing prototypes of a well-anchored document. *)
Lemma missingPrototypes_layout text d :
  split_lines text = linesOf d -> wellAnchored d ->
  missingPrototypes text
  = Some (filter (undeclared (join_lines (area d))) (flat_map scanLine (body d))).
Proof.
  intros E Hd. unfold missingPrototypes. rewrite E.
  destruct (layout_anchors d Hd) as (-> & -> & -> & ->).
  destruct (flat_map scanLine (body d)) eqn:Ef; [reflexivity|]. rewrite <- Ef.
  apply filterMissing_words. apply found_names_words.
Qed.

(** The generator never throws. *)
Lemma missingPrototypes_total text :
  exists out, missingPrototypes text = Some out.
Proof.
  unfold missingPrototypes.
  destruct (lastIncludeLine (split_lines text)) as [L|] eqn:EL; [|eauto].
  destruct (mainLine (split_lines text) L) as [M|] eqn:EM; [|eauto].
  destruct (anchors_layout _ _ _ EL EM) as (d & E & Hd & -> & ->).
  rewrite E. destruct (layout_anchors d Hd) as (_ & _ & -> & ->).
  destruct (flat_map scanLine (body d)) eqn:Ef; [eauto|]. rewrite <- Ef.
  rewrite filterMissing_words; [eauto | apply found_names_words].
Qed.

(** ** The prototype generator *)

Lemma isInclude_iff line : isInclude line = true <-> IncludeLine line.
Proof. apply startsWith_iff. Qed.

Lemma synthesize_nil text :
  missingPrototypes text = Some [] -> synthesize text = Some [].
Proof. unfold synthesize. intros ->. reflexivity. Qed.

Lemma forallb_skipn_nth {A} (f : A -> bool) (l : list A) n :
  (forall i x, n <= i -> nth_error l i = Some x -> f x = true) ->
  forallb f (skipn n l) = true.
Proof.
  intros H. apply forallb_forall. intros x Hx.
  apply In_nth_error in Hx. destruct Hx as [j Hj].
  rewrite nth_error_skipn in Hj. apply (H (n + j)); [lia | exact Hj].
Qed.

(** C4. A document without an include line, or without an entry-point
    line after its last include line, gets no prototypes, whatever else
    it contains. *)
Theorem synthesize_without_anchor : forall text,
  (forall line, In line (split_lines text) -> ~ IncludeLine line) \/
  (exists L, lastIncludeLine (split_lines text) = Some L /\
     forall i line, L < i -> nth_error (split_lines text) i = Some line ->
                    ~ EntryPointLine line) ->
  synthesize text = Some [].
Proof.
  intros text [H|(L & HL & H)]; apply synthesize_nil; unfold missingPrototypes.
  - replace (lastIncludeLine (split_lines text)) with (@None nat); [reflexivity|].
    symmetry. apply lastIncludeLine_none. apply forallb_forall. intros l Hl.
    destruct (isInclude l) eqn:E; [|reflexivity].
    apply isInclude_iff in E. elim (H l Hl E).
  - rewrite HL.
    replace (mainLine (split_lines text) L) with (@None nat); [reflexivity|].
    symmetry. unfold mainLine. apply scanMain_none. apply forallb_skipn_nth.
    intros i l Hi Hl. destruct (isMain l) eqn:E; [|reflexivity].
    apply mainPattern_test in E. elim (H i l Hi Hl E).
Qed.

Lemma synthesize_without_anchor_witness :
  synthesize noEntryPoint = Some [].
Proof.
  apply synthesize_without_anchor. right. exists 0. split; [reflexivity|].
  intros i line Hi Hl E. apply mainPattern_test in E.
  destruct i as [|[|[|[|[|i]]]]]; [lia| | | | |];
    try (inversion Hl; subst line; vm_compute in E; discriminate).
  destruct i; discriminate.
Defined.

Lemma undeclared_iff areaText f :
  identifier (name f) ->
  undeclared areaText f = true <-> ~ DeclaredIn (name f) areaText.
Proof.
  intros Hid. unfold undeclared. rewrite negb_true_iff, test_false_iff.
  rewrite (declarationOf_found _ areaText Hid). tauto.
Qed.

Lemma FunctionLine_identifier line rt nm ps :
  FunctionLine line rt nm ps -> identifier nm.
Proof.
  intros (ws0 & ws1 & ws2 & ws3 & rest & _ & _ & _ & _ & _ & Hid & _). exact Hid.
Qed.

Lemma anchors_missing text L M :
  lastIncludeLine (split_lines text) = Some L ->
  mainLine (split_lines text) L = Some M ->
  missingPrototypes text
  = Some (filter (undeclared (prototypeArea (split_lines text) L M))
            (foundFunctions (split_lines text) M)).
Proof.
  intros HL HM. destruct (anchors_layout _ _ _ HL HM) as (d & E & Hd & -> & ->).
  rewrite (missingPrototypes_layout text d E Hd), E.
  destruct (layout_anchors d Hd) as (_ & _ & -> & ->). reflexivity.
Qed.

(** C5. Every prototype of the output comes from a line after the entry
    point that defines the function, and is never a prototype of [main],
    even where a later line defines [main] in the shape of a function
    definition. *)
Theorem synthesize_only_discovered :
  (forall text, exists out,
     missingPrototypes text = Some out /\
     forall f, In f out ->
       name f <> str "main" /\
       exists L M i line rt ps,
         lastIncludeLine (split_lines text) = Some L /\
         mainLine (split_lines text) L = Some M /\
         M < i /\ nth_error (split_lines text) i = Some line /\
         FunctionLine line rt (name f) ps /\
         prototype f = prototypeOf rt (name f) ps) /\
  FunctionLine (str "int main(void) {") (str "int") (str "main") (str "void") /\
  synthesize secondMain = Some [str "int twice(int x);"].
Proof.
  split; [|split; [|reflexivity]].
  - intros text. unfold missingPrototypes.
    destruct (lastIncludeLine (split_lines text)) as [L|] eqn:HL;
      [|exists []; split; [reflexivity | intros f []]].
    destruct (mainLine (split_lines text) L) as [M|] eqn:HM;
      [|exists []; split; [reflexivity | intros f []]].
    pose proof (anchors_missing text L M HL HM) as E.
    unfold missingPrototypes in E. rewrite HL, HM in E. rewrite E.
    eexists. split; [reflexivity|]. intros f Hf.
    apply filter_In in Hf. destruct Hf as [Hf _].
    unfold foundFunctions in Hf. apply found_function in Hf.
    destruct Hf as (line & rt & ps & Hl & HF & Hnm & Ep).
    split; [exact Hnm|].
    apply In_nth_error in Hl. destruct Hl as [j Hj].
    rewrite nth_error_skipn in Hj.
    exists L, M, (S M + j), line, rt, ps. repeat split; auto. lia.
  - exists [], (str " "), [], (str " "), []. repeat split; try reflexivity.
    + simpl. auto.
    + discriminate.
    + exists 109%N, (str "ain"). repeat split; reflexivity.
Qed.

Lemma synthesize_only_discovered_witness :
  name (Func (str "twice") (str "int twice(int x);")) <> str "main".
Proof.
  destruct (proj1 synthesize_only_discovered secondMain) as (out & E & H).
  vm_compute in E. injection E as <-. apply H. left. reflexivity.
Defined.

(** C1, as the code has it. A function found after the entry point is
    left out of the output exactly when the declaration area contains its
    name, not preceded by a character of [\w], then an argument list in
    parentheses that has no closing parenthesis inside, then a semicolon,
    with optional white space before the list and before the semicolon. *)
Theorem declared_function_excluded : forall text L M f,
  lastIncludeLine (split_lines text) = Some L ->
  mainLine (split_lines text) L = Some M ->
  In f (foundFunctions (split_lines text) M) ->
  exists out,
    missingPrototypes text = Some out /\
    (~ In f out <-> DeclaredIn (name f) (prototypeArea (split_lines text) L M)).
Proof.
  intros text L M f HL HM Hf. rewrite (anchors_missing text L M HL HM).
  eexists. split; [reflexivity|]. rewrite filter_In.
  assert (Hid : identifier (name f)).
  { unfold foundFunctions in Hf. apply found_function in Hf.
    destruct Hf as (line & rt & ps & _ & HF & _).
    apply (FunctionLine_identifier _ _ _ _ HF). }
  pose proof (undeclared_iff (prototypeArea (split_lines text) L M) f Hid) as Hu.
  destruct (undeclared (prototypeArea (split_lines text) L M) f).
  - split.
    + intros Hn. elim Hn. auto.
    + intros Hd [_ _]. apply (proj1 Hu eq_refl). exact Hd.
  - split.
    + intros _. destruct (declarationOf_found (name f)
                  (prototypeArea (split_lines text) L M) Hid) as [H1 _].
      apply H1. apply test_found_in.
      destruct (test (declarationOf (name f)) _) eqn:Et; [reflexivity|].
      exfalso. assert (Hnd : ~ DeclaredIn (name f) (prototypeArea (split_lines text) L M)).
      { intros Hd. apply (declarationOf_found _ _ Hid) in Hd.
        apply test_found_in in Hd. congruence. }
      apply Hu in Hnd. discriminate.
    + intros _ [_ F]. discriminate.
Qed.

Lemma declared_function_excluded_witness :
  exists out,
    missingPrototypes nestedParenthesis = Some out /\
    (~ In (Func (str "fill") (str "void fill(int *buf);")) out <->
     DeclaredIn (str "fill") (str "void fill(int buf[sizeof(int)]);")).
Proof.
  apply (declared_function_excluded nestedParenthesis 0 2
           (Func (str "fill") (str "void fill(int *buf);")));
    try reflexivity.
  left. reflexivity.
Defined.

(** C1, as stated, fails: with an argument list of any content, the
    declaration of [fill] in [nestedParenthesis] would count, but the
    code does not leave [fill] out. *)
Lemma declared_any_args_not_excluded :
  ~ (forall text L M f,
       lastIncludeLine (split_lines text) = Some L ->
       mainLine (split_lines text) L = Some M ->
       In f (foundFunctions (split_lines text) M) ->
       exists out,
         missingPrototypes text = Some out /\
         (~ In f out <->
          DeclaredAnyArgs (name f) (prototypeArea (split_lines text) L M))).
Proof.
  intros H.
  destruct (H nestedParenthesis 0 2 (Func (str "fill") (str "void fill(int *buf);"))
              eq_refl eq_refl (or_introl eq_refl)) as (out & E & Hiff).
  vm_compute in E. injection E as <-.
  apply (proj2 Hiff); [|left; reflexivity].
  exists (str "void "), [], (str "int buf[sizeof(int)]"), [], [].
  repeat split; reflexivity.
Qed.

Lemma Emitted_filter areaText body :
  Emitted areaText body
    (map prototype (filter (undeclared areaText) (flat_map scanLine body))).
Proof.
  induction body as [|line body IH]; [constructor|].
  cbn [flat_map]. rewrite filter_app, map_app.
  destruct (scanLine_cases line) as [[E Hmain]|(rt & nm & ps & HF & Hnm & E)];
    rewrite E.
  - simpl. apply Emitted_skip; [|exact IH].
    intros rt nm ps HF. left. apply (Hmain _ _ _ HF).
  - pose proof (undeclared_iff areaText (Func nm (prototypeOf rt nm ps))
                  (FunctionLine_identifier _ _ _ _ HF)) as Hu.
    cbn [filter]. destruct (undeclared areaText _) eqn:Eu.
    + simpl. apply Emitted_prototype; auto. apply Hu. reflexivity.
    + simpl. apply Emitted_skip; [|exact IH].
      intros rt' nm' ps' HF'. right.
      destruct (FunctionLine_unique _ _ _ _ _ _ _ HF HF') as (_ & <- & _).
      destruct (declarationOf_found nm areaText
                  (FunctionLine_identifier _ _ _ _ HF)) as [H1 _].
      apply H1. apply test_found_in. unfold undeclared in Eu.
      apply negb_false_iff in Eu. exact Eu.
Qed.

Lemma Emitted_unique areaText body out :
  Emitted areaText body out ->
  forall out', Emitted areaText body out' -> out' = out.
Proof.
  induction 1 as [|line lines out Hskip _ IH
                  |line rt nm ps lines out HF Hnm Hnd _ IH];
    intros out' H'; inversion H'; subst.
  - reflexivity.
  - apply IH. assumption.
  - match goal with
    | HF' : FunctionLine line _ _ _ |- _ =>
        destruct (Hskip _ _ _ HF'); contradiction
    end.
  - match goal with
    | Hs : forall rt nm ps, FunctionLine line rt nm ps -> _ |- _ =>
        destruct (Hs _ _ _ HF); contradiction
    end.
  - match goal with
    | HF' : FunctionLine line _ _ _ |- _ =>
        destruct (FunctionLine_unique _ _ _ _ _ _ _ HF HF') as (<- & <- & <-)
    end.
    f_equal. apply IH. assumption.
Qed.

(** C3. The output is one prototype, of the form return type, space,
    name, parameter list in parentheses as written but trimmed, and
    semicolon, for each line after the entry point that defines a
    function which is neither [main] nor declared, in the order of the
    lines; so [int add(int a, int b) {] alone gives
    [int add(int a, int b);], and [b] defined before [a] is declared
    before [a]. *)
Theorem synthesize_prototypes_in_source_order :
  (forall text L M,
     lastIncludeLine (split_lines text) = Some L ->
     mainLine (split_lines text) L = Some M ->
     exists out,
       synthesize text = Some out /\
       Emitted (prototypeArea (split_lines text) L M)
         (skipn (S M) (split_lines text)) out /\
       forall out',
         Emitted (prototypeArea (split_lines text) L M)
           (skipn (S M) (split_lines text)) out' -> out' = out) /\
  synthesize oneFunction = Some [str "int add(int a, int b);"] /\
  synthesize bThenA = Some [str "int b(int x);"; str "int a(int  y);"].
Proof.
  split; [|split; reflexivity].
  intros text L M HL HM. unfold synthesize.
  rewrite (anchors_missing text L M HL HM). eexists. split; [reflexivity|].
  pose proof (Emitted_filter (prototypeArea (split_lines text) L M)
                (skipn (S M) (split_lines text))) as HE.
  split; [exact HE|]. apply Emitted_unique. exact HE.
Qed.

Lemma synthesize_prototypes_in_source_order_witness :
  exists out,
    synthesize bThenA = Some out /\
    Emitted (prototypeArea (split_lines bThenA) 0 1)
      (skipn 2 (split_lines bThenA)) out /\
    forall out',
      Emitted (prototypeArea (split_lines bThenA) 0 1)
        (skipn 2 (split_lines bThenA)) out' -> out' = out.
Proof.
  apply (proj1 synthesize_prototypes_in_source_order bThenA 0 1); reflexivity.
Defined.

Lemma scanLine_kept areaText line rt nm ps :
  FunctionLine line rt nm ps -> nm <> str "main" -> ~ DeclaredIn nm areaText ->
  map prototype (filter (undeclared areaText) (scanLine line))
  = [prototypeOf rt nm ps].
Proof.
  intros HF Hnm Hnd. rewrite (scanLine_function _ _ _ _ HF Hnm). cbn [filter].
  replace (undeclared areaText (Func nm (prototypeOf rt nm ps))) with true;
    [reflexivity|].
  symmetry. apply undeclared_iff; [|exact Hnd].
  apply (FunctionLine_identifier _ _ _ _ HF).
Qed.

Lemma nth_error_split_two {A} (l : list A) i j x y :
  i < j -> nth_error l i = Some x -> nth_error l j = Some y ->
  exists l1 l2 l3, l = l1 ++ x :: l2 ++ y :: l3 /\ length l1 = i.
Proof.
  intros Hij Hi Hj.
  apply nth_error_split in Hi. destruct Hi as (l1 & r & -> & <-).
  rewrite nth_error_app2 in Hj by lia.
  replace (j - length l1) with (S (j - length l1 - 1)) in Hj by lia.
  simpl in Hj. apply nth_error_split in Hj. destruct Hj as (l2 & l3 & -> & _).
  exists l1, l2, l3. auto.
Qed.

(** C10. The output is not deduplicated by name: two lines after the
    entry point that define the same undeclared function each contribute
    their prototype. *)
Theorem synthesize_keeps_duplicates :
  (forall text L M i j line1 line2 rt1 ps1 rt2 ps2 nm,
     lastIncludeLine (split_lines text) = Some L ->
     mainLine (split_lines text) L = Some M ->
     M < i -> i < j ->
     nth_error (split_lines text) i = Some line1 ->
     nth_error (split_lines text) j = Some line2 ->
     FunctionLine line1 rt1 nm ps1 -> FunctionLine line2 rt2 nm ps2 ->
     nm <> str "main" ->
     ~ DeclaredIn nm (prototypeArea (split_lines text) L M) ->
     exists o1 o2 o3,
       synthesize text
       = Some (o1 ++ prototypeOf rt1 nm ps1 :: o2 ++ prototypeOf rt2 nm ps2 :: o3)) /\
  synthesize sameNameTwice = Some [str "int f(int a);"; str "int f(int b);"].
Proof.
  split; [|reflexivity].
  intros text L M i j line1 line2 rt1 ps1 rt2 ps2 nm HL HM Hi Hij H1 H2 HF1 HF2
         Hnm Hnd.
  unfold synthesize. rewrite (anchors_missing text L M HL HM).
  unfold foundFunctions.
  assert (Hi' : nth_error (skipn (S M) (split_lines text)) (i - S M) = Some line1).
  { rewrite nth_error_skipn. replace (S M + (i - S M)) with i by lia. exact H1. }
  assert (Hj' : nth_error (skipn (S M) (split_lines text)) (j - S M) = Some line2).
  { rewrite nth_error_skipn. replace (S M + (j - S M)) with j by lia. exact H2. }
  destruct (nth_error_split_two _ (i - S M) (j - S M) _ _ ltac:(lia) Hi' Hj')
    as (l1 & l2 & l3 & -> & _).
  set (A := prototypeArea (split_lines text) L M) in *.
  exists (map prototype (filter (undeclared A) (flat_map scanLine l1))),
         (map prototype (filter (undeclared A) (flat_map scanLine l2))),
         (map prototype (filter (undeclared A) (flat_map scanLine l3))).
  cbn [option_map]. f_equal.
  rewrite flat_map_app, filter_app, map_app. f_equal.
  cbn [flat_map]. rewrite filter_app, map_app.
  rewrite (scanLine_kept A _ _ _ _ HF1 Hnm Hnd). cbn [app]. f_equal.
  rewrite flat_map_app, filter_app, map_app. f_equal.
  cbn [flat_map]. rewrite filter_app, map_app.
  rewrite (scanLine_kept A _ _ _ _ HF2 Hnm Hnd). reflexivity.
Qed.

Lemma synthesize_keeps_duplicates_witness :
  exists o1 o2 o3,
    synthesize sameNameTwice
    = Some (o1 ++ prototypeOf (str "int") (str "f") (str "int a")
               :: o2 ++ prototypeOf (str "int") (str "f") (str "int b") :: o3).
Proof.
  apply (proj1 synthesize_keeps_duplicates sameNameTwice 0 1 4 6
           (str "int f(int a) {") (str "int f(int b) {"));
    try reflexivity; try lia.
  - exists [], (str " "), [], (str " "), []. repeat split; try reflexivity.
    + simpl. auto.
    + discriminate.
    + exists 102%N, []. repeat split; reflexivity.
  - exists [], (str " "), [], (str " "), []. repeat split; try reflexivity.
    + simpl. auto.
    + discriminate.
    + exists 102%N, []. repeat split; reflexivity.
  - discriminate.
  - intros Hd. apply (declarationOf_found (str "f")) in Hd.
    + apply test_found_in in Hd. vm_compute in Hd. discriminate.
    + exists 102%N, []. repeat split; reflexivity.
Defined.

(** ** Totality *)

Lemma shouldAddSemicolon_true text :
  shouldAddSemicolon text = true ->
  exists r, In r needsSemicolonPatterns /\ found_in r (trim text).
Proof.
  unfold shouldAddSemicolon. destruct (trim text) as [|x t]; [discriminate|].
  repeat match goal with
         | |- (if ?b then _ else _) = true -> _ =>
             destruct b; [discriminate|]
         end.
  intros H. apply existsb_exists in H. destruct H as (r & Hr & Ht).
  exists r. split; [exact Hr | apply test_found_in; exact Ht].
Qed.

Lemma no_function_lines body :
  (forall line rt nm ps, In line body -> ~ FunctionLine line rt nm ps) ->
  flat_map scanLine body = [].
Proof.
  intros H. induction body as [|line body IH]; [reflexivity|].
  cbn [flat_map].
  destruct (scanLine_cases line) as [[-> _]|(rt & nm & ps & HF & _)].
  - apply IH. intros l rt nm ps Hl. apply H. right. exact Hl.
  - elim (H line rt nm ps (or_introl eq_refl) HF).
Qed.

Lemma In_skipn {A} (x : A) n l : In x (skipn n l) -> In x l.
Proof.
  revert l. induction n as [|n IH]; intros [|y l] H; simpl in *; auto.
Qed.

(** C9. Both functions return on every string: the classifier answers
    with a boolean, and answers [true] only on a line that one of its
    six statement shapes matches; the generator never throws, and
    produces nothing for a document none of whose lines defines a
    function.  The empty string and unbalanced text are no exception. *)
Theorem classifier_and_generator_total :
  (forall text,
     (exists b, shouldAddSemicolon text = b /\
        (b = true ->
         exists r, In r needsSemicolonPatterns /\ found_in r (trim text))) /\
     (exists out, synthesize text = Some out /\
        ((forall line rt nm ps,
            In line (split_lines text) -> ~ FunctionLine line rt nm ps) ->
         out = []))) /\
  shouldAddSemicolon [] = false /\
  synthesize [] = Some [] /\
  shouldAddSemicolon (str ")) ((( ]] == {{ /") = false /\
  synthesize (doc ["#include"; "int main("; "int ((x) {"; "int 9z() {"]%string)
    = Some [].
Proof.
  split; [|repeat split; reflexivity].
  intros text. split.
  - exists (shouldAddSemicolon text). split; [reflexivity|].
    apply shouldAddSemicolon_true.
  - destruct (missingPrototypes_total text) as (out & E).
    exists (map prototype out). unfold synthesize. rewrite E.
    split; [reflexivity|]. intros H.
    unfold missingPrototypes in E.
    destruct (lastIncludeLine (split_lines text)) as [L|] eqn:HL;
      [|inversion E; reflexivity].
    destruct (mainLine (split_lines text) L) as [M|] eqn:HM;
      [|inversion E; reflexivity].
    unfold foundFunctions in E. rewrite no_function_lines in E.
    + inversion E. reflexivity.
    + intros line rt nm ps Hl. apply H. apply (In_skipn _ _ _ Hl).
Qed.

Lemma classifier_and_generator_total_witness :
  exists r, In r needsSemicolonPatterns /\ found_in r (trim (str " x = 1 ")).
Proof.
  destruct (proj1 (proj1 classifier_and_generator_total (str " x = 1 ")))
    as (b & E & H).
  apply H. rewrite <- E. reflexivity.
Defined.

(** ** Splitting and joining lines *)

Lemma split_lines_nonempty s : split_lines s <> [].
Proof.
  destruct s as [|c s]; simpl; [discriminate|].
  destruct (c =? newline)%N; [discriminate|].
  destruct (split_lines s); discriminate.
Qed.

Lemma split_lines_oneLine s : Forall oneLine (split_lines s).
Proof.
  induction s as [|c s IH]; simpl.
  - repeat constructor.
  - destruct (c =? newline)%N eqn:Hc.
    + constructor; [reflexivity | exact IH].
    + destruct (split_lines s) as [|l ls]; [repeat constructor; unfold oneLine;
        simpl; rewrite Hc; reflexivity|].
      inversion IH; subst. constructor; [|assumption].
      unfold oneLine in *. simpl. rewrite Hc. assumption.
Qed.

Lemma join_lines_cons l ls :
  ls <> [] -> join_lines (l :: ls) = l ++ newline :: join_lines ls.
Proof. destruct ls; [congruence | reflexivity]. Qed.

Lemma join_lines_app ls1 : forall ls2,
  ls1 <> [] -> ls2 <> [] ->
  join_lines (ls1 ++ ls2) = join_lines ls1 ++ newline :: join_lines ls2.
Proof.
  induction ls1 as [|l ls1 IH]; intros ls2 H1 H2; [congruence|].
  destruct ls1 as [|l' ls1].
  - simpl app. rewrite join_lines_cons by exact H2. reflexivity.
  - rewrite <- app_comm_cons. rewrite join_lines_cons by discriminate.
    rewrite IH by (discriminate || exact H2).
    rewrite (join_lines_cons l (l' :: ls1)) by discriminate.
    rewrite <- app_assoc. reflexivity.
Qed.

Lemma join_split s : join_lines (split_lines s) = s.
Proof.
  induction s as [|c s IH]; [reflexivity|].
  simpl. destruct (c =? newline)%N eqn:Hc.
  - apply N.eqb_eq in Hc. subst c.
    rewrite join_lines_cons by apply split_lines_nonempty.
    rewrite IH. reflexivity.
  - destruct (split_lines s) as [|l ls] eqn:E; [elim (split_lines_nonempty s E)|].
    destruct ls as [|l' ls]; simpl in *; rewrite <- IH; reflexivity.
Qed.

Lemma split_lines_line l : forall s,
  oneLine l -> split_lines (l ++ newline :: s) = l :: split_lines s.
Proof.
  induction l as [|c l IH]; intros s Hl; [reflexivity|].
  unfold oneLine in Hl. simpl in Hl. apply andb_prop in Hl.
  destruct Hl as [Hc Hl]. apply negb_true_iff in Hc.
  simpl. rewrite Hc, (IH s Hl). reflexivity.
Qed.

Lemma split_lines_single l : oneLine l -> split_lines l = [l].
Proof.
  induction l as [|c l IH]; intros Hl; [reflexivity|].
  unfold oneLine in Hl. simpl in Hl. apply andb_prop in Hl.
  destruct Hl as [Hc Hl]. apply negb_true_iff in Hc.
  simpl. rewrite Hc, (IH Hl). reflexivity.
Qed.

Lemma split_join ls :
  ls <> [] -> Forall oneLine ls -> split_lines (join_lines ls) = ls.
Proof.
  induction ls as [|l ls IH]; intros Hne Hls; [congruence|].
  inversion Hls; subst. destruct ls as [|l' ls].
  - apply split_lines_single. assumption.
  - rewrite join_lines_cons by discriminate.
    rewrite split_lines_line by assumption.
    rewrite IH by (discriminate || assumption). reflexivity.
Qed.

Lemma insertAtLine_line l : forall n ins s,
  oneLine l ->
  insertAtLine (S n) ins (l ++ newline :: s)
  = l ++ newline :: insertAtLine n ins s.
Proof.
  induction l as [|c l IH]; intros n ins s Hl; [reflexivity|].
  unfold oneLine in Hl. simpl in Hl. apply andb_prop in Hl.
  destruct Hl as [Hc Hl]. apply negb_true_iff in Hc.
  simpl. rewrite Hc. f_equal. apply IH. exact Hl.
Qed.

(** Inserting at the start of a line of a document. *)
Lemma insertAtLine_join hd : forall ins rest,
  Forall oneLine hd -> rest <> [] ->
  insertAtLine (length hd) ins (join_lines (hd ++ rest))
  = match hd with
    | [] => ins ++ join_lines rest
    | _ :: _ => join_lines hd ++ newline :: ins ++ join_lines rest
    end.
Proof.
  induction hd as [|l hd IH]; intros ins rest Hhd Hne;
    [simpl; destruct (join_lines rest); reflexivity|].
  inversion Hhd; subst. rewrite <- app_comm_cons.
  rewrite join_lines_cons by (destruct hd; [exact Hne | discriminate]).
  simpl length. rewrite insertAtLine_line by assumption.
  rewrite IH by assumption. destruct hd as [|l' hd].
  - reflexivity.
  - rewrite (join_lines_cons l (l' :: hd)) by discriminate.
    rewrite <- app_assoc. reflexivity.
Qed.

Lemma in_join_lines p ls :
  In p ls -> exists X Y, join_lines ls = X ++ p ++ Y.
Proof.
  induction ls as [|l ls IH]; intros H; [destruct H|].
  destruct ls as [|l' ls].
  - destruct H as [->|[]]. exists [], []. simpl. rewrite app_nil_r. reflexivity.
  - rewrite join_lines_cons by discriminate. destruct H as [->|H].
    + exists [], (newline :: join_lines (l' :: ls)). reflexivity.
    + destruct (IH H) as (X & Y & ->).
      exists (l ++ newline :: X), Y. rewrite <- app_assoc. reflexivity.
Qed.

(** ** Prototypes as lines of the document *)

Lemma trim_fixed a s z :
  is_space a = false -> is_space z = false ->
  trim (a :: s ++ [z]) = a :: s ++ [z].
Proof.
  intros Ha Hz. unfold trim, trimStart, trimEnd. cbn [dropWhile]. rewrite Ha.
  change (a :: s ++ [z]) with ((a :: s) ++ [z]). rewrite rev_app_distr.
  cbn [rev app dropWhile]. rewrite Hz. cbn [rev].
  rewrite rev_app_distr, rev_involutive. reflexivity.
Qed.

Lemma basicType_first rt :
  In rt (map str basicTypes) ->
  exists a t, rt = a :: t /\ is_space a = false /\ (a =? 35)%N = false.
Proof.
  simpl. intros H.
  repeat (destruct H as [<-|H]; [eexists _, _; repeat split; reflexivity|]).
  destruct H.
Qed.

Lemma prototypeOf_ends rt nm ps :
  prototypeOf rt nm ps
  = (rt ++ str " " ++ nm ++ str "(" ++ trim ps ++ str ")") ++ [59%N].
Proof.
  unfold prototypeOf. repeat rewrite <- app_assoc. reflexivity.
Qed.

Lemma prototype_not_include rt nm ps :
  In rt (map str basicTypes) -> isInclude (prototypeOf rt nm ps) = false.
Proof.
  intros Hrt. destruct (basicType_first rt Hrt) as (a & t & -> & Ha & Hh).
  unfold isInclude. rewrite prototypeOf_ends. rewrite <- !app_comm_cons.
  rewrite trim_fixed by (exact Ha || reflexivity).
  cbn [str list_ascii_of_string map startsWith].
  change (N_of_ascii "#") with 35%N. rewrite N.eqb_sym, Hh. reflexivity.
Qed.

Lemma prototype_not_main rt nm ps :
  In rt (map str basicTypes) -> identifier nm -> nm <> str "main" ->
  isMain (prototypeOf rt nm ps) = false.
Proof.
  intros Hrt Hid Hnm. unfold isMain.
  destruct (test mainPattern (prototypeOf rt nm ps)) eqn:E; [|reflexivity].
  exfalso. apply mainPattern_test in E.
  destruct E as (ws0 & w & ws1 & ws2 & rest & E & Hws0 & Hw & Hne1 & Hws1 & Hws2).
  unfold prototypeOf in E.
  pose proof (identifier_word nm Hid) as Wnm.
  destruct Hid as (x & n & -> & Hx & Hn). apply ident_start_word in Hx.
  destruct (basicType_letters rt Hrt) as (Nrt & _ & Ert).
  assert (Hw' : In (str w) (map str basicTypes)).
  { apply in_map. simpl in Hw. simpl. intuition. }
  destruct (basicType_letters _ Hw') as (Nw & _ & Ew).
  change (rt ++ str " " ++ (x :: n) ++ str "(" ++ trim ps ++ str ");")
    with ([] ++ rt ++ str " " ++ (x :: n) ++ str "(" ++ trim ps ++ str ");") in E.
  apply span_unique with (f := is_space) in E;
    [ | reflexivity | exact Hws0
      | destruct rt; [congruence|]; simpl in *; apply andb_prop in Nrt;
        destruct Nrt as [Nrt _]; apply negb_true_iff in Nrt; exact Nrt
      | destruct (str w); [congruence|]; simpl in *; apply andb_prop in Nw;
        destruct Nw as [Nw _]; apply negb_true_iff in Nw; exact Nw ].
  destruct E as [_ E].
  apply span_unique with (f := fun c => negb (is_space c)) in E;
    [ | exact Nrt | exact Nw | reflexivity
      | destruct ws1; [congruence|]; simpl in *; apply andb_prop in Hws1;
        destruct Hws1 as [-> _]; reflexivity ].
  destruct E as [_ E].
  apply span_unique with (f := is_space) in E;
    [ | reflexivity | exact Hws1
      | simpl; apply word_not_space; exact Hx | reflexivity ].
  destruct E as [_ E].
  apply span_unique with (f := is_word) in E;
    [ | exact Wnm | reflexivity | reflexivity
      | destruct ws2; simpl in *; [reflexivity|]; apply andb_prop in Hws2;
        destruct Hws2 as [H _]; apply space_not_word; exact H ].
  destruct E as [E _]. congruence.
Qed.

Lemma oneLine_app a b : oneLine (a ++ b) <-> oneLine a /\ oneLine b.
Proof. unfold oneLine. rewrite forallb_app, andb_true_iff. tauto. Qed.

Lemma FunctionLine_prototype_oneLine line rt nm ps :
  FunctionLine line rt nm ps -> oneLine line -> oneLine (prototypeOf rt nm ps).
Proof.
  intros (ws0 & ws1 & ws2 & ws3 & rest & -> & _) Hl.
  repeat (apply oneLine_app in Hl; destruct Hl as [? Hl]).
  unfold prototypeOf. repeat (apply oneLine_app; split); auto; try reflexivity.
  apply forallb_trim. assumption.
Qed.

(** A prototype declares its function. *)
Lemma prototype_declares X Y rt nm ps :
  no_rparen ps ->
  DeclaredIn nm (X ++ prototypeOf rt nm ps ++ Y).
Proof.
  intros Hps. exists (X ++ rt ++ str " "), [], (trim ps), [], Y.
  repeat split; try reflexivity.
  - unfold prototypeOf. rewrite <- !app_assoc. reflexivity.
  - unfold no_word_at_end. rewrite !rev_app_distr. reflexivity.
  - apply forallb_trim. exact Hps.
Qed.

(** A declaration stays one when lines are put before it. *)
Lemma DeclaredIn_after_lines nm Z areaText :
  DeclaredIn nm areaText -> DeclaredIn nm (Z ++ newline :: areaText).
Proof.
  intros (pre & ws1 & args & ws2 & post & -> & Hpre & H).
  exists (Z ++ newline :: pre), ws1, args, ws2, post. split; [|split; [|exact H]].
  - rewrite <- app_assoc. reflexivity.
  - unfold no_word_at_end, word_before in *. simpl before in *.
    change (Z ++ newline :: pre) with (Z ++ [newline] ++ pre).
    rewrite !rev_app_distr. destruct (rev pre); [reflexivity | exact Hpre].
Qed.

Lemma DeclaredIn_nonempty nm : ~ DeclaredIn nm [].
Proof.
  intros (pre & ws1 & args & ws2 & post & E & _).
  apply (f_equal (@length char)) in E. rewrite !length_app in E. simpl in E. lia.
Qed.

(** ** The document after the edit *)

Lemma split_lines_join_app A : forall s,
  A <> [] -> Forall oneLine A ->
  split_lines (join_lines A ++ newline :: s) = A ++ split_lines s.
Proof.
  induction A as [|l A IH]; intros s Hne HA; [congruence|].
  inversion HA; subst. destruct A as [|l' A].
  - simpl join_lines. rewrite split_lines_line by assumption. reflexivity.
  - rewrite join_lines_cons by discriminate. rewrite <- app_assoc.
    rewrite <- app_comm_cons. rewrite split_lines_line by assumption.
    rewrite IH by (discriminate || assumption). reflexivity.
Qed.

Lemma insertPrototypes_lines text d protos :
  split_lines text = linesOf d -> wellAnchored d ->
  protos <> [] -> Forall oneLine protos ->
  split_lines (insertPrototypes text protos) = linesOf (withPrototypes d protos).
Proof.
  intros E Hd Hne Hp. unfold insertPrototypes. rewrite E.
  destruct (layout_anchors d Hd) as (-> & _).
  pose proof (split_lines_oneLine text) as Hl. rewrite E in Hl.
  unfold linesOf in Hl. apply Forall_app in Hl. destruct Hl as [Hhd Hl].
  inversion Hl as [|? ? Hi Hrest]; subst.
  rewrite <- (join_split text), E. unfold linesOf, withPrototypes. simpl.
  set (rest := area d ++ entryLine d :: body d) in *.
  assert (Hrne : rest <> []) by (unfold rest; destruct (area d); discriminate).
  assert (Hhd' : Forall oneLine (head d ++ [includeLine d])).
  { apply Forall_app. split; [exact Hhd | constructor; [exact Hi | constructor]]. }
  replace (head d ++ includeLine d :: rest)
    with ((head d ++ [includeLine d]) ++ rest)
    by (rewrite <- app_assoc; reflexivity).
  replace (S (length (head d))) with (length (head d ++ [includeLine d]))
    by (rewrite length_app; simpl; lia).
  rewrite insertAtLine_join by assumption.
  destruct (head d ++ [includeLine d]) as [|h0 hs] eqn:Eh.
  { destruct (head d); discriminate. }
  rewrite <- Eh in *. clear Eh h0 hs.
  rewrite split_lines_join_app by (assumption || (destruct (head d); discriminate)).
  rewrite <- app_assoc. f_equal. simpl. f_equal.
  change (newline :: join_lines protos ++ [newline])
    with ([newline] ++ join_lines protos ++ [newline]).
  change (split_lines (([newline] ++ join_lines protos ++ [newline]) ++ join_lines rest))
    with ([] :: split_lines ((join_lines protos ++ [newline]) ++ join_lines rest)).
  f_equal. rewrite <- app_assoc. simpl.
  rewrite split_lines_join_app by assumption.
  rewrite <- app_assoc. f_equal.
  apply split_join; assumption.
Qed.

Lemma found_prototype_facts bd f :
  Forall oneLine bd -> In f (flat_map scanLine bd) ->
  exists rt ps,
    prototype f = prototypeOf rt (name f) ps /\
    In rt (map str basicTypes) /\ identifier (name f) /\
    name f <> str "main" /\ no_rparen ps /\ oneLine (prototype f).
Proof.
  intros Hbd Hf. apply found_function in Hf.
  destruct Hf as (line & rt & ps & Hl & HF & Hnm & Ep).
  exists rt, ps. rewrite Ep.
  pose proof HF as (ws0 & ws1 & ws2 & ws3 & rest & _ & _ & Hrt & _ & _ & Hid & _ &
                    Hps & _).
  repeat split; auto.
  apply (FunctionLine_prototype_oneLine line); [exact HF|].
  rewrite Forall_forall in Hbd. apply Hbd. exact Hl.
Qed.

Lemma withPrototypes_wellAnchored d fs :
  wellAnchored d ->
  Forall (fun f => In f (flat_map scanLine (body d))) fs ->
  Forall oneLine (body d) ->
  wellAnchored (withPrototypes d (map prototype fs)).
Proof.
  intros (Hi & Hn & Hnm & Hm) Hfs Hbd.
  unfold wellAnchored, withPrototypes. simpl.
  repeat split; [exact Hi | | | exact Hm].
  - rewrite <- app_assoc, forallb_app. apply andb_true_iff. split; [|exact Hn].
    apply forallb_forall. intros p Hp. apply in_map_iff in Hp.
    destruct Hp as (f & <- & Hf). rewrite Forall_forall in Hfs.
    destruct (found_prototype_facts _ f Hbd (Hfs f Hf))
      as (rt & ps & -> & Hrt & _).
    rewrite prototype_not_include by exact Hrt. reflexivity.
  - rewrite forallb_app. apply andb_true_iff. split; [|exact Hnm].
    apply forallb_forall. intros p Hp. apply in_map_iff in Hp.
    destruct Hp as (f & <- & Hf). rewrite Forall_forall in Hfs.
    destruct (found_prototype_facts _ f Hbd (Hfs f Hf))
      as (rt & ps & -> & Hrt & Hid & Hnm' & _).
    rewrite prototype_not_main by assumption. reflexivity.
Qed.

Lemma missing_layout text fs :
  missingPrototypes text = Some fs -> fs <> [] ->
  exists d, split_lines text = linesOf d /\ wellAnchored d /\
            fs = filter (undeclared (join_lines (area d)))
                   (flat_map scanLine (body d)).
Proof.
  intros Em Hne. pose proof Em as Em'. unfold missingPrototypes in Em'.
  destruct (lastIncludeLine (split_lines text)) as [L|] eqn:HL;
    [|inversion Em'; subst; congruence].
  destruct (mainLine (split_lines text) L) as [M|] eqn:HM;
    [|inversion Em'; subst; congruence].
  destruct (anchors_layout _ _ _ HL HM) as (d & E & Hd & _).
  exists d. split; [exact E|]. split; [exact Hd|].
  rewrite (missingPrototypes_layout text d E Hd) in Em. inversion Em. reflexivity.
Qed.

Lemma filter_none {A} (f : A -> bool) l :
  (forall x, In x l -> f x = false) -> filter f l = [].
Proof.
  induction l as [|x l IH]; intros H; [reflexivity|].
  simpl. rewrite (H x (or_introl eq_refl)). apply IH.
  intros y Hy. apply H. right. exact Hy.
Qed.

(** After the edit every function found is declared. *)
Lemma declared_after_edit d f :
  Forall oneLine (body d) ->
  In f (flat_map scanLine (body d)) ->
  undeclared
    (join_lines
       ([] :: map prototype
                (filter (undeclared (join_lines (area d)))
                   (flat_map scanLine (body d))) ++ area d)) f = false.
Proof.
  intros Hbd Hf.
  destruct (found_prototype_facts _ f Hbd Hf)
    as (rt & ps & Ep & Hrt & Hid & Hnm & Hps & _).
  set (fs := filter (undeclared (join_lines (area d)))
               (flat_map scanLine (body d))).
  unfold undeclared at 1. apply negb_false_iff. apply test_found_in.
  apply (declarationOf_found _ _ Hid).
  destruct (undeclared (join_lines (area d)) f) eqn:Eu.
  - assert (Hp : In (prototype f) ([] :: map prototype fs ++ area d)).
    { right. apply in_or_app. left. apply in_map. apply filter_In. auto. }
    apply in_join_lines in Hp. destruct Hp as (X & Y & ->). rewrite Ep.
    apply prototype_declares. exact Hps.
  - unfold undeclared in Eu. apply negb_false_iff in Eu.
    apply test_found_in in Eu. apply (declarationOf_found _ _ Hid) in Eu.
    destruct (area d) as [|a ar] eqn:Ea.
    { elim (DeclaredIn_nonempty _ Eu). }
    rewrite <- Ea in *.
    rewrite app_comm_cons. rewrite join_lines_app; [|discriminate|congruence].
    apply DeclaredIn_after_lines. exact Eu.
Qed.

(** After the edit nothing is missing. *)
Lemma missingPrototypes_after_edit text fs :
  missingPrototypes text = Some fs -> fs <> [] ->
  missingPrototypes (insertPrototypes text (map prototype fs)) = Some [].
Proof.
  intros Em Hfs.
  destruct (missing_layout text fs Em Hfs) as (d & E & Hd & Efs).
  pose proof (split_lines_oneLine text) as Hl. rewrite E in Hl.
  unfold linesOf in Hl. apply Forall_app in Hl. destruct Hl as [_ Hl].
  inversion Hl as [|? ? _ Hl']; subst. apply Forall_app in Hl'.
  destruct Hl' as [_ Hl']. inversion Hl' as [|? ? _ Hbd]; subst. clear Hl Hl'.
  set (found := flat_map scanLine (body d)) in *.
  set (fs := filter (undeclared (join_lines (area d))) found) in *.
  assert (Hne : map prototype fs <> []).
  { destruct fs; [congruence | discriminate]. }
  assert (Hin : Forall (fun f => In f found) fs).
  { apply Forall_forall. intros f Hf. apply filter_In in Hf. tauto. }
  assert (Hone : Forall oneLine (map prototype fs)).
  { apply Forall_forall. intros p Hp. apply in_map_iff in Hp.
    destruct Hp as (f & <- & Hf). rewrite Forall_forall in Hin.
    destruct (found_prototype_facts _ f Hbd (Hin f Hf))
      as (rt & ps & _ & _ & _ & _ & _ & H).
    exact H. }
  pose proof (insertPrototypes_lines text d (map prototype fs) E Hd Hne Hone) as E'.
  pose proof (withPrototypes_wellAnchored d fs Hd Hin Hbd) as Hd'.
  rewrite (missingPrototypes_layout _ _ E' Hd'). f_equal.
  simpl body. simpl area. fold found.
  apply filter_none. intros f Hf. apply declared_after_edit; assumption.
Qed.

(** X16. Running the generator on its own result changes nothing: the
    document it returns is one it returns unchanged. *)
Lemma autoGeneratePrototypes_settles text text' :
  autoGeneratePrototypes text = Some text' ->
  autoGeneratePrototypes text' = Some text'.
Proof.
  unfold autoGeneratePrototypes.
  destruct (missingPrototypes text) as [[|f fs]|] eqn:Em; [| |discriminate].
  - intros E. inversion E; subst. rewrite Em. reflexivity.
  - assert (H : missingPrototypes
                  (insertPrototypes text (map prototype (f :: fs))) = Some []).
    { apply missingPrototypes_after_edit; [exact Em | discriminate]. }
    set (edited := insertPrototypes text (map prototype (f :: fs))) in *.
    intros E. inversion E; subst text'. rewrite H. reflexivity.
Qed.

(** C2. Where the generator produces prototypes, inserting them after
    the last include line, the way the generator does, gives a document
    for which it produces none. *)
Theorem synthesize_round_trip : forall text out,
  synthesize text = Some out -> out <> [] ->
  synthesize (insertPrototypes text out) = Some [].
Proof.
  intros text out Hs Hne. unfold synthesize in Hs.
  destruct (missingPrototypes text) as [fs|] eqn:Em; [|discriminate].
  simpl in Hs. inversion Hs; subst out; clear Hs.
  apply synthesize_nil. apply (missingPrototypes_after_edit text fs Em).
  intros ->. apply Hne. reflexivity.
Qed.

Lemma synthesize_round_trip_witness :
  synthesize (insertPrototypes bThenA [str "int b(int x);"; str "int a(int  y);"])
  = Some [].
Proof.
  apply synthesize_round_trip; [reflexivity | discriminate].
Defined.


(** ** Searching in strings *)

Lemma includes_iff p : forall s, includes s p = true <-> occurs p s.
Proof.
  unfold occurs. induction s as [|c s IH]; simpl includes.
  - rewrite orb_false_r, startsWith_iff. split.
    + intros (r & E). exists [], r. exact E.
    + intros (pre & post & E). destruct pre; [eauto | discriminate].
  - rewrite orb_true_iff, startsWith_iff, IH. split.
    + intros [(r & E)|(pre & post & E)].
      * exists [], r. exact E.
      * exists (c :: pre), post. rewrite E. reflexivity.
    + intros ([|x pre] & post & E).
      * left. eauto.
      * right. inversion E. eauto.
Qed.

Lemma occurs_indexOf p s : occurs p s -> exists i, indexOf s p = Some i.
Proof.
  intros (pre & post & ->). induction pre as [|y pre IH]; simpl app.
  - assert (E : startsWith (p ++ post) p = true)
      by (apply startsWith_iff; eauto).
    destruct (p ++ post); simpl indexOf; rewrite E; eauto.
  - simpl indexOf. destruct (startsWith (y :: pre ++ p ++ post) p); [eauto|].
    destruct IH as [j ->]. simpl. eauto.
Qed.

Lemma indexOf_first p : forall s i,
  indexOf s p = Some i <-> first_at p s i.
Proof.
  unfold first_at. induction s as [|c s IH]; intros i; simpl indexOf.
  - destruct (startsWith [] p) eqn:E.
    + apply startsWith_iff in E. destruct E as (r & E). split.
      * intros H. inversion H; subst. exists [], r. repeat split; auto. intros. lia.
      * intros (pre & post & E' & <- & _). destruct pre; [reflexivity | discriminate].
    + split; [discriminate|]. intros (pre & post & E' & _).
      destruct pre; [|discriminate].
      assert (startsWith [] p = true) by (apply startsWith_iff; eauto). congruence.
  - destruct (startsWith (c :: s) p) eqn:E.
    + apply startsWith_iff in E. destruct E as (r & E). split.
      * intros H. inversion H; subst i. exists [], r. repeat split; auto. intros. lia.
      * intros (pre & post & E' & <- & Hmin).
        specialize (Hmin [] r E). simpl in Hmin.
        destruct pre; [reflexivity | simpl in Hmin; lia].
    + destruct (indexOf s p) as [j|] eqn:Ej; simpl.
      * destruct (proj1 (IH j) eq_refl) as (pre & post & Es & <- & Hmin). split.
        -- intros H. inversion H; subst i. exists (c :: pre), post.
           repeat split; [rewrite Es; reflexivity|].
           intros [|x pre'] post' E'.
           ++ assert (startsWith (c :: s) p = true) by (apply startsWith_iff; eauto).
              congruence.
           ++ inversion E'; subst. simpl. apply le_n_S. eapply Hmin. eassumption.
        -- intros (pre' & post' & E' & <- & Hmin').
           destruct pre' as [|x pre'].
           ++ assert (startsWith (c :: s) p = true) by (apply startsWith_iff; eauto).
              congruence.
           ++ inversion E'; subst x. simpl. f_equal.
              specialize (Hmin' (c :: pre) post). simpl in Hmin'.
              rewrite Es in Hmin'. specialize (Hmin' eq_refl).
              assert (length pre <= length pre') by (eapply Hmin; eassumption). lia.
      * split; [discriminate|]. intros (pre & post & E' & _).
        destruct pre as [|x pre].
        -- assert (startsWith (c :: s) p = true) by (apply startsWith_iff; eauto).
           congruence.
        -- inversion E'; subst.
           assert (H : exists j, indexOf (pre ++ p ++ post) p = Some j)
             by (apply occurs_indexOf; exists pre, post; reflexivity).
           destruct H as [j H]. congruence.
Qed.

Lemma occurs_prefix p q s : occurs (p ++ q) s -> occurs p s.
Proof.
  intros (pre & post & ->). exists pre, (q ++ post).
  rewrite <- app_assoc. reflexivity.
Qed.

Lemma first_at_bounds p s i :
  first_at p s i -> i + length p <= length s /\ substring s i (i + length p) = p.
Proof.
  intros (pre & post & -> & <- & _). split.
  - rewrite !length_app. lia.
  - unfold substring. rewrite Nat.add_comm, Nat.add_sub.
    rewrite skipn_app, skipn_all, Nat.sub_diag. simpl.
    rewrite firstn_app, firstn_all, Nat.sub_diag. simpl. apply app_nil_r.
Qed.

Lemma newRange_line l c1 c2 :
  c1 <= c2 -> newRange l c1 l c2 = Range l c1 l c2.
Proof.
  intros H. unfold newRange, isBefore. rewrite Nat.ltb_irrefl, Nat.eqb_refl.
  simpl. destruct (Nat.ltb_spec c2 c1); [lia | reflexivity].
Qed.

(** ** The diagnostics *)

Lemma checkUnsafeEntries_reports entries : forall line n ds,
  checkUnsafeEntries entries line n ds
  = Some (ds ++ flat_map (unsafeReport line n) entries).
Proof.
  induction entries as [|[f safe] entries IH]; intros line n ds.
  - simpl. rewrite app_nil_r. reflexivity.
  - cbn [checkUnsafeEntries flat_map]. unfold unsafeReport at 1. cbn [fst snd].
    destruct (includes line (str f ++ str "(")) eqn:Ei.
    + apply includes_iff in Ei. apply occurs_prefix in Ei.
      destruct (occurs_indexOf _ _ Ei) as [i Hi]. rewrite Hi.
      rewrite IH, <- app_assoc. rewrite newRange_line by lia. reflexivity.
    + rewrite IH. reflexivity.
Qed.

Lemma in_unsafeReport line n f safe d :
  In d (unsafeReport line n (f, safe)) <->
  occurs (str f ++ str "(") line /\
  exists i, first_at (str f) line i /\
            d = Diagnostic (Range n i n (i + length (str f)))
                  (unsafeMessage f safe) Warning.
Proof.
  unfold unsafeReport. cbn [fst snd].
  destruct (includes line (str f ++ str "(")) eqn:Ei.
  - pose proof (proj1 (includes_iff _ _) Ei) as Ho.
    destruct (occurs_indexOf _ _ (occurs_prefix _ _ _ Ho)) as [i Hi]. rewrite Hi.
    split.
    + intros [<-|[]]. split; [exact Ho|]. exists i. split; [|reflexivity].
      apply indexOf_first. exact Hi.
    + intros (_ & j & Hj & ->). apply indexOf_first in Hj.
      rewrite Hi in Hj. inversion Hj. left. reflexivity.
  - split; [intros []|]. intros (Ho & _). apply includes_iff in Ho. congruence.
Qed.

Lemma unsafeMessage_entry f safe f' safe' :
  In (f, safe) UNSAFE_FUNCTIONS -> In (f', safe') UNSAFE_FUNCTIONS ->
  unsafeMessage f safe = unsafeMessage f' safe' -> f = f' /\ safe = safe'.
Proof.
  unfold UNSAFE_FUNCTIONS. intros H H' E.
  repeat (destruct H as [H|H]; [inversion H; subst; clear H|]); [| | | |destruct H];
    (repeat (destruct H' as [H'|H']; [inversion H'; subst; clear H'|]);
     [| | | |destruct H']);
    solve [split; reflexivity | vm_compute in E; discriminate].
Qed.

(** X1. On a line, an unsafe function of the table is reported exactly
    when the line contains its name followed by an opening parenthesis;
    the report is a warning with the table's replacement in its message,
    and its range covers the first place in the line where the name
    occurs.  Nothing else is reported, and earlier diagnostics are kept. *)
Theorem checkUnsafeFunctions_reports : forall line n ds,
  exists new,
    checkUnsafeFunctions line n ds = Some (ds ++ new) /\
    (forall f safe, In (f, safe) UNSAFE_FUNCTIONS ->
       (occurs (str f ++ str "(") line <->
        exists i, first_at (str f) line i /\
                  In (Diagnostic (Range n i n (i + length (str f)))
                        (unsafeMessage f safe) Warning) new)) /\
    (forall d, In d new ->
       exists f safe i,
         In (f, safe) UNSAFE_FUNCTIONS /\ first_at (str f) line i /\
         substring line i (i + length (str f)) = str f /\
         d = Diagnostic (Range n i n (i + length (str f)))
               (unsafeMessage f safe) Warning).
Proof.
  intros line n ds. eexists. split; [apply checkUnsafeEntries_reports|]. split.
  - intros f safe Hf. split.
    + intros Ho. destruct (occurs_indexOf _ _ (occurs_prefix _ _ _ Ho)) as [i Hi].
      apply indexOf_first in Hi. exists i. split; [exact Hi|].
      apply in_flat_map. exists (f, safe). split; [exact Hf|].
      apply in_unsafeReport. split; [exact Ho|]. exists i. auto.
    + intros (i & Hi & Hd). apply in_flat_map in Hd.
      destruct Hd as ([f' safe'] & Hf' & Hd). apply in_unsafeReport in Hd.
      destruct Hd as (Ho & j & _ & E). apply (f_equal message) in E.
      cbn [message] in E.
      destruct (unsafeMessage_entry f safe f' safe' Hf Hf' E) as [-> _].
      exact Ho.
  - intros d Hd. apply in_flat_map in Hd. destruct Hd as ([f safe] & Hf & Hd).
    apply in_unsafeReport in Hd. destruct Hd as (_ & i & Hi & ->).
    exists f, safe, i. repeat split; auto.
    apply (first_at_bounds _ _ _ Hi).
Qed.

Lemma checkUnsafeFunctions_reports_witness :
  exists i, first_at (str "strcpy") (str "  strcpy(a, b);") i /\
    In (Diagnostic (Range 7 i 7 (i + 6))
          (unsafeMessage "strcpy" "strncpy") Warning)
       [Diagnostic (Range 7 2 7 8) (unsafeMessage "strcpy" "strncpy") Warning].
Proof.
  destruct (checkUnsafeFunctions_reports (str "  strcpy(a, b);") 7 [])
    as (new & E & H & _).
  vm_compute in E. injection E as <-.
  apply (proj1 (H "strcpy"%string "strncpy"%string
                  ltac:(simpl; auto))).
  exists (str "  "), (str "a, b);"). reflexivity.
Defined.

(** X2. The replacement the table recommends for [gets] is itself
    reported: every line that calls [fgets] gets the warning about
    [gets], placed on the last four letters of the first [fgets] or on an
    earlier [gets]. *)
Theorem fgets_reported_as_gets : forall line n ds,
  occurs (str "fgets(") line ->
  exists out i,
    checkUnsafeFunctions line n ds = Some out /\
    first_at (str "gets") line i /\
    In (Diagnostic (Range n i n (i + 4))
          (str "Unsafe function 'gets'. Consider using 'fgets' instead.")
          Warning) out.
Proof.
  intros line n ds (pre & post & ->).
  unfold checkUnsafeFunctions. rewrite checkUnsafeEntries_reports.
  assert (Ho : occurs (str "gets" ++ str "(") (pre ++ str "fgets(" ++ post)).
  { exists (pre ++ str "f"), post. rewrite <- app_assoc. reflexivity. }
  destruct (occurs_indexOf _ _ (occurs_prefix _ _ _ Ho)) as [i Hi].
  apply indexOf_first in Hi. eexists. exists i.
  split; [reflexivity|]. split; [exact Hi|].
  apply in_or_app. right. apply in_flat_map.
  exists ("gets"%string, "fgets"%string). split; [simpl; auto|].
  apply in_unsafeReport. split; [exact Ho|]. exists i. split; [exact Hi|].
  reflexivity.
Qed.

Lemma fgets_reported_as_gets_witness :
  exists out i,
    checkUnsafeFunctions (str "fgets(buf, 10, stdin);") 0 [] = Some out /\
    first_at (str "gets") (str "fgets(buf, 10, stdin);") i /\
    In (Diagnostic (Range 0 i 0 (i + 4))
          (str "Unsafe function 'gets'. Consider using 'fgets' instead.")
          Warning) out.
Proof.
  apply fgets_reported_as_gets. exists [], (str "buf, 10, stdin);"). reflexivity.
Defined.

Lemma matches_neglook_chr ch b a c s' :
  matches (NegLook (chr ch)) (Pos b a, c) s' <->
  (forall t, a <> N_of_ascii ch :: t) /\ s' = (Pos b a, c).
Proof.
  change (matches (NegLook (chr ch)) (Pos b a, c) s')
    with ((forall s1, ~ matches (chr ch) (Pos b a, c) s1) /\ s' = (Pos b a, c)).
  split; intros [H ->]; (split; [|reflexivity]).
  - intros t ->. apply (H (Pos (N_of_ascii ch :: b) t, c)).
    apply matches_chr. eauto.
  - intros s1 Hm. apply matches_chr in Hm. destruct Hm as (t & -> & _).
    apply (H t). reflexivity.
Qed.

Lemma assignmentInIf_found line :
  found_in assignmentInIf line <-> AssignmentInIf line.
Proof.
  unfold assignmentInIf. split.
  - intros (pre & post & [p c0] & -> & H).
    apply matches_seq in H. destruct H as (s1 & H1 & H).
    apply matches_lit in H1. destruct H1 as (t1 & -> & ->).
    apply matches_seq in H. destruct H as (s2 & H2 & H).
    apply matches_star_cls in H2. destruct H2 as (ws & t2 & -> & Hws & ->).
    apply matches_seq in H. destruct H as (s3 & H3 & H).
    apply matches_chr in H3. destruct H3 as (t3 & -> & ->).
    apply matches_seq in H. destruct H as (s4 & H4 & H).
    apply matches_star_cls in H4. destruct H4 as (a & t4 & -> & Ha & ->).
    apply matches_seq in H. destruct H as (s5 & H5 & H).
    apply matches_cls in H5. destruct H5 as (c & t5 & Ex & Hc & ->).
    cbn [fst snd before after] in *. subst t4.
    apply matches_seq in H. destruct H as (s6 & H6 & H).
    apply matches_chr in H6. destruct H6 as (t6 & -> & ->).
    apply matches_seq in H. destruct H as (s7 & H7 & H).
    apply matches_neglook_chr in H7. destruct H7 as [Hne ->].
    apply matches_seq in H. destruct H as (s8 & H8 & H).
    apply matches_star_cls in H8. destruct H8 as (b & t8 & -> & Hb & ->).
    apply matches_chr in H. destruct H as (rest & -> & _).
    exists pre, ws, a, c, b, rest. repeat split; auto.
    intros b' ->. apply (Hne (b' ++ N_of_ascii ")" :: rest)). reflexivity.
  - intros (pre & ws & a & c & b & post & -> & Hws & Ha & Hc & Hb & Hne).
    exists pre. eexists. eexists. split; [reflexivity|].
    apply matches_seq. eexists. split.
    { apply matches_lit. eexists. split; reflexivity. }
    apply matches_seq. eexists. split.
    { apply matches_star_cls. exists ws. eexists. eauto. }
    apply matches_seq. eexists. split.
    { apply matches_chr. eexists. split; reflexivity. }
    apply matches_seq. eexists. split.
    { apply matches_star_cls. exists a. eexists. eauto. }
    apply matches_seq. eexists. split.
    { apply matches_cls. eexists c, _. split; [reflexivity|].
      split; [exact Hc | reflexivity]. }
    apply matches_seq. eexists. split.
    { apply matches_chr. eexists. split; reflexivity. }
    apply matches_seq. eexists. split.
    { apply matches_neglook_chr. split; [|reflexivity].
      intros t E. destruct b as [|x b]; [discriminate|].
      inversion E; subst. apply (Hne b). reflexivity. }
    apply matches_seq. eexists. split.
    { apply matches_star_cls. exists b. eexists. eauto. }
    apply matches_chr. eexists. split; reflexivity.
Qed.

(** X3. A line is never reported for a comparison alone: if every equals
    sign of the line either follows one of [=], [!], [<], [>] or is
    followed by another equals sign, the check adds nothing. *)
Theorem comparison_not_reported : forall line n ds,
  (forall pre c post,
     line = pre ++ c :: 61%N :: post ->
     plain_before_equals c = false \/ exists post', post = 61%N :: post') ->
  checkAssignmentInConditional line n ds = Some ds.
Proof.
  intros line n ds H. unfold checkAssignmentInConditional.
  destruct (test assignmentInIf line) eqn:Et; [|reflexivity].
  exfalso. apply test_found_in in Et. apply assignmentInIf_found in Et.
  destruct Et as (pre & ws & a & c & b & post & E & _ & _ & Hc & _ & Hne).
  destruct (H (pre ++ str "if" ++ ws ++ str "(" ++ a) c (b ++ str ")" ++ post))
    as [Hc'|(post' & E')].
  - rewrite E. repeat rewrite <- app_assoc. reflexivity.
  - congruence.
  - destruct b as [|x b]; [discriminate|]. inversion E'; subst.
    apply (Hne b). reflexivity.
Qed.

Lemma comparison_not_reported_witness :
  checkAssignmentInConditional (str "if (a == b && c <= d)") 3 [] = Some [].
Proof.
  apply comparison_not_reported. intros pre c post E.
  do 22 (destruct pre as [|? pre];
         [first [ discriminate
                | inversion E; subst; right; eexists; reflexivity
                | inversion E; subst; left; reflexivity ]|]).
  discriminate.
Defined.

(** X4. An assignment inside the parentheses of an [if] is reported as a
    warning that runs from the first [if] of the line to the end of the
    line. *)
Theorem assignment_reported : forall line n ds,
  AssignmentInIf line ->
  exists i,
    first_at (str "if") line i /\
    checkAssignmentInConditional line n ds
    = Some (ds ++ [Diagnostic (Range n i n (length line))
                     assignmentMessage Warning]).
Proof.
  intros line n ds HA. unfold checkAssignmentInConditional.
  pose proof (proj2 (assignmentInIf_found line) HA) as Hf.
  apply test_found_in in Hf. rewrite Hf.
  assert (Ho : occurs (str "if") line).
  { destruct HA as (pre & ws & a & c & b & post & -> & _). exists pre. eauto. }
  destruct (occurs_indexOf _ _ Ho) as [i Hi]. rewrite Hi.
  apply indexOf_first in Hi. exists i. split; [exact Hi|].
  destruct (first_at_bounds _ _ _ Hi) as [Hb _].
  rewrite newRange_line by lia. reflexivity.
Qed.

Lemma assignment_reported_witness :
  exists i,
    first_at (str "if") (str "  if (x = 5) {") i /\
    checkAssignmentInConditional (str "  if (x = 5) {") 2 []
    = Some [Diagnostic (Range 2 i 2 14) assignmentMessage Warning].
Proof.
  apply (assignment_reported (str "  if (x = 5) {") 2 []).
  exists (str "  "), (str " "), (str "x"), 32%N, (str " 5"), (str " {").
  repeat split; try reflexivity. discriminate.
Defined.

Lemma match_from_sound r : forall aft bef m0 c,
  match_from r bef aft = Some (m0, c) ->
  exists pre post p',
    aft = pre ++ post /\
    matches r (Pos (rev pre ++ bef) post, []) (p', c) /\
    m0 = consumed (Pos (rev pre ++ bef) post) p'.
Proof.
  induction aft as [|x t IH]; intros bef m0 c H; simpl in H.
  - destruct (run r _ _ _) as [[p' c']|] eqn:E; [|discriminate].
    inversion H; subst. exists [], [], p'. repeat split.
    apply run_accept_sound. exact E.
  - destruct (run r _ _ _) as [[p' c']|] eqn:E.
    + inversion H; subst. exists [], (x :: t), p'. repeat split.
      apply run_accept_sound. exact E.
    + apply IH in H. destruct H as (pre & post & p' & -> & Hm & ->).
      exists (x :: pre), post, p'. simpl. rewrite <- app_assoc. auto.
Qed.

Lemma match_from_complete r : forall pre bef post s',
  matches r (Pos (rev pre ++ bef) post, []) s' ->
  match_from r bef (pre ++ post) <> None.
Proof.
  induction pre as [|x pre IH]; intros bef post s' Hm.
  - simpl in *. destruct post; simpl;
      (destruct (run r _ _ _) as [[? ?]|] eqn:E; [discriminate|]);
      exfalso; revert E; (eapply run_complete; [exact Hm | discriminate]).
  - simpl. destruct (run r _ _ _) as [[? ?]|] eqn:E; [discriminate|].
    eapply IH. simpl in Hm. rewrite <- app_assoc in Hm. exact Hm.
Qed.

Lemma allocator_letters w :
  In w allocators -> exists x t, str w = x :: t /\ is_word x = true.
Proof.
  unfold allocators. simpl. intros H.
  repeat (destruct H as [<-|H]; [eexists _, _; split; reflexivity|]).
  destruct H.
Qed.

Lemma allocationName_matches pre post s' :
  matches allocationName (Pos (rev pre) post, []) s' <->
  exists w t, In w allocators /\ post = str w ++ t /\ no_word_at_end pre /\
              s' = (Pos (rev (str w) ++ rev pre) t, [(1, str w)]).
Proof.
  unfold allocationName. split.
  - intros H. apply matches_seq in H. destruct H as (s0 & H0 & H).
    apply matches_wordb in H0. destruct H0 as [Hb ->].
    apply matches_group in H; [|apply plain_words].
    destruct H as (l & t & -> & Hw & ->).
    apply matches_words in Hw. destruct Hw as (w & t' & Hw & E & Epos).
    inversion Epos as [[Eb Et]]. subst t'. apply app_inv_tail in Eb.
    apply rev_inj in Eb. subst l.
    exists w, t. repeat split; auto.
    destruct (allocator_letters w Hw) as (x & tl & Ex & Hx).
    rewrite Ex in Hb. simpl in Hb.
    apply (no_word_at_end_boundary pre x _ Hx) in Hb. exact Hb.
  - intros (w & t & Hw & -> & Hpre & ->).
    apply matches_seq. eexists. split.
    + apply matches_wordb. split; [|reflexivity].
      destruct (allocator_letters w Hw) as (x & tl & Ex & Hx).
      rewrite Ex. simpl. apply (no_word_at_end_boundary pre x _ Hx). exact Hpre.
    + apply matches_group; [apply plain_words|].
      exists (str w), t. split; [reflexivity|]. split; [|reflexivity].
      apply matches_words. exists w, t. auto.
Qed.

Lemma allocationCall_found line :
  found_in allocationCall line <-> AllocationCall line.
Proof.
  unfold found_in, AllocationCall. split.
  - intros (pre & post & s' & -> & H). unfold allocationCall in H.
    apply matches_seq in H. destruct H as (s0 & H0 & H).
    apply matches_seq in H. destruct H as (s1 & H1 & H).
    assert (Hn : matches allocationName (Pos (rev pre) post, []) s1).
    { apply matches_seq. exists s0. auto. }
    apply allocationName_matches in Hn.
    destruct Hn as (w & t & Hw & -> & Hpre & ->).
    apply matches_seq in H. destruct H as (s2 & H2 & H).
    apply matches_star_cls in H2. destruct H2 as (ws & t2 & -> & Hws & ->).
    apply matches_chr in H. destruct H as (rest & -> & _).
    exists pre, w, ws, rest. auto.
  - intros (pre & w & ws & post & -> & Hw & Hpre & Hws).
    exists pre. eexists. eexists. split; [reflexivity|].
    assert (Hn : matches allocationName
                   (Pos (rev pre) (str w ++ ws ++ str "(" ++ post), [])
                   (Pos (rev (str w) ++ rev pre) (ws ++ str "(" ++ post),
                    [(1, str w)])).
    { apply allocationName_matches. exists w. eexists. auto. }
    unfold allocationName in Hn. apply matches_seq in Hn.
    destruct Hn as (s0 & H0 & H1).
    unfold allocationCall.
    apply matches_seq. exists s0. split; [exact H0|].
    apply matches_seq. eexists. split; [exact H1|].
    apply matches_seq. eexists. split.
    { apply matches_star_cls. exists ws. eexists. eauto. }
    apply matches_chr. eexists. split; reflexivity.
Qed.

(** X5. A call of [malloc], [calloc] or [realloc] at the start of a word
    is reported as a note that runs from the first place in the line
    where the name found occurs to the end of the line; a line without
    such a call is not reported.  The second search of the source never
    comes back empty after the first one succeeded. *)
Theorem allocation_reported : forall line n ds,
  (AllocationCall line ->
   exists w i,
     In w allocators /\ first_at (str w) line i /\
     checkMemoryAllocation line n ds
     = Some (ds ++ [Diagnostic (Range n i n (length line))
                      allocationMessage Information])) /\
  (~ AllocationCall line -> checkMemoryAllocation line n ds = Some ds).
Proof.
  intros line n ds. unfold checkMemoryAllocation. split.
  - intros HA. pose proof (proj2 (allocationCall_found line) HA) as Hf.
    apply test_found_in in Hf. rewrite Hf.
    destruct HA as (pre & w0 & ws & post & -> & Hw0 & Hpre & _).
    destruct (match_ allocationName _) as [[m0 c]|] eqn:Em.
    + apply match_from_sound in Em.
      destruct Em as (pre' & post' & p' & E & Hm & ->).
      rewrite app_nil_r in Hm. apply allocationName_matches in Hm.
      destruct Hm as (w & t & Hw & -> & _ & Ep). inversion Ep; subst p'.
      rewrite app_nil_r, consumed_app.
      assert (Ho : occurs (str w) (pre ++ str w0 ++ ws ++ str "(" ++ post)).
      { exists pre', t. exact E. }
      destruct (occurs_indexOf _ _ Ho) as [i Hi]. rewrite Hi.
      apply indexOf_first in Hi. exists w, i. repeat split; auto.
      destruct (first_at_bounds _ _ _ Hi) as [Hb _].
      rewrite newRange_line by lia. reflexivity.
    + exfalso. revert Em. unfold match_.
      apply (match_from_complete allocationName pre []
               (str w0 ++ ws ++ str "(" ++ post)
               (Pos (rev (str w0) ++ rev pre) (ws ++ str "(" ++ post),
                [(1, str w0)])).
      rewrite app_nil_r. apply allocationName_matches. exists w0. eexists. auto.
  - intros HA. destruct (test allocationCall line) eqn:Et; [|reflexivity].
    elim HA. apply allocationCall_found. apply test_found_in. exact Et.
Qed.

Lemma allocation_reported_witness :
  exists w i,
    In w allocators /\ first_at (str w) (str "p = malloc (4);") i /\
    checkMemoryAllocation (str "p = malloc (4);") 1 []
    = Some [Diagnostic (Range 1 i 1 15) allocationMessage Information].
Proof.
  apply (proj1 (allocation_reported (str "p = malloc (4);") 1 [])).
  exists (str "p = "), "malloc"%string, (str " "), (str "4);").
  repeat split; try reflexivity. simpl. auto.
Defined.

Lemma rev_word_head w :
  w <> [] -> forallb is_word w = true ->
  exists y t, rev w = y :: t /\ is_word y = true.
Proof.
  intros Hne Hw. rewrite <- forallb_rev in Hw.
  destruct (rev w) as [|y t] eqn:E.
  - apply (f_equal (@rev char)) in E. rewrite rev_involutive in E. contradiction.
  - simpl in Hw. apply andb_prop in Hw. destruct Hw as [Hy _]. eauto.
Qed.

Lemma wholeWord_found w s :
  str w <> [] -> forallb is_word (str w) = true ->
  found_in (wholeWord w) s <-> occurs_as_word (str w) s.
Proof.
  intros Hne Hw. unfold wholeWord, found_in, occurs_as_word.
  destruct (str w) as [|x tl] eqn:Ew; [congruence|].
  pose proof Hw as Hx. simpl in Hx. apply andb_prop in Hx. destruct Hx as [Hx _].
  destruct (rev_word_head (x :: tl) Hne Hw) as (y & ry & Er & Hy).
  split.
  - intros (pre & post & s' & -> & H).
    apply matches_seq in H. destruct H as (s0 & H0 & H).
    apply matches_wordb in H0. destruct H0 as [Hb ->].
    apply matches_seq in H. destruct H as (s1 & H1 & H).
    apply matches_lit in H1. destruct H1 as (t & -> & ->).
    apply matches_wordb in H. destruct H as [Hb' _].
    cbn [fst] in Hb, Hb'. rewrite <- app_comm_cons in Hb.
    exists pre, t. split; [reflexivity|]. split.
    + apply (no_word_at_end_boundary pre x (tl ++ t) Hx). exact Hb.
    + unfold at_word_boundary, word_before, word_after in *.
      cbn [before after] in *.
      rewrite Er in Hb'. cbn [app] in Hb'. rewrite Hy in Hb'.
      destruct t as [|c t]; [reflexivity|]. simpl in Hb'.
      destruct (is_word c); [discriminate | reflexivity].
  - intros (pre & post & -> & Hpre & Hpost).
    exists pre. eexists. eexists. split; [reflexivity|].
    apply matches_seq. eexists. split.
    { apply matches_wordb. split; [|reflexivity].
      rewrite <- app_comm_cons.
      apply (no_word_at_end_boundary pre x _ Hx). exact Hpre. }
    apply matches_seq. eexists. split.
    { apply matches_lit. eexists. split; reflexivity. }
    apply matches_wordb. split; [|reflexivity].
    unfold at_word_boundary, word_before, word_after in *.
    cbn [before after] in *.
    rewrite Er. cbn [app]. rewrite Hy, Hpost. reflexivity.
Qed.

(** An occurrence of a text without line feed in joined lines lies in
    one of them. *)
Lemma occurrence_split w : forall pre l post R,
  forallb (fun c => negb (c =? newline)%N) w = true ->
  pre ++ w ++ post = l ++ newline :: R ->
  (exists mid, l = pre ++ w ++ mid /\ post = mid ++ newline :: R) \/
  (exists mid, pre = l ++ newline :: mid /\ R = mid ++ w ++ post).
Proof.
  intros pre. induction pre as [|y pre IH]; intros l post R Hw E.
  - simpl in E. left. revert l E. induction w as [|x w IHw]; intros l E.
    + exists l. simpl in *. auto.
    + simpl in Hw. apply andb_prop in Hw. destruct Hw as [Hx Hw].
      apply negb_true_iff in Hx. destruct l as [|c l].
      * inversion E; subst. rewrite N.eqb_refl in Hx. discriminate.
      * inversion E; subst c. destruct (IHw Hw l H1) as (mid & -> & ->).
        exists mid. auto.
  - destruct l as [|c l].
    + inversion E; subst. right. exists pre. auto.
    + inversion E; subst c. destruct (IH l post R Hw H1) as [(mid & -> & ->)|(mid & -> & ->)].
      * left. exists mid. auto.
      * right. exists mid. auto.
Qed.

Lemma word_no_newline w :
  forallb is_word w = true -> forallb (fun c => negb (c =? newline)%N) w = true.
Proof.
  intros H. apply forallb_forall. intros c Hc.
  rewrite forallb_forall in H. specialize (H c Hc).
  destruct (c =? newline)%N eqn:E; [|reflexivity].
  apply N.eqb_eq in E. subst c. discriminate.
Qed.

Lemma occurs_as_word_lines w ls :
  forallb is_word w = true ->
  occurs_as_word w (join_lines ls) <->
  (exists l, In l (match ls with [] => [[]] | _ => ls end) /\ occurs_as_word w l).
Proof.
  intros Hw. pose proof (word_no_newline w Hw) as Hn.
  induction ls as [|l ls IH].
  - simpl. split; [intros H; exists []; auto | intros (l & [<-|[]] & H); exact H].
  - destruct ls as [|l' ls].
    + simpl. split; [intros H; exists l; auto | intros (l0 & [<-|[]] & H); exact H].
    + rewrite join_lines_cons by discriminate. split.
      * intros (pre & post & E & Hpre & Hpost). symmetry in E.
        apply (occurrence_split w) in E; [|exact Hn].
        destruct E as [(mid & -> & ->)|(mid & -> & E)].
        -- exists (pre ++ w ++ mid). split; [left; reflexivity|].
           exists pre, mid. repeat split; auto.
           destruct mid; [reflexivity | exact Hpost].
        -- assert (Ho : occurs_as_word w (join_lines (l' :: ls))).
           { exists mid, post. repeat split; auto.
             unfold no_word_at_end, word_before in *. simpl before in *.
             change (l ++ newline :: mid) with (l ++ [newline] ++ mid) in Hpre.
             rewrite !rev_app_distr in Hpre.
             destruct (rev mid); [reflexivity | exact Hpre]. }
           apply IH in Ho. destruct Ho as (l0 & Hl0 & Ho).
           exists l0. split; [right; exact Hl0 | exact Ho].
      * intros (l0 & [<-|Hl0] & (pre & post & -> & Hpre & Hpost)).
        -- exists pre, (post ++ newline :: join_lines (l' :: ls)).
           repeat split; auto.
           ++ rewrite <- !app_assoc. reflexivity.
           ++ destruct post; [reflexivity | exact Hpost].
        -- assert (Ho : occurs_as_word w (join_lines (l' :: ls))).
           { apply IH. exists (pre ++ w ++ post). split; [exact Hl0|].
             exists pre, post. auto. }
           destruct Ho as (pre' & post' & -> & Hpre' & Hpost').
           exists (l ++ newline :: pre'), post'. repeat split; auto.
           ++ rewrite <- app_assoc. reflexivity.
           ++ unfold no_word_at_end, word_before in *. simpl before in *.
              change (l ++ newline :: pre') with (l ++ [newline] ++ pre').
              rewrite !rev_app_distr.
              destruct (rev pre'); [reflexivity | exact Hpre'].
Qed.

Lemma slice_next_three {A} (lines : list A) n :
  slice lines (n + 1) (Nat.min (n + 4) (length lines))
  = firstn 3 (skipn (S n) lines).
Proof.
  unfold slice. replace (n + 1) with (S n) by lia.
  destruct (Nat.le_gt_cases (n + 4) (length lines)) as [H|H].
  - rewrite Nat.min_l by lia. f_equal. lia.
  - rewrite Nat.min_r by lia.
    rewrite !firstn_all2; [reflexivity | | ]; rewrite length_skipn; lia.
Qed.

Lemma occurs_as_word_nonempty w : w <> [] -> ~ occurs_as_word w [].
Proof.
  intros Hne (pre & post & E & _). destruct pre; destruct w; simpl in E;
    congruence.
Qed.

Lemma wholeWord_in_lines w ls :
  str w <> [] -> forallb is_word (str w) = true ->
  test (wholeWord w) (join_lines ls) = true <->
  exists l, In l ls /\ occurs_as_word (str w) l.
Proof.
  intros Hne Hw. rewrite test_found_in, (wholeWord_found w _ Hne Hw).
  rewrite (occurs_as_word_lines _ ls Hw). destruct ls as [|l ls]; [|tauto].
  split.
  - intros (l & [<-|[]] & H). elim (occurs_as_word_nonempty _ Hne H).
  - intros (l & [] & _).
Qed.

(** X6. A line that contains [fopen(] is given the note about checking
    for [NULL] exactly when none of the up to three lines after it
    contains [NULL] or [if] as a whole word; the note runs from the first
    [fopen] of the line to its end.  A line without [fopen(] is given
    nothing. *)
Theorem fopen_note : forall lines line n ds,
  (~ occurs (str "fopen(") line ->
   checkFopenWithoutNullCheck lines line n ds = Some ds) /\
  (occurs (str "fopen(") line ->
   ((exists l w, In l (firstn 3 (skipn (S n) lines)) /\
                 In w ["NULL"; "if"]%string /\ occurs_as_word (str w) l) ->
    checkFopenWithoutNullCheck lines line n ds = Some ds) /\
   (~ (exists l w, In l (firstn 3 (skipn (S n) lines)) /\
                   In w ["NULL"; "if"]%string /\ occurs_as_word (str w) l) ->
    exists i,
      first_at (str "fopen") line i /\
      checkFopenWithoutNullCheck lines line n ds
      = Some (ds ++ [Diagnostic (Range n i n (length line))
                       fopenMessage Information]))).
Proof.
  intros lines line n ds. unfold checkFopenWithoutNullCheck.
  rewrite slice_next_three. set (next := firstn 3 (skipn (S n) lines)).
  split.
  - intros Hno. destruct (includes line (str "fopen(")) eqn:Ei; [|reflexivity].
    elim Hno. apply includes_iff. exact Ei.
  - intros Ho. rewrite (proj2 (includes_iff _ _) Ho).
    pose proof (wholeWord_in_lines "NULL" next ltac:(discriminate) eq_refl) as HN.
    pose proof (wholeWord_in_lines "if" next ltac:(discriminate) eq_refl) as HI.
    split.
    + intros (l & w & Hl & [<-|[<-|[]]] & Hw).
      * rewrite (proj2 HN) by eauto. reflexivity.
      * rewrite (proj2 HI) by eauto. rewrite andb_false_r. reflexivity.
    + intros Hnone.
      destruct (test (wholeWord "NULL") (join_lines next)) eqn:EN.
      { elim Hnone. destruct (proj1 HN eq_refl) as (l & Hl & Hw).
        exists l, "NULL"%string. simpl. auto. }
      destruct (test (wholeWord "if") (join_lines next)) eqn:EI.
      { elim Hnone. destruct (proj1 HI eq_refl) as (l & Hl & Hw).
        exists l, "if"%string. simpl. auto. }
      cbn [negb andb].
      assert (Ho' : occurs (str "fopen") line).
      { apply (occurs_prefix (str "fopen") (str "(")). exact Ho. }
      destruct (occurs_indexOf _ _ Ho') as [i Hi]. rewrite Hi.
      apply indexOf_first in Hi. exists i. split; [exact Hi|].
      destruct (first_at_bounds _ _ _ Hi) as [Hb _].
      rewrite newRange_line by lia. reflexivity.
Qed.

Lemma fopen_note_witness :
  checkFopenWithoutNullCheck
    [str "f = fopen(p, m);"; str ""; str "if (!f) return 1;"]
    (str "f = fopen(p, m);") 0 [] = Some [].
Proof.
  apply (proj2 (fopen_note _ _ 0 [])).
  - exists (str "f = "), (str "p, m);"). reflexivity.
  - exists (str "if (!f) return 1;"), "if"%string. split; [simpl; auto|].
    split; [simpl; auto|].
    exists [], (str " (!f) return 1;"). repeat split; reflexivity.
Defined.

(** ** All diagnostics of a document *)

Lemma checkUnsafeFunctions_frame line n ds :
  exists new, checkUnsafeFunctions line n ds = Some (ds ++ new) /\
              Forall (on_line n line) new.
Proof.
  eexists. split; [apply checkUnsafeEntries_reports|].
  apply Forall_forall. intros d Hd. apply in_flat_map in Hd.
  destruct Hd as ([f safe] & _ & Hd). apply in_unsafeReport in Hd.
  destruct Hd as (_ & i & Hi & ->).
  destruct (first_at_bounds _ _ _ Hi) as [Hb _].
  unfold on_line. simpl. repeat split; lia.
Qed.

Lemma report_to_end_of_line line n p msg lvl ds :
  occurs p line ->
  exists new,
    match indexOf line p with
    | None => None
    | Some index =>
        Some (ds ++ [Diagnostic (newRange n index n (length line)) msg lvl])
    end = Some (ds ++ new) /\
    Forall (on_line n line) new.
Proof.
  intros Ho. destruct (occurs_indexOf _ _ Ho) as [i Hi]. rewrite Hi.
  apply indexOf_first in Hi. destruct (first_at_bounds _ _ _ Hi) as [Hb _].
  eexists. split; [reflexivity|]. constructor; [|constructor].
  rewrite newRange_line by lia. unfold on_line. simpl. repeat split; lia.
Qed.

Lemma nothing_reported line n (ds : list diagnostic) :
  exists new, Some ds = Some (ds ++ new) /\ Forall (on_line n line) new.
Proof. exists []. rewrite app_nil_r. split; [reflexivity | constructor]. Qed.

Lemma checkAssignmentInConditional_frame line n ds :
  exists new, checkAssignmentInConditional line n ds = Some (ds ++ new) /\
              Forall (on_line n line) new.
Proof.
  unfold checkAssignmentInConditional.
  destruct (test assignmentInIf line) eqn:Et; [|apply nothing_reported].
  apply report_to_end_of_line.
  apply test_found_in in Et. apply assignmentInIf_found in Et.
  destruct Et as (pre & ws & a & c & b & post & -> & _). exists pre. eauto.
Qed.

Lemma checkMemoryAllocation_frame line n ds :
  exists new, checkMemoryAllocation line n ds = Some (ds ++ new) /\
              Forall (on_line n line) new.
Proof.
  unfold checkMemoryAllocation.
  destruct (test allocationCall line); [|apply nothing_reported].
  destruct (match_ allocationName line) as [[m0 c]|] eqn:Em;
    [|apply nothing_reported].
  apply report_to_end_of_line.
  apply match_from_sound in Em. destruct Em as (pre & post & p' & -> & Hm & ->).
  rewrite app_nil_r in Hm. apply allocationName_matches in Hm.
  destruct Hm as (w & t & _ & -> & _ & Ep). inversion Ep; subst p'.
  rewrite app_nil_r, consumed_app. exists pre, t. reflexivity.
Qed.

Lemma checkFopenWithoutNullCheck_frame lines line n ds :
  exists new, checkFopenWithoutNullCheck lines line n ds = Some (ds ++ new) /\
              Forall (on_line n line) new.
Proof.
  unfold checkFopenWithoutNullCheck.
  destruct (includes line (str "fopen(")) eqn:Ei; [|apply nothing_reported].
  destruct (negb _ && negb _); [|apply nothing_reported].
  apply report_to_end_of_line.
  apply includes_iff in Ei. apply (occurs_prefix (str "fopen") (str "(")).
  exact Ei.
Qed.

Lemma by_line_app a b n :
  Forall (fun d => startLine (where_ d) = n) a ->
  Forall (fun d => n <= startLine (where_ d)) b ->
  by_line b -> by_line (a ++ b).
Proof.
  intros Ha Hb Hs. induction Ha as [|d a Hd Ha IH]; [exact Hs|].
  simpl. constructor; [exact IH|].
  apply Forall_app. split.
  - apply Forall_forall. intros x Hx. rewrite Forall_forall in Ha.
    rewrite Hd, (Ha x Hx). lia.
  - apply Forall_forall. intros x Hx. rewrite Forall_forall in Hb.
    specialize (Hb x Hx). lia.
Qed.

Lemma diagnoseFrom_frame lines : forall rest done ds,
  lines = done ++ rest ->
  exists new,
    diagnoseFrom lines rest (length done) ds = Some (ds ++ new) /\
    Forall (within lines) new /\
    Forall (fun d => length done <= startLine (where_ d)) new /\
    by_line new.
Proof.
  induction rest as [|line rest IH]; intros done ds E.
  - exists []. simpl. rewrite app_nil_r. repeat split; constructor.
  - cbn [diagnoseFrom].
    destruct (checkUnsafeFunctions_frame line (length done) ds) as (n1 & -> & H1).
    destruct (checkAssignmentInConditional_frame line (length done) (ds ++ n1))
      as (n2 & -> & H2).
    destruct (checkMemoryAllocation_frame line (length done) ((ds ++ n1) ++ n2))
      as (n3 & -> & H3).
    destruct (checkFopenWithoutNullCheck_frame lines line (length done)
                (((ds ++ n1) ++ n2) ++ n3)) as (n4 & -> & H4).
    destruct (IH (done ++ [line]) ((((ds ++ n1) ++ n2) ++ n3) ++ n4))
      as (n5 & E5 & W5 & L5 & S5).
    { rewrite <- app_assoc. exact E. }
    rewrite length_app in E5, L5. simpl in E5, L5.
    replace (length done + 1) with (S (length done)) in E5, L5 by lia.
    rewrite E5. exists (n1 ++ n2 ++ n3 ++ n4 ++ n5).
    assert (Hhere : Forall (on_line (length done) line) (n1 ++ n2 ++ n3 ++ n4)).
    { repeat (apply Forall_app; split); assumption. }
    split; [repeat rewrite <- app_assoc; reflexivity|].
    replace (n1 ++ n2 ++ n3 ++ n4 ++ n5) with ((n1 ++ n2 ++ n3 ++ n4) ++ n5)
      by (repeat rewrite <- app_assoc; reflexivity).
    repeat split.
    + apply Forall_app. split; [|exact W5].
      apply Forall_forall. intros d Hd. rewrite Forall_forall in Hhere.
      destruct (Hhere d Hd) as (Hs & He & Hc1 & Hc2).
      unfold within. rewrite Hs, He. split; [reflexivity|].
      exists line. split; [|split; assumption].
      rewrite E. rewrite nth_error_app2 by lia. rewrite Nat.sub_diag. reflexivity.
    + apply Forall_app. split.
      * apply Forall_forall. intros d Hd. rewrite Forall_forall in Hhere.
        destruct (Hhere d Hd) as (Hs & _). lia.
      * apply Forall_forall. intros d Hd. rewrite Forall_forall in L5.
        specialize (L5 d Hd). lia.
    + apply (by_line_app _ _ (length done)).
      * apply Forall_forall. intros d Hd. rewrite Forall_forall in Hhere.
        destruct (Hhere d Hd) as (Hs & _). exact Hs.
      * apply Forall_forall. intros d Hd. rewrite Forall_forall in L5.
        specialize (L5 d Hd). lia.
      * exact S5.
Qed.

(** X7. [runDiagnostics] never builds an invalid position: it returns
    its diagnostics for every document.  Each diagnostic lies on one
    line of the document, within the text of that line, and the
    diagnostics come in the order of their lines. *)
Theorem runDiagnostics_within_document : forall text,
  exists ds,
    runDiagnostics text = Some ds /\
    Forall (within (split_lines text)) ds /\
    by_line ds.
Proof.
  intros text. unfold runDiagnostics.
  destruct (diagnoseFrom_frame (split_lines text) (split_lines text) [] []
              eq_refl) as (new & E & W & _ & S).
  exists new. simpl in E. rewrite E. auto.
Qed.

(** ** More on the classifier *)

Lemma keywordPattern_found ws s :
  (forall w, In w ws -> str w <> [] /\ forallb is_word (str w) = true) ->
  found_in (keywordPattern ws) s <->
  exists ws0 w rest,
    s = ws0 ++ str w ++ rest /\ spaces ws0 /\ In w ws /\
    word_after (Pos [] rest) = false.
Proof.
  intros Hws. unfold keywordPattern. split.
  - intros (pre & post & s' & -> & H).
    apply matches_seq in H. destruct H as (s0 & H0 & H).
    apply matches_bol in H0. destruct H0 as [Hpre ->].
    assert (pre = []) as -> by (apply rev_inj; exact Hpre). simpl rev in H.
    apply matches_seq in H. destruct H as (s1 & H1 & H).
    apply matches_star_cls in H1. destruct H1 as (ws0 & t0 & -> & Hws0 & ->).
    apply matches_seq in H. destruct H as (s2 & H2 & H).
    apply matches_group in H2; [|apply plain_words].
    destruct H2 as (l & t1 & -> & Hw & ->).
    apply matches_words in Hw. destruct Hw as (w & t1' & Hw & E & Epos).
    inversion Epos as [[Eb Et]]. subst t1'. apply app_inv_tail in Eb.
    apply rev_inj in Eb. subst l.
    apply matches_wordb in H. destruct H as [Hb _].
    exists ws0, w, t1. repeat split; auto.
    destruct (Hws w Hw) as [Hne Hword].
    destruct (rev_word_head _ Hne Hword) as (y & ry & Er & Hy).
    unfold at_word_boundary, word_before, word_after in *.
    cbn [fst before after] in *. rewrite Er in Hb. cbn [app] in Hb.
    rewrite Hy in Hb. destruct t1 as [|c t1]; [reflexivity|].
    destruct (is_word c); [discriminate | reflexivity].
  - intros (ws0 & w & rest & -> & Hws0 & Hw & Hrest).
    exists []. eexists. eexists. split; [reflexivity|].
    apply matches_seq. eexists. split; [apply matches_bol; auto|].
    apply matches_seq. eexists. split.
    { apply matches_star_cls. exists ws0. eexists. eauto. }
    apply matches_seq. eexists. split.
    { apply matches_group; [apply plain_words|]. exists (str w). eexists.
      split; [reflexivity|]. split; [|reflexivity].
      apply matches_words. exists w. eexists. eauto. }
    apply matches_wordb. split; [|reflexivity].
    destruct (Hws w Hw) as [Hne Hword].
    destruct (rev_word_head _ Hne Hword) as (y & ry & Er & Hy).
    unfold at_word_boundary, word_before, word_after in *.
    cbn [fst before after] in *. rewrite Er. cbn [app].
    rewrite Hy, Hrest. reflexivity.
Qed.

Lemma begins_with_word_after kw s :
  begins_with_word kw s ->
  exists rest, s = kw ++ rest /\ word_after (Pos [] rest) = false.
Proof.
  intros (rest & -> & H). exists rest. split; [reflexivity|].
  unfold word_after. simpl. destruct rest; [reflexivity | exact H].
Qed.

Lemma keywords_are_words ws :
  forallb (fun w => negb (JS.eqb (str w) []) && forallb is_word (str w)) ws = true ->
  forall w, In w ws -> str w <> [] /\ forallb is_word (str w) = true.
Proof.
  intros H w Hw. rewrite forallb_forall in H. specialize (H w Hw).
  apply andb_prop in H. destruct H as [H1 H2]. split; [|exact H2].
  intros E. rewrite E in H1. discriminate.
Qed.

(** X8. A label of a [switch] and the start of a type definition are
    left alone: a line whose trimmed text begins with [case], [default],
    [struct], [union], [enum] or [typedef] as a whole word is never given
    a semicolon. *)
Theorem shouldAddSemicolon_label_or_type : forall text kw,
  In kw (labelKeywords ++ typeKeywords) ->
  begins_with_word (str kw) (trim text) ->
  shouldAddSemicolon text = false.
Proof.
  intros text kw Hkw Hb. apply begins_with_word_after in Hb.
  destruct Hb as (rest & E & Hrest). apply in_app_or in Hkw.
  destruct Hkw as [Hkw|Hkw].
  - apply shouldAddSemicolon_rejects with (r := switchLabel); [simpl; auto 10|].
    apply test_found_in. change switchLabel with (keywordPattern labelKeywords).
    apply keywordPattern_found; [apply keywords_are_words; reflexivity|].
    exists [], kw, rest. repeat split; auto.
  - apply shouldAddSemicolon_rejects with (r := typeDefinition); [simpl; auto 10|].
    apply test_found_in. change typeDefinition with (keywordPattern typeKeywords).
    apply keywordPattern_found; [apply keywords_are_words; reflexivity|].
    exists [], kw, rest. repeat split; auto.
Qed.

Lemma shouldAddSemicolon_label_or_type_witness :
  shouldAddSemicolon (str "    typedef unsigned long size") = false.
Proof.
  apply (shouldAddSemicolon_label_or_type _ "typedef"%string).
  - simpl. auto 10.
  - exists (str " unsigned long size"). split; reflexivity.
Defined.

(** X9. Preprocessor directives and comments are left alone: a line
    whose trimmed text starts with [#], with two slashes or with a slash
    and a star, or ends with a star and a slash, is never given a
    semicolon. *)
Theorem shouldAddSemicolon_directive_or_comment : forall text,
  (exists p rest, In p ["#"; "//"; "/*"]%string /\ trim text = str p ++ rest) \/
  (exists l, trim text = l ++ str "*/") ->
  shouldAddSemicolon text = false.
Proof.
  intros text H.
  apply shouldAddSemicolon_rejects with (r := directiveOrComment);
    [simpl; auto 10|].
  apply test_found_in. unfold directiveOrComment.
  destruct H as [(p & rest & Hp & E)|(l & E)]; rewrite E.
  - exists [], (str p ++ rest). eexists. split; [reflexivity|].
    simpl in Hp. destruct Hp as [<-|[<-|[<-|[]]]].
    + left. apply matches_seq. eexists. split; [apply matches_bol; auto|].
      apply matches_lit. eexists. split; reflexivity.
    + right. left. apply matches_seq. eexists. split; [apply matches_bol; auto|].
      apply matches_lit. eexists. split; reflexivity.
    + right. right. left.
      apply matches_seq. eexists. split; [apply matches_bol; auto|].
      apply matches_lit. eexists. split; reflexivity.
  - exists l, (str "*/"). eexists. split; [reflexivity|].
    right. right. right. apply matches_seq. eexists. split.
    + apply matches_lit. exists []. split; reflexivity.
    + apply matches_eol. auto.
Qed.

Lemma shouldAddSemicolon_directive_or_comment_witness :
  shouldAddSemicolon (str "  x = 1 /* set x */") = false.
Proof.
  apply shouldAddSemicolon_directive_or_comment. right.
  exists (str "x = 1 /* set x "). reflexivity.
Defined.

(** X10. A signature that is still waiting for its brace is left
    alone: a basic type, white space, a name, a parameter list in
    parentheses without a closing parenthesis inside, and nothing
    after it, is never given a semicolon. *)
Theorem shouldAddSemicolon_bare_signature : forall text,
  BareSignature (trim text) -> shouldAddSemicolon text = false.
Proof.
  intros text (rt & ws1 & nm & ws2 & ps & E & Hrt & Hne1 & Hws1 & Hnm & Hw &
               Hws2 & Hps).
  apply shouldAddSemicolon_rejects with (r := bareSignature); [simpl; auto 10|].
  apply test_found_in. rewrite E. unfold bareSignature.
  exists []. eexists. eexists. split; [reflexivity|].
  apply matches_seq. eexists. split; [apply matches_bol; auto|].
  apply matches_seq. eexists. split; [simpl; apply iter_stop|].
  apply matches_seq. eexists. split.
  { apply matches_group; [apply plain_words|]. exists (str rt). eexists.
    split; [reflexivity|]. split; [|reflexivity].
    apply matches_words. exists rt. eexists. eauto. }
  apply matches_seq. eexists. split.
  { apply matches_plus_cls. exists ws1. eexists. eauto. }
  apply matches_seq. eexists. split.
  { apply matches_plus_cls. exists nm. eexists. eauto. }
  apply matches_seq. eexists. split.
  { apply matches_star_cls. exists ws2. eexists. eauto. }
  apply matches_seq. eexists. split.
  { apply matches_chr. eexists. split; reflexivity. }
  apply matches_seq. eexists. split.
  { apply matches_star_cls. exists ps. eexists. eauto. }
  apply matches_seq. eexists. split.
  { apply matches_chr. eexists. split; reflexivity. }
  apply matches_seq. eexists. split; [simpl; apply iter_stop|].
  apply matches_eol. auto.
Qed.

Lemma shouldAddSemicolon_bare_signature_witness :
  shouldAddSemicolon (str "  double area(double w, double h)  ") = false.
Proof.
  apply shouldAddSemicolon_bare_signature.
  exists "double"%string, (str " "), (str "area"), [], (str "double w, double h").
  repeat split; try reflexivity; try discriminate. simpl. auto 10.
Defined.

Lemma dropWhile_all f s : forallb f s = true -> dropWhile f s = [].
Proof.
  induction s as [|c s IH]; simpl; [reflexivity|].
  intros H. apply andb_prop in H. destruct H as [-> H]. auto.
Qed.

Lemma dropWhile_prefix f p s :
  forallb f p = true -> dropWhile f (p ++ s) = dropWhile f s.
Proof.
  induction p as [|c p IH]; simpl; [reflexivity|].
  intros H. apply andb_prop in H. destruct H as [-> H]. auto.
Qed.

Lemma dropWhile_suffix f w : forall s,
  forallb f w = true ->
  dropWhile f (s ++ w)
  = match dropWhile f s with [] => [] | d => d ++ w end.
Proof.
  induction s as [|c s IH]; intros Hw; simpl.
  - apply dropWhile_all. exact Hw.
  - destruct (f c); [apply IH; exact Hw | reflexivity].
Qed.

Lemma trimEnd_suffix s w : spaces w -> trimEnd (s ++ w) = trimEnd s.
Proof.
  intros Hw. unfold trimEnd. rewrite rev_app_distr. f_equal.
  apply dropWhile_prefix. rewrite forallb_rev. exact Hw.
Qed.

Lemma trim_padding ws1 s ws2 :
  spaces ws1 -> spaces ws2 -> trim (ws1 ++ s ++ ws2) = trim s.
Proof.
  intros H1 H2. unfold trim, trimStart.
  rewrite dropWhile_prefix by exact H1. rewrite dropWhile_suffix by exact H2.
  destruct (dropWhile is_space s) eqn:E; [reflexivity|].
  apply trimEnd_suffix. exact H2.
Qed.

(** X11. White space around a line does not matter to the classifier:
    padding a line with white space on either side does not change the
    answer. *)
Theorem shouldAddSemicolon_ignores_padding : forall text ws1 ws2,
  spaces ws1 -> spaces ws2 ->
  shouldAddSemicolon (ws1 ++ text ++ ws2) = shouldAddSemicolon text.
Proof.
  intros text ws1 ws2 H1 H2. unfold shouldAddSemicolon.
  rewrite (trim_padding ws1 text ws2 H1 H2). reflexivity.
Qed.

Lemma shouldAddSemicolon_ignores_padding_witness :
  shouldAddSemicolon (str "    " ++ str "return 0" ++ str "  ")
  = shouldAddSemicolon (str "return 0").
Proof.
  apply shouldAddSemicolon_ignores_padding; reflexivity.
Defined.

(** ** The edit that adds the semicolon *)

Lemma trimEnd_fixed l z : is_space z = false -> trimEnd (l ++ [z]) = l ++ [z].
Proof.
  intros Hz. unfold trimEnd. rewrite rev_app_distr. cbn [rev app dropWhile].
  rewrite Hz. cbn [rev]. rewrite rev_involutive. reflexivity.
Qed.

Lemma dropWhile_last f l z :
  f z = false -> exists d, dropWhile f (l ++ [z]) = d ++ [z].
Proof.
  intros Hz. induction l as [|c l IH]; simpl.
  - rewrite Hz. exists []. reflexivity.
  - destruct (f c); [exact IH | exists (c :: l); reflexivity].
Qed.

Lemma shouldAddSemicolon_semicolon_last text d :
  trim text = d ++ [59%N] -> shouldAddSemicolon text = false.
Proof.
  intros E. unfold shouldAddSemicolon. rewrite E. cbv zeta.
  destruct (d ++ [59%N]) eqn:El; [reflexivity|]. rewrite <- El.
  change (str ";") with [59%N]. rewrite endsWith_app_last. reflexivity.
Qed.

Lemma shouldAddSemicolon_terminated l :
  shouldAddSemicolon (trimEnd (l ++ str ";")) = false.
Proof.
  change (str ";") with [59%N]. rewrite trimEnd_fixed by reflexivity.
  destruct (dropWhile_last is_space l 59%N eq_refl) as (d & E).
  apply (shouldAddSemicolon_semicolon_last _ d).
  unfold trim, trimStart. rewrite E. apply trimEnd_fixed. reflexivity.
Qed.

Lemma dropWhile_split f s :
  exists p, forallb f p = true /\ s = p ++ dropWhile f s.
Proof.
  induction s as [|c s (p & Hp & E)]; simpl.
  - exists []. auto.
  - destruct (f c) eqn:Ec.
    + exists (c :: p). simpl. rewrite Ec, Hp, <- E. auto.
    + exists []. auto.
Qed.

Lemma trim_trimEnd l : trim (trimEnd l) = trim l.
Proof.
  destruct (dropWhile_split is_space (rev l)) as (p & Hp & E).
  assert (El : l = [] ++ trimEnd l ++ rev p).
  { unfold trimEnd. simpl. rewrite <- rev_app_distr, <- E.
    symmetry. apply rev_involutive. }
  rewrite El at 2. symmetry. apply trim_padding; [reflexivity|].
  unfold spaces. rewrite forallb_rev. exact Hp.
Qed.

Lemma nth_error_setLine_same doc : forall n t l,
  nth_error doc n = Some l -> nth_error (setLine doc n t) n = Some t.
Proof.
  induction doc as [|x doc IH]; intros [|n] t l H; simpl in *;
    try discriminate; [reflexivity | eapply IH; eassumption].
Qed.

Lemma nth_error_setLine_other doc : forall n m t,
  m <> n -> nth_error (setLine doc n t) m = nth_error doc m.
Proof.
  induction doc as [|x doc IH]; intros [|n] [|m] t H; simpl;
    try reflexivity; try congruence.
  apply IH. congruence.
Qed.

Lemma length_setLine doc : forall n t, length (setLine doc n t) = length doc.
Proof.
  induction doc as [|x doc IH]; intros [|n] t; simpl; auto.
Qed.

(** X12. The edit changes at most one line, by one semicolon at its
    end, and a second run on the same line changes nothing: no line ever
    gets two semicolons from it. *)
Theorem addSemicolonIfNeeded_once : forall document lineNum,
  addSemicolonIfNeeded (addSemicolonIfNeeded document lineNum) lineNum
  = addSemicolonIfNeeded document lineNum /\
  length (addSemicolonIfNeeded document lineNum) = length document /\
  (forall m, m <> lineNum ->
     nth_error (addSemicolonIfNeeded document lineNum) m = nth_error document m) /\
  (forall l, nth_error document lineNum = Some l ->
     nth_error (addSemicolonIfNeeded document lineNum) lineNum = Some l \/
     (shouldAddSemicolon l = true /\
      nth_error (addSemicolonIfNeeded document lineNum) lineNum
      = Some (l ++ str ";"))).
Proof.
  intros doc n. destruct (nth_error doc n) as [l|] eqn:El.
  - destruct (shouldAddSemicolon (trimEnd l)) eqn:Es.
    + assert (Ev : addSemicolonIfNeeded doc n = setLine doc n (l ++ str ";"))
        by (unfold addSemicolonIfNeeded; rewrite El, Es; reflexivity).
      rewrite !Ev. repeat split.
      * unfold addSemicolonIfNeeded.
        rewrite (nth_error_setLine_same doc n _ l El).
        rewrite shouldAddSemicolon_terminated. reflexivity.
      * apply length_setLine.
      * intros m Hm. apply nth_error_setLine_other. exact Hm.
      * intros l' E. inversion E; subst l'. right. split.
        -- rewrite <- Es. unfold shouldAddSemicolon.
           rewrite trim_trimEnd. reflexivity.
        -- apply (nth_error_setLine_same doc n _ l El).
    + assert (Ev : addSemicolonIfNeeded doc n = doc)
        by (unfold addSemicolonIfNeeded; rewrite El, Es; reflexivity).
      rewrite !Ev. repeat split; auto.
      intros l0 E. inversion E; subst l0. left. exact El.
  - assert (Ev : addSemicolonIfNeeded doc n = doc)
      by (unfold addSemicolonIfNeeded; rewrite El; reflexivity).
    rewrite !Ev. repeat split; auto. intros l0 E. discriminate.
Qed.

Lemma addSemicolonIfNeeded_once_witness :
  nth_error (addSemicolonIfNeeded [str "int x = 5  "; str "}"] 0) 0
    = Some (str "int x = 5  ") \/
  (shouldAddSemicolon (str "int x = 5  ") = true /\
   nth_error (addSemicolonIfNeeded [str "int x = 5  "; str "}"] 0) 0
   = Some (str "int x = 5  " ++ str ";")).
Proof.
  apply (proj2 (proj2 (proj2
          (addSemicolonIfNeeded_once [str "int x = 5  "; str "}"] 0)))).
  reflexivity.
Defined.


(** ** Where the classifier says yes *)

(** What any match of the rejecting patterns begins with. *)
Lemma controlKeyword_starts s :
  found_in controlKeyword s ->
  exists ws0 w t, spaces ws0 /\
    In w controlOpenings /\ s = ws0 ++ str w ++ t.
Proof.
  intros (pre & post & s' & -> & H). unfold controlKeyword in H.
  apply matches_seq in H. destruct H as (s0 & H0 & H).
  apply matches_bol in H0. destruct H0 as [Hpre ->].
  assert (pre = []) as -> by (apply rev_inj; exact Hpre). simpl rev in H.
  apply matches_seq in H. destruct H as (s1 & H1 & H).
  apply matches_star_cls in H1. destruct H1 as (ws0 & t0 & -> & Hws0 & ->).
  apply matches_seq in H. destruct H as (s2 & H2 & _).
  destruct H2 as (s3 & H3 & _).
  apply matches_alts in H3. destruct H3 as (r & Hr & H3).
  exists ws0.
  repeat (destruct Hr as [<-|Hr];
          [ first [ apply matches_lit in H3; destruct H3 as (t & Et & _)
                  | apply matches_seq in H3; destruct H3 as (s4 & H4 & _);
                    apply matches_lit in H4; destruct H4 as (t & Et & _) ];
            cbn [fst snd before after] in Et; subst t0;
            eexists _, t; split; [exact Hws0|]; split; [|reflexivity];
            simpl; auto 10 |]).
  destruct Hr.
Qed.

Lemma bareSignature_starts s :
  found_in bareSignature s ->
  exists ws0 w t, spaces ws0 /\ In w basicTypes /\ s = ws0 ++ str w ++ t.
Proof.
  intros (pre & post & s' & -> & H). unfold bareSignature in H.
  apply matches_seq in H. destruct H as (s0 & H0 & H).
  apply matches_bol in H0. destruct H0 as [Hpre ->].
  assert (pre = []) as -> by (apply rev_inj; exact Hpre). simpl rev in H.
  apply matches_seq in H. destruct H as (s1 & H1 & H).
  apply matches_star_cls in H1. destruct H1 as (ws0 & t0 & -> & Hws0 & ->).
  apply matches_seq in H. destruct H as (s2 & H2 & _).
  destruct H2 as (s3 & H3 & _).
  apply matches_words in H3. destruct H3 as (w & t & Hw & Et & _).
  cbn [fst snd before after] in Et. subst t0.
  exists ws0, w, t. auto.
Qed.

Lemma loneBrace_starts s :
  found_in loneBrace s ->
  exists ws0 c t, spaces ws0 /\ In c (str "{}") /\ s = ws0 ++ c :: t.
Proof.
  intros (pre & post & s' & -> & H). unfold loneBrace in H.
  apply matches_seq in H. destruct H as (s0 & H0 & H).
  apply matches_bol in H0. destruct H0 as [Hpre ->].
  assert (pre = []) as -> by (apply rev_inj; exact Hpre). simpl rev in H.
  apply matches_seq in H. destruct H as (s1 & H1 & H).
  apply matches_star_cls in H1. destruct H1 as (ws0 & t0 & -> & Hws0 & ->).
  apply matches_seq in H. destruct H as (s2 & H2 & _).
  apply matches_cls in H2. destruct H2 as (c & t & Et & Hc & _).
  cbn [fst snd before after] in Et. subst t0.
  exists ws0, c, t. repeat split; auto.
  apply existsb_exists in Hc. destruct Hc as (x & Hx & E).
  apply N.eqb_eq in E. subst x. exact Hx.
Qed.

Lemma endsStructural_ends s :
  found_in endsStructural s -> exists l c, s = l ++ [c] /\ In c structuralChars.
Proof.
  intros (pre & post & s' & -> & H). unfold endsStructural in H.
  apply matches_seq in H. destruct H as (s0 & H0 & H).
  apply matches_cls in H0. destruct H0 as (c & t & Et & Hc & ->).
  cbn [fst snd before after] in *. subst post.
  apply matches_eol in H. destruct H as [Et _].
  cbn [fst snd before after] in Et. subst t.
  exists pre, c. split; [reflexivity|].
  apply existsb_exists in Hc. destruct Hc as (x & Hx & E).
  apply N.eqb_eq in E. subst x. exact Hx.
Qed.

Lemma directiveOrComment_shape s :
  found_in directiveOrComment s ->
  (exists p rest, In p ["#"; "//"; "/*"]%string /\ s = str p ++ rest) \/
  (exists l, s = l ++ str "*/").
Proof.
  intros (pre & post & s' & -> & H). unfold directiveOrComment in H.
  destruct H as [H|[H|[H|H]]].
  1-3: left; apply matches_seq in H; destruct H as (s0 & H0 & H);
       apply matches_bol in H0; destruct H0 as [Hpre ->];
       assert (pre = []) as -> by (apply rev_inj; exact Hpre);
       apply matches_lit in H; destruct H as (t & -> & _);
       eexists _, t; split; [|reflexivity]; simpl; auto.
  right. apply matches_seq in H. destruct H as (s0 & H0 & H).
  apply matches_lit in H0. destruct H0 as (t & -> & ->).
  apply matches_eol in H. destruct H as [Et _].
  cbn [fst snd before after] in Et. subst t.
  exists pre. reflexivity.
Qed.

Lemma no_leading_space ws0 x y (X Y : jsstring) :
  spaces ws0 -> is_space x = false -> ws0 ++ y :: Y = x :: X ->
  ws0 = [] /\ y = x /\ Y = X.
Proof.
  intros Hws Hx E. destruct ws0 as [|c ws0].
  - inversion E. auto.
  - inversion E; subst c. unfold spaces in Hws. simpl in Hws.
    rewrite Hx in Hws. discriminate.
Qed.

(** X13. A jump statement that is missing its semicolon gets one: a
    line whose trimmed text begins with [return], [break], [continue] or
    [goto] as a whole word, does not end with a semicolon or a structural
    character, and does not end a comment, is given a semicolon. *)
Theorem shouldAddSemicolon_jump_statement : forall text kw,
  In kw jumpKeywords ->
  begins_with_word (str kw) (trim text) ->
  (forall l c, trim text = l ++ [c] -> ~ In c (str ";{},:\")) ->
  (forall l, trim text <> l ++ str "*/") ->
  shouldAddSemicolon text = true.
Proof.
  intros text kw Hkw Hb Hlast Hcomment.
  pose proof (begins_with_word_after _ _ Hb) as (rest & E & Hrest).
  assert (Hfirst : exists x X, trim text = x :: X /\ is_space x = false /\
                     forall w t, In w rejectedOpenings -> x :: X <> str w ++ t).
  { rewrite E. unfold jumpKeywords in Hkw. simpl in Hkw.
    repeat (destruct Hkw as [<-|Hkw];
            [eexists _, _; split; [reflexivity|]; split; [reflexivity|];
             intros w t Hw; unfold rejectedOpenings in Hw; simpl in Hw;
             repeat (destruct Hw as [<-|Hw]; [discriminate|]); destruct Hw|]).
    destruct Hkw. }
  destruct Hfirst as (x & X & Ex & Hx & Hno).
  unfold shouldAddSemicolon. rewrite Ex. cbv zeta. rewrite <- Ex.
  destruct (endsWith (trim text) (str ";")) eqn:E1.
  { exfalso. apply startsWith_iff in E1. destruct E1 as (r & E1).
    apply (f_equal (@rev char)) in E1. rewrite rev_involutive in E1.
    simpl in E1.
    apply (Hlast (rev r) 59%N E1). simpl. auto. }
  destruct (test endsStructural (trim text)) eqn:E2.
  { exfalso. apply test_found_in in E2. apply endsStructural_ends in E2.
    destruct E2 as (l & c & El & Hc). apply (Hlast l c El).
    unfold structuralChars in Hc. simpl in *. tauto. }
  destruct (test directiveOrComment (trim text)) eqn:E3.
  { exfalso. apply test_found_in in E3. apply directiveOrComment_shape in E3.
    destruct E3 as [(p & r & Hp & Ep)|(l & El)]; [|exact (Hcomment l El)].
    rewrite Ex in Ep. apply (Hno p r); [|exact Ep].
    unfold rejectedOpenings. simpl in Hp. simpl. tauto. }
  assert (Hstart : forall ws0 w t,
            spaces ws0 -> trim text = ws0 ++ str w ++ t -> str w <> [] ->
            x :: X = str w ++ t).
  { intros ws0 w t Hws Et Hne. rewrite Ex in Et.
    destruct (str w) as [|y Y] eqn:Ew; [congruence|].
    symmetry in Et. simpl in Et.
    destruct (no_leading_space ws0 x y X (Y ++ t) Hws Hx Et) as (_ & -> & <-).
    reflexivity. }
  destruct (test controlKeyword (trim text)) eqn:E4.
  { exfalso. apply test_found_in in E4. apply controlKeyword_starts in E4.
    destruct E4 as (ws0 & w & t & Hws & Hw & Et).
    apply (Hno w t); [unfold rejectedOpenings; apply in_or_app; left; exact Hw|].
    apply (Hstart ws0 w t Hws Et).
    simpl in Hw. repeat (destruct Hw as [<-|Hw]; [discriminate|]). destruct Hw. }
  destruct (test switchLabel (trim text)) eqn:E5.
  { exfalso. apply test_found_in in E5.
    change switchLabel with (keywordPattern labelKeywords) in E5.
    apply keywordPattern_found in E5; [|apply keywords_are_words; reflexivity].
    destruct E5 as (ws0 & w & t & Et & Hws & Hw & _).
    apply (Hno w t);
      [unfold rejectedOpenings; apply in_or_app; right; apply in_or_app; left;
       exact Hw|].
    apply (Hstart ws0 w t Hws Et).
    simpl in Hw. repeat (destruct Hw as [<-|Hw]; [discriminate|]). destruct Hw. }
  destruct (test bareSignature (trim text)) eqn:E6.
  { exfalso. apply test_found_in in E6. apply bareSignature_starts in E6.
    destruct E6 as (ws0 & w & t & Hws & Hw & Et).
    apply (Hno w t).
    - unfold rejectedOpenings.
      apply in_or_app; right; apply in_or_app; right; apply in_or_app; right.
      apply in_or_app; left; exact Hw.
    - apply (Hstart ws0 w t Hws Et).
      simpl in Hw. repeat (destruct Hw as [<-|Hw]; [discriminate|]). destruct Hw. }
  destruct (test typeDefinition (trim text)) eqn:E7.
  { exfalso. apply test_found_in in E7.
    change typeDefinition with (keywordPattern typeKeywords) in E7.
    apply keywordPattern_found in E7; [|apply keywords_are_words; reflexivity].
    destruct E7 as (ws0 & w & t & Et & Hws & Hw & _).
    apply (Hno w t).
    - unfold rejectedOpenings.
      apply in_or_app; right; apply in_or_app; right; apply in_or_app; left.
      exact Hw.
    - apply (Hstart ws0 w t Hws Et).
      simpl in Hw. repeat (destruct Hw as [<-|Hw]; [discriminate|]). destruct Hw. }
  destruct (test loneBrace (trim text)) eqn:E8.
  { exfalso. apply test_found_in in E8. apply loneBrace_starts in E8.
    destruct E8 as (ws0 & c & t & Hws & Hc & Et).
    rewrite Ex in Et. symmetry in Et.
    destruct (no_leading_space ws0 x c X t Hws Hx Et) as (_ & -> & ->).
    simpl in Hc. destruct Hc as [<-|[<-|[]]].
    - apply (Hno "{"%string X); [unfold rejectedOpenings; simpl; tauto | reflexivity].
    - apply (Hno "}"%string X); [unfold rejectedOpenings; simpl; tauto | reflexivity]. }
  assert (Hj : test jumpShape (trim text) = true).
  { apply test_found_in. change jumpShape with (keywordPattern jumpKeywords).
    apply keywordPattern_found; [apply keywords_are_words; reflexivity|].
    exists [], kw, rest. repeat split; auto. }
  unfold needsSemicolonPatterns. cbn [existsb]. rewrite Hj.
  rewrite !orb_true_r. reflexivity.
Qed.

Lemma shouldAddSemicolon_jump_statement_witness :
  shouldAddSemicolon (str "    return a + b") = true.
Proof.
  apply (shouldAddSemicolon_jump_statement _ "return"%string).
  - simpl. auto.
  - exists (str " a + b"). split; reflexivity.
  - intros l c E Hc. change (trim (str "    return a + b"))
      with (str "return a + " ++ [98%N]) in E.
    apply app_inj_tail in E. destruct E as [_ <-].
    simpl in Hc. intuition discriminate.
  - intros l E. change (trim (str "    return a + b"))
      with (str "return a + " ++ [98%N]) in E.
    change (l ++ str "*/") with (l ++ [42%N] ++ [47%N]) in E.
    rewrite app_assoc in E. apply app_inj_tail in E. destruct E as [_ E].
    discriminate.
Defined.

(** ** The edit of the prototype generator *)

Lemma missing_edit_lines text fs :
  missingPrototypes text = Some fs -> fs <> [] ->
  exists d,
    split_lines text = linesOf d /\ wellAnchored d /\
    split_lines (insertPrototypes text (map prototype fs))
    = linesOf (withPrototypes d (map prototype fs)).
Proof.
  intros Em Hfs.
  destruct (missing_layout text fs Em Hfs) as (d & E & Hd & Efs).
  exists d. split; [exact E|]. split; [exact Hd|].
  pose proof (split_lines_oneLine text) as Hl. rewrite E in Hl.
  unfold linesOf in Hl. apply Forall_app in Hl. destruct Hl as [_ Hl].
  inversion Hl as [|? ? _ Hl']; subst. apply Forall_app in Hl'.
  destruct Hl' as [_ Hl']. inversion Hl' as [|? ? _ Hbd]; subst. clear Hl Hl'.
  apply insertPrototypes_lines; [exact E | exact Hd | |].
  - destruct (filter _ _); [congruence | discriminate].
  - apply Forall_forall. intros p Hp. apply in_map_iff in Hp.
    destruct Hp as (f & <- & Hf). apply filter_In in Hf. destruct Hf as [Hf _].
    destruct (found_prototype_facts _ f Hbd Hf)
      as (rt & ps & _ & _ & _ & _ & _ & H).
    exact H.
Qed.

Lemma firstn_S_app_cons {A} (l1 : list A) x l2 :
  firstn (S (length l1)) (l1 ++ x :: l2) = l1 ++ [x].
Proof. induction l1; simpl; [reflexivity | f_equal; assumption]. Qed.

(** X14. The generator only ever adds lines.  Where nothing is missing
    the document stays as it is; otherwise the new document has the old
    lines up to the last include line, an empty line, the missing
    prototypes, and then all the old lines that followed, untouched. *)
Theorem autoGeneratePrototypes_only_inserts : forall text protos,
  synthesize text = Some protos ->
  (protos = [] -> autoGeneratePrototypes text = Some text) /\
  (protos <> [] ->
   exists L text',
     lastIncludeLine (split_lines text) = Some L /\
     autoGeneratePrototypes text = Some text' /\
     split_lines text'
     = firstn (S L) (split_lines text) ++ [] :: protos
       ++ skipn (S L) (split_lines text)).
Proof.
  intros text protos Hs. unfold synthesize in Hs. unfold autoGeneratePrototypes.
  destruct (missingPrototypes text) as [fs|] eqn:Em; [|discriminate].
  simpl in Hs. inversion Hs; subst protos; clear Hs. split.
  - intros E. destruct fs; [reflexivity | discriminate].
  - intros Hne. assert (Hfs : fs <> []) by (intros ->; apply Hne; reflexivity).
    destruct (missing_edit_lines text fs Em Hfs) as (d & E & Hd & E').
    destruct (layout_anchors d Hd) as (HL & _).
    exists (length (head d)), (insertPrototypes text (map prototype fs)).
    rewrite E. split; [exact HL|]. split.
    + destruct fs; [congruence | reflexivity].
    + rewrite E'. unfold linesOf, withPrototypes.
      cbn [head includeLine area entryLine body].
      rewrite firstn_S_app_cons, skipn_S_app_cons.
      repeat rewrite <- app_assoc. cbn [app]. repeat rewrite <- app_assoc.
      reflexivity.
Qed.

Lemma autoGeneratePrototypes_only_inserts_witness :
  exists L text',
    lastIncludeLine (split_lines bThenA) = Some L /\
    autoGeneratePrototypes bThenA = Some text' /\
    split_lines text'
    = firstn (S L) (split_lines bThenA)
      ++ [] :: [str "int b(int x);"; str "int a(int  y);"]
      ++ skipn (S L) (split_lines bThenA).
Proof.
  apply (proj2 (autoGeneratePrototypes_only_inserts bThenA
                  [str "int b(int x);"; str "int a(int  y);"] eq_refl)).
  discriminate.
Defined.

Lemma autoGeneratePrototypes_settles_witness :
  autoGeneratePrototypes
    (insertPrototypes bThenA [str "int b(int x);"; str "int a(int  y);"])
  = Some (insertPrototypes bThenA [str "int b(int x);"; str "int a(int  y);"]).
Proof.
  apply (autoGeneratePrototypes_settles bThenA). reflexivity.
Defined.

(** ** A new file *)

Lemma dropWhile_nil_all f s : dropWhile f s = [] -> forallb f s = true.
Proof.
  induction s as [|c s IH]; simpl; [reflexivity|].
  destruct (f c); [exact IH | discriminate].
Qed.

Lemma trim_nil_spaces s : trim s = [] <-> spaces s.
Proof.
  split.
  - intros H. unfold trim, trimStart in H. apply dropWhile_nil_all.
    destruct (dropWhile is_space s) as [|c d] eqn:Ed; [reflexivity|].
    exfalso.
    assert (Hc : is_space c = false).
    { clear H. induction s as [|x s IH]; simpl in Ed; [discriminate|].
      destruct (is_space x) eqn:Ex; [exact (IH Ed)|]. inversion Ed; subst.
      exact Ex. }
    unfold trimEnd in H. apply (f_equal (@rev char)) in H.
    rewrite rev_involutive in H. simpl in H.
    destruct (dropWhile_last is_space (rev d) c Hc) as (d' & E).
    rewrite E in H. destruct d'; discriminate.
  - intros H. unfold trim, trimStart. rewrite dropWhile_all by exact H.
    reflexivity.
Qed.

Lemma split_lines_spaces s : spaces s -> Forall spaces (split_lines s).
Proof.
  unfold spaces. induction s as [|c s IH]; intros H; simpl.
  - repeat constructor.
  - simpl in H. apply andb_prop in H. destruct H as [Hc H].
    specialize (IH H). destruct (c =? newline)%N.
    + constructor; [reflexivity | exact IH].
    + destruct (split_lines s) as [|l ls]; [repeat constructor; simpl;
        rewrite Hc; reflexivity|].
      inversion IH; subst. constructor; [|assumption].
      simpl. rewrite Hc. assumption.
Qed.

Lemma split_lines_head c s :
  (c =? newline)%N = false ->
  exists l ls, split_lines s = l :: ls /\ split_lines (c :: s) = (c :: l) :: ls.
Proof.
  intros Hc. simpl. rewrite Hc.
  destruct (split_lines s) as [|l ls] eqn:E.
  - elim (split_lines_nonempty s E).
  - exists l, ls. auto.
Qed.

Lemma spaces_not_function line rt nm ps :
  spaces line -> ~ FunctionLine line rt nm ps.
Proof.
  intros Hs (ws0 & ws1 & ws2 & ws3 & rest & -> & _ & Hrt & _).
  destruct (basicType_letters rt Hrt) as (Hn & _ & Hne).
  unfold spaces in Hs. rewrite !forallb_app in Hs.
  apply andb_prop in Hs. destruct Hs as [_ Hs].
  apply andb_prop in Hs. destruct Hs as [Hs _].
  destruct rt as [|a rt]; [congruence|]. simpl in Hs, Hn.
  apply andb_prop in Hs. destruct Hs as [Hs _].
  apply andb_prop in Hn. destruct Hn as [Hn _].
  rewrite Hs in Hn. discriminate.
Qed.

Lemma brace_not_function w rt nm ps :
  ~ FunctionLine (str "}" ++ w) rt nm ps.
Proof.
  intros (ws0 & ws1 & ws2 & ws3 & rest & E & Hws0 & Hrt & _).
  destruct (basicType_letters rt Hrt) as (_ & Hw & Hne).
  destruct rt as [|a rt]; [congruence|].
  symmetry in E. simpl in E.
  apply (no_leading_space ws0 125%N a w) in E; [|exact Hws0|reflexivity].
  destruct E as (_ & -> & _). simpl in Hw. discriminate.
Qed.

Lemma not_function_scanLine line :
  (forall rt nm ps, ~ FunctionLine line rt nm ps) -> scanLine line = [].
Proof.
  intros H. destruct (scanLine_cases line) as [[E _]|(rt & nm & ps & HF & _)];
    [exact E | elim (H rt nm ps HF)].
Qed.

(** The lines of a blank document after the set-up. *)
Lemma setup_lines text :
  spaces text ->
  exists w rest,
    spaces w /\ Forall spaces rest /\
    split_lines (setupNewCFileFromDocument text)
    = [str "#include <stdio.h>"; str "#include <stdlib.h>"; []; [];
       str "int main() {"; [tab]; tab :: str "return 0;"; str "}" ++ w] ++ rest.
Proof.
  intros Hs. pose proof (split_lines_spaces text Hs) as Hl.
  destruct (split_lines_head 125%N text eq_refl) as (w & rest & E & E').
  rewrite E in Hl. inversion Hl; subst.
  exists w, rest. split; [assumption|]. split; [assumption|].
  unfold setupNewCFileFromDocument, initialTemplate.
  change (join_lines [str "#include <stdio.h>"; str "#include <stdlib.h>";
                      str ""; str ""; str "int main() {"; [tab];
                      tab :: str "return 0;"; str "}"])
    with (join_lines [str "#include <stdio.h>"; str "#include <stdlib.h>";
                      []; []; str "int main() {"; [tab];
                      tab :: str "return 0;"] ++ newline :: [125%N]).
  rewrite <- app_assoc. rewrite <- app_comm_cons.
  rewrite split_lines_join_app;
    [|discriminate | repeat constructor].
  change ([125%N] ++ text) with (125%N :: text). rewrite E'. reflexivity.
Qed.

(** X15. A file that has just been set up needs no further automatic
    edit: for every blank document, after the template is inserted the
    prototype generator leaves the document as it is, and no line of it
    is given a semicolon. *)
Theorem new_file_is_settled : forall text,
  trim text = [] ->
  autoGeneratePrototypes (setupNewCFile text) = Some (setupNewCFile text) /\
  forall lineNum,
    addSemicolonIfNeeded (split_lines (setupNewCFile text)) lineNum
    = split_lines (setupNewCFile text).
Proof.
  intros text Ht. unfold setupNewCFile. rewrite Ht.
  apply trim_nil_spaces in Ht.
  destruct (setup_lines text Ht) as (w & rest & Hw & Hrest & E).
  set (doc' := setupNewCFileFromDocument text) in *.
  assert (Hblank : forall l, In l rest -> trim l = []).
  { intros l Hl. apply trim_nil_spaces. rewrite Forall_forall in Hrest.
    apply Hrest. exact Hl. }
  assert (Hbrace : trim (str "}" ++ w) = str "}").
  { apply (trim_padding [] (str "}") w); [reflexivity | exact Hw]. }
  split.
  - set (d := Layout [str "#include <stdio.h>"] (str "#include <stdlib.h>")
                [[]; []] (str "int main() {")
                ([[tab]; tab :: str "return 0;"; str "}" ++ w] ++ rest)).
    assert (Hd : wellAnchored d).
    { unfold wellAnchored, d. cbn [includeLine area entryLine body].
      split; [reflexivity|]. split; [|split; reflexivity].
      cbn [app forallb]. unfold isInclude at 1 2 3 4 5 6.
      rewrite Hbrace. cbn -[forallb].
      apply forallb_forall. intros l Hl. unfold isInclude.
      rewrite (Hblank l Hl). reflexivity. }
    assert (Em : missingPrototypes doc' = Some []).
    { rewrite (missingPrototypes_layout doc' d E Hd). f_equal.
      unfold d. cbn [body area].
      replace (flat_map scanLine
                 ([[tab]; tab :: str "return 0;"; str "}" ++ w] ++ rest))
        with (@nil func); [reflexivity|].
      symmetry. apply no_function_lines. intros line rt nm ps Hl.
      cbn [app] in Hl. destruct Hl as [<-|[<-|[<-|Hl]]].
      - apply spaces_not_function. reflexivity.
      - intros HF. destruct (functionPattern_complete _ _ _ _ HF) as (p & Hm).
        assert (Hx : exec functionPattern (tab :: str "return 0;") <> None)
          by (apply (exec_from_complete _ [] [] _ _ Hm)).
        apply Hx. reflexivity.
      - apply brace_not_function.
      - apply spaces_not_function. rewrite Forall_forall in Hrest.
        apply Hrest. exact Hl. }
    unfold autoGeneratePrototypes. rewrite Em. reflexivity.
  - intros n. unfold addSemicolonIfNeeded. rewrite E.
    destruct (nth_error _ n) as [l|] eqn:El; [|reflexivity].
    replace (shouldAddSemicolon (trimEnd l)) with false; [reflexivity|].
    symmetry. unfold shouldAddSemicolon. rewrite trim_trimEnd.
    apply nth_error_In in El. cbn [app] in El.
    destruct El as [<-|[<-|[<-|[<-|[<-|[<-|[<-|[<-|Hl]]]]]]]]; try reflexivity.
    + rewrite Hbrace. reflexivity.
    + rewrite (Hblank l Hl). reflexivity.
Qed.

Lemma new_file_is_settled_witness :
  autoGeneratePrototypes (setupNewCFile (str "  "))
  = Some (setupNewCFile (str "  ")).
Proof.
  apply (proj1 (new_file_is_settled (str "  ") eq_refl)).
Defined.

(** ** The documentation command *)

Lemma run_seq r1 r2 p c k :
  run (Seq r1 r2) p c k = run r1 p c (fun p' c' => run r2 p' c' k).
Proof. reflexivity. Qed.

Lemma run_group i r p c k :
  run (Group i r) p c k
  = run r p c (fun p' c' => k p' ((i, consumed p p') :: c')).
Proof. reflexivity. Qed.

Lemma run_chr a b t c k :
  run (chr a) (Pos b (N_of_ascii a :: t)) c k = k (Pos (N_of_ascii a :: b) t) c.
Proof. simpl. rewrite N.eqb_refl. reflexivity. Qed.

Lemma run_cls_cons f x b t c k :
  run (Cls f) (Pos b (x :: t)) c k
  = if f x then k (Pos (x :: b) t) c else None.
Proof. reflexivity. Qed.

Lemma star_loop_step step n p c k :
  star_loop step (S n) p c k
  = match step p c (fun p' c' =>
            if length (after p') <? length (after p)
            then star_loop step n p' c' k else None) with
    | Some res => Some res
    | None => k p c
    end.
Proof. reflexivity. Qed.

(** The greedy star takes the longest run first. *)
Lemma star_loop_greedy f : forall l n b t c (k : cont) res,
  forallb f l = true ->
  match t with [] => True | x :: _ => f x = false end ->
  length (l ++ t) <= n ->
  k (Pos (rev l ++ b) t) c = Some res ->
  star_loop (run (Cls f)) n (Pos b (l ++ t)) c k = Some res.
Proof.
  induction l as [|x l IH]; intros n b t c k res Hl Ht Hn Hk.
  - simpl in *. destruct n as [|n]; [exact Hk|]. simpl.
    destruct t as [|y t]; [exact Hk|]. rewrite Ht. exact Hk.
  - simpl in Hl. apply andb_prop in Hl. destruct Hl as [Hx Hl].
    destruct n as [|n]; [simpl in Hn; lia|].
    rewrite star_loop_step. rewrite <- app_comm_cons, run_cls_cons, Hx.
    cbn [after].
    destruct (Nat.ltb_spec (length (l ++ t)) (length (x :: l ++ t))) as [_|Hc];
      [|simpl in Hc; lia].
    rewrite (IH n (x :: b) t c k res Hl Ht); [reflexivity | simpl in Hn; lia|].
    simpl rev in Hk. rewrite <- app_assoc in Hk. exact Hk.
Qed.

Lemma run_star_greedy f l b t c (k : cont) res :
  forallb f l = true ->
  match t with [] => True | x :: _ => f x = false end ->
  k (Pos (rev l ++ b) t) c = Some res ->
  run (Star (Cls f)) (Pos b (l ++ t)) c k = Some res.
Proof.
  intros Hl Ht Hk. cbn [run after].
  apply star_loop_greedy; auto.
Qed.

Lemma run_plus_greedy f l b t c (k : cont) res :
  l <> [] -> forallb f l = true ->
  match t with [] => True | x :: _ => f x = false end ->
  k (Pos (rev l ++ b) t) c = Some res ->
  run (Plus (Cls f)) (Pos b (l ++ t)) c k = Some res.
Proof.
  intros Hne Hl Ht Hk. destruct l as [|x l]; [congruence|].
  simpl in Hl. apply andb_prop in Hl. destruct Hl as [Hx Hl].
  unfold Plus. rewrite run_seq, <- app_comm_cons, run_cls_cons, Hx.
  apply run_star_greedy; auto.
  simpl rev in Hk. rewrite <- app_assoc in Hk. exact Hk.
Qed.

Lemma run_plus_fail f b t c k :
  match t with [] => True | x :: _ => f x = false end ->
  run (Plus (Cls f)) (Pos b t) c k = None.
Proof.
  intros Ht. unfold Plus. rewrite run_seq.
  destruct t as [|x t]; [reflexivity|]. rewrite run_cls_cons, Ht. reflexivity.
Qed.

Lemma head_app_fails (f : char -> bool) l t :
  match l with [] => True | x :: _ => f x = false end ->
  match t with [] => True | x :: _ => f x = false end ->
  match l ++ t with [] => True | x :: _ => f x = false end.
Proof. destruct l; simpl; auto. Qed.

Lemma spaces_head_not_word ws t :
  spaces ws ->
  match t with [] => True | x :: _ => is_word x = false end ->
  match ws ++ t with [] => True | x :: _ => is_word x = false end.
Proof.
  intros Hws Ht. destruct ws as [|c ws]; [exact Ht|]. simpl.
  unfold spaces in Hws. simpl in Hws. apply andb_prop in Hws.
  destruct Hws as [Hc _]. apply space_not_word. exact Hc.
Qed.

Lemma word_head_not_space w t :
  w <> [] -> forallb is_word w = true ->
  match w ++ t with [] => True | x :: _ => is_space x = false end.
Proof.
  intros Hne Hw. destruct w as [|c w]; [congruence|]. simpl in *.
  apply andb_prop in Hw. destruct Hw as [Hc _]. apply word_not_space. exact Hc.
Qed.

(** What the pattern of line 512 finds at the start of a signature. *)
Lemma docPattern_run b rt ws1 fn ws2 ps rest :
  rt <> [] -> forallb is_word rt = true ->
  ws1 <> [] -> spaces ws1 ->
  fn <> [] -> forallb is_word fn = true ->
  spaces ws2 -> no_rparen ps ->
  exists p',
    run docPattern
      (Pos b (rt ++ ws1 ++ fn ++ ws2 ++ str "(" ++ ps ++ str ")" ++ rest))
      [] accept
    = Some (p', [(3, ps); (2, fn); (1, rt)]).
Proof.
  intros Hrt Wrt Hws1 Sws1 Hfn Wfn Sws2 Hps. eexists. unfold docPattern.
  rewrite run_seq, run_group.
  apply run_plus_greedy; [exact Hrt | exact Wrt | |].
  { destruct ws1 as [|s ws1]; [congruence|]. simpl.
    unfold spaces in Sws1. simpl in Sws1. apply andb_prop in Sws1.
    destruct Sws1 as [Hs _]. apply space_not_word. exact Hs. }
  rewrite consumed_app, run_seq.
  apply run_plus_greedy; [exact Hws1 | exact Sws1 | |].
  { apply word_head_not_space; assumption. }
  rewrite run_seq, run_group.
  apply run_plus_greedy; [exact Hfn | exact Wfn | |].
  { apply spaces_head_not_word; [exact Sws2 | reflexivity]. }
  rewrite consumed_app, run_seq.
  apply run_star_greedy; [exact Sws2 | reflexivity |].
  rewrite run_seq. change (str "(" ++ ps ++ str ")" ++ rest)
    with (N_of_ascii "(" :: ps ++ N_of_ascii ")" :: rest).
  rewrite run_chr, run_seq, run_group.
  apply run_star_greedy; [exact Hps | reflexivity |].
  rewrite consumed_app, run_chr. reflexivity.
Qed.

Lemma docPattern_skips_space b x t :
  is_space x = true -> run docPattern (Pos b (x :: t)) [] accept = None.
Proof.
  intros Hx. unfold docPattern. rewrite run_seq, run_group.
  apply run_plus_fail. apply space_not_word. exact Hx.
Qed.

Lemma match_from_skips_spaces r indent : forall bef aft,
  (forall b x t, is_space x = true -> run r (Pos b (x :: t)) [] accept = None) ->
  spaces indent ->
  match_from r bef (indent ++ aft) = match_from r (rev indent ++ bef) aft.
Proof.
  induction indent as [|x ws IH]; intros bef aft Hr Hs; [reflexivity|].
  unfold spaces in Hs. simpl in Hs. apply andb_prop in Hs. destruct Hs as [Hx Hs].
  cbn [app match_from]. rewrite (Hr bef x (ws ++ aft) Hx).
  rewrite (IH (x :: bef) aft Hr Hs). simpl rev. rewrite <- app_assoc. reflexivity.
Qed.

Lemma match_docPattern indent rt ws1 fn ws2 ps rest :
  spaces indent ->
  rt <> [] -> forallb is_word rt = true ->
  ws1 <> [] -> spaces ws1 ->
  fn <> [] -> forallb is_word fn = true ->
  spaces ws2 -> no_rparen ps ->
  exists m0,
    match_ docPattern
      (indent ++ rt ++ ws1 ++ fn ++ ws2 ++ str "(" ++ ps ++ str ")" ++ rest)
    = Some (m0, [(3, ps); (2, fn); (1, rt)]).
Proof.
  intros Hi Hrt Wrt Hws1 Sws1 Hfn Wfn Sws2 Hps. unfold match_.
  rewrite (match_from_skips_spaces docPattern indent [] _
             docPattern_skips_space Hi).
  destruct (docPattern_run (rev indent ++ []) rt ws1 fn ws2 ps rest
              Hrt Wrt Hws1 Sws1 Hfn Wfn Sws2 Hps) as (p' & E).
  destruct rt as [|x rt']; [congruence|].
  cbn [app match_from] in *. rewrite E. eexists. reflexivity.
Qed.

Lemma docPattern_sound pre post p c :
  matches docPattern (Pos (rev pre) post, []) (p, c) ->
  exists rt fn ps,
    Signature (pre ++ post) pre rt fn ps /\ c = [(3, ps); (2, fn); (1, rt)].
Proof.
  unfold docPattern. intros H.
  apply matches_seq in H. destruct H as (s1 & H1 & H).
  apply matches_group in H1; [|reflexivity].
  destruct H1 as (rt & t1 & -> & Hrt & ->).
  apply matches_plus_cls in Hrt. destruct Hrt as (rt' & t1' & E1 & Hne1 & Wrt & Epos).
  pos_eq Epos. subst t1' rt'. clear E1.
  apply matches_seq in H. destruct H as (s2 & H2 & H).
  apply matches_plus_cls in H2. destruct H2 as (ws1 & t2 & -> & Hws1 & Sws1 & ->).
  apply matches_seq in H. destruct H as (s3 & H3 & H).
  apply matches_group in H3; [|reflexivity].
  destruct H3 as (fn & t3 & -> & Hfn & ->).
  apply matches_plus_cls in Hfn. destruct Hfn as (fn' & t3' & E3 & Hne3 & Wfn & Epos).
  pos_eq Epos. subst t3' fn'. clear E3.
  apply matches_seq in H. destruct H as (s4 & H4 & H).
  apply matches_star_cls in H4. destruct H4 as (ws2 & t4 & -> & Sws2 & ->).
  apply matches_seq in H. destruct H as (s5 & H5 & H).
  apply matches_chr in H5. destruct H5 as (t5 & -> & ->).
  apply matches_seq in H. destruct H as (s6 & H6 & H).
  apply matches_group in H6; [|reflexivity].
  destruct H6 as (ps & t6 & -> & Hps & ->).
  apply matches_star_cls in Hps. destruct Hps as (ps' & t6' & E6 & Hps' & Epos).
  pos_eq Epos. subst t6' ps'. clear E6.
  apply matches_chr in H. destruct H as (rest & -> & E).
  inversion E; subst p c; clear E.
  exists rt, fn, ps. split; [|reflexivity].
  exists ws1, ws2, rest. repeat split; auto.
Qed.

(** *** Splitting at commas *)

Lemma split_on_single sep l :
  forallb (fun c => negb (c =? sep)%N) l = true -> split_on sep l = [l].
Proof.
  induction l as [|c l IH]; intros Hl; [reflexivity|].
  simpl in Hl. apply andb_prop in Hl. destruct Hl as [Hc Hl].
  apply negb_true_iff in Hc. simpl. rewrite Hc, (IH Hl). reflexivity.
Qed.

Lemma split_on_piece sep l : forall s,
  forallb (fun c => negb (c =? sep)%N) l = true ->
  split_on sep (l ++ sep :: s) = l :: split_on sep s.
Proof.
  induction l as [|c l IH]; intros s Hl.
  - simpl. rewrite N.eqb_refl. reflexivity.
  - simpl in Hl. apply andb_prop in Hl. destruct Hl as [Hc Hl].
    apply negb_true_iff in Hc. simpl. rewrite Hc, (IH s Hl). reflexivity.
Qed.

Lemma join_on_cons sep l ls :
  ls <> [] -> join_on sep (l :: ls) = l ++ sep :: join_on sep ls.
Proof. destruct ls; [congruence | reflexivity]. Qed.

Lemma split_on_join sep pieces :
  pieces <> [] ->
  Forall (fun l => forallb (fun c => negb (c =? sep)%N) l = true) pieces ->
  split_on sep (join_on sep pieces) = pieces.
Proof.
  induction pieces as [|l ls IH]; intros Hne Hls; [congruence|].
  inversion Hls; subst. destruct ls as [|l' ls].
  - apply split_on_single. assumption.
  - rewrite join_on_cons by discriminate.
    rewrite split_on_piece by assumption.
    rewrite IH by (discriminate || assumption). reflexivity.
Qed.

Lemma forallb_weaken (f g : char -> bool) s :
  (forall c, f c = true -> g c = true) ->
  forallb f s = true -> forallb g s = true.
Proof.
  intros Hfg. induction s as [|c s IH]; simpl; [reflexivity|].
  intros H. apply andb_prop in H. destruct H as [Hc Hs].
  rewrite (Hfg c Hc), (IH Hs). reflexivity.
Qed.

Lemma inside_list_no_comma s :
  inside_list s -> forallb (fun c => negb (c =? comma)%N) s = true.
Proof.
  apply forallb_weaken. intros c H. apply andb_prop in H. tauto.
Qed.

Lemma inside_list_no_rparen s : inside_list s -> no_rparen s.
Proof.
  apply forallb_weaken. intros c H. apply andb_prop in H. destruct H as [_ H].
  simpl. rewrite orb_false_r. exact H.
Qed.

Lemma inside_list_join pieces :
  Forall inside_list pieces -> no_rparen (join_on comma pieces).
Proof.
  induction pieces as [|l ls IH]; intros H; [reflexivity|].
  inversion H; subst. destruct ls as [|l' ls].
  - apply inside_list_no_rparen. assumption.
  - rewrite join_on_cons by discriminate. unfold no_rparen.
    rewrite forallb_app. apply andb_true_intro. split.
    + apply inside_list_no_rparen. assumption.
    + change (forallb ?f (comma :: ?s)) with (forallb f s).
      apply IH. assumption.
Qed.

(** *** Splitting at white space *)

Lemma split_loop_step r fuel bef piece x t :
  split_loop r (S fuel) bef piece (x :: t)
  = match run r (Pos bef (x :: t)) [] accept with
    | Some (p', _) =>
        if (length (after p') =? length (x :: t))%nat
           && match piece with [] => true | _ :: _ => false end
        then split_loop r fuel (x :: bef) (x :: piece) t
        else rev piece :: split_loop r fuel (before p') [] (after p')
    | None => split_loop r fuel (x :: bef) (x :: piece) t
    end.
Proof. reflexivity. Qed.

Lemma split_loop_nonempty r fuel : forall bef piece aft,
  split_loop r fuel bef piece aft <> [].
Proof.
  induction fuel as [|fuel IH]; intros bef piece aft; [discriminate|].
  destruct aft as [|x t]; [discriminate|]. rewrite split_loop_step.
  destruct (run r _ _ _) as [[p' c']|]; [|apply IH].
  destruct (_ && _); [apply IH | discriminate].
Qed.

Lemma last_cons (l : list jsstring) x d : l <> [] -> last (x :: l) d = last l d.
Proof. destruct l; [congruence | reflexivity]. Qed.

Lemma dropWhile_head f s :
  match dropWhile f s with [] => True | x :: _ => f x = false end.
Proof.
  induction s as [|c s IH]; simpl; [exact I|].
  destruct (f c) eqn:E; [exact IH | exact E].
Qed.

Lemma lastToken_skip sp rest :
  spaces sp -> lastToken [] (sp ++ rest) = lastToken [] rest.
Proof.
  induction sp as [|s sp IH]; intros H; [reflexivity|].
  unfold spaces in H. simpl in H. apply andb_prop in H. destruct H as [Hs H].
  simpl. rewrite Hs. apply IH. exact H.
Qed.

Lemma split_loop_last : forall fuel bef piece aft,
  length aft <= fuel ->
  last (split_loop (Plus space) fuel bef piece aft) [] = lastToken piece aft.
Proof.
  induction fuel as [|fuel IH]; intros bef piece aft Hn.
  - destruct aft; [|simpl in Hn; lia]. simpl. apply app_nil_r.
  - destruct aft as [|x t]; [reflexivity|]. simpl in Hn.
    rewrite split_loop_step. cbn [lastToken].
    destruct (is_space x) eqn:Hx.
    + destruct (dropWhile_split is_space t) as (sp & Hsp & E).
      pose proof (dropWhile_head is_space t) as Hd.
      set (rest := dropWhile is_space t) in *.
      assert (R : run (Plus space) (Pos bef (x :: t)) [] accept
                  = Some (Pos (rev (x :: sp) ++ bef) rest, [])).
      { rewrite E. change (x :: sp ++ rest) with ((x :: sp) ++ rest).
        apply run_plus_greedy; [discriminate | | exact Hd | reflexivity].
        simpl. rewrite Hx. exact Hsp. }
      rewrite R. cbn [after before].
      assert (L : (length rest =? length (x :: t))%nat = false).
      { apply Nat.eqb_neq. rewrite E. simpl. rewrite length_app. lia. }
      rewrite L. cbn [andb].
      rewrite last_cons by apply split_loop_nonempty.
      rewrite IH by (rewrite E, length_app in Hn; lia).
      rewrite <- (lastToken_skip sp rest Hsp), <- E. reflexivity.
    + change space with (Cls is_space). rewrite run_plus_fail by exact Hx.
      apply IH. lia.
Qed.

Lemma paramNameOf_lastToken p : paramNameOf p = lastToken [] p.
Proof.
  unfold paramNameOf, popOrEmpty, split_regex. destruct p as [|x t].
  - reflexivity.
  - apply split_loop_last. simpl. lia.
Qed.

Lemma lastToken_name nm : forall acc,
  no_space nm -> lastToken acc nm = rev acc ++ nm.
Proof.
  induction nm as [|x nm IH]; intros acc H; simpl.
  - symmetry. apply app_nil_r.
  - unfold no_space in H. simpl in H. apply andb_prop in H.
    destruct H as [Hx H]. apply negb_true_iff in Hx. rewrite Hx.
    rewrite (IH (x :: acc) H). simpl. rewrite <- app_assoc. reflexivity.
Qed.

Lemma lastToken_after_space a : forall acc s t,
  is_space s = true -> no_space t -> lastToken acc (a ++ s :: t) = t.
Proof.
  induction a as [|y a IH]; intros acc s t Hs Ht; simpl.
  - rewrite Hs. apply (lastToken_name t [] Ht).
  - destruct (is_space y); apply IH; assumption.
Qed.

Lemma lastToken_no_space aft : forall acc,
  no_space acc -> no_space (lastToken acc aft).
Proof.
  induction aft as [|x t IH]; intros acc H; simpl.
  - unfold no_space. rewrite forallb_rev. exact H.
  - destruct (is_space x) eqn:Hx.
    + apply IH. reflexivity.
    + apply IH. unfold no_space. simpl. rewrite Hx. exact H.
Qed.

Lemma no_space_oneLine s : no_space s -> oneLine s.
Proof.
  apply forallb_weaken. intros c H. apply negb_true_iff in H.
  destruct (c =? newline)%N eqn:E; [|reflexivity].
  apply N.eqb_eq in E. subst c. discriminate.
Qed.

Lemma word_oneLine s : forallb is_word s = true -> oneLine s.
Proof.
  apply forallb_weaken. intros c H.
  destruct (c =? newline)%N eqn:E; [|reflexivity].
  apply N.eqb_eq in E. subst c. discriminate.
Qed.

(** The name that the command takes from a parameter as written. *)
Lemma paramNameOf_written piece name :
  WrittenParameter piece name ->
  trim piece <> [] /\ paramNameOf (trim piece) = name.
Proof.
  intros (pre & trail & -> & Hpre & Htrail & Hne & Hnm & _).
  rewrite (app_assoc pre name trail).
  pose proof (trim_padding [] (pre ++ name) trail eq_refl Htrail) as P.
  cbn [app] in P. rewrite P. clear P.
  destruct (exists_last Hne) as (nm' & z & En).
  assert (Hz : is_space z = false).
  { unfold no_space in Hnm. rewrite En, forallb_app in Hnm.
    apply andb_prop in Hnm. destruct Hnm as [_ Hz]. simpl in Hz.
    rewrite andb_true_r in Hz. apply negb_true_iff in Hz. exact Hz. }
  destruct (dropWhile_last is_space (pre ++ nm') z Hz) as (d & Ed).
  assert (T : trim (pre ++ name) = dropWhile is_space (pre ++ name)).
  { unfold trim, trimStart. rewrite En, app_assoc, Ed.
    apply trimEnd_fixed. exact Hz. }
  rewrite T. split.
  - rewrite En, app_assoc, Ed. destruct d; discriminate.
  - rewrite paramNameOf_lastToken.
    destruct (dropWhile_split is_space (pre ++ name)) as (sp & Hsp & E).
    rewrite <- (lastToken_skip sp _ Hsp), <- E.
    destruct Hpre as [->|(p & s & -> & Hs)].
    + apply (lastToken_name name [] Hnm).
    + rewrite <- app_assoc. apply lastToken_after_space; assumption.
Qed.

Lemma trim_nil : trim [] = [].
Proof. reflexivity. Qed.

Lemma parameterListOf_written pieces names :
  Forall2 WrittenParameter pieces names ->
  map paramNameOf (parameterListOf (join_on comma pieces)) = names.
Proof.
  intros H. unfold parameterListOf.
  destruct pieces as [|l ls].
  - inversion H; subst. reflexivity.
  - change 44%N with comma. rewrite split_on_join; [|discriminate|].
    + induction H as [|piece name ps ns Hp _ IH]; [reflexivity|].
      destruct (paramNameOf_written piece name Hp) as [Hne En].
      cbn [map filter]. destruct (trim piece) eqn:Et; [congruence|].
      cbn [isEmpty negb map]. rewrite En, IH. reflexivity.
    + clear -H. induction H as [|piece name ps ns Hp _ IH]; constructor; auto.
      destruct Hp as (? & ? & _ & _ & _ & _ & _ & Hin).
      apply inside_list_no_comma. exact Hin.
Qed.

Lemma written_no_rparen pieces names :
  Forall2 WrittenParameter pieces names -> no_rparen (join_on comma pieces).
Proof.
  intros H. apply inside_list_join.
  induction H as [|piece name ps ns Hp _ IH]; constructor; auto.
  destruct Hp as (? & ? & _ & _ & _ & _ & _ & Hin). exact Hin.
Qed.

(** *** The comment as lines *)

Lemma unlines_app a b : unlines (a ++ b) = unlines a ++ unlines b.
Proof. unfold unlines. rewrite map_app. apply concat_app. Qed.

Lemma unlines_cons l ls : unlines (l :: ls) = l ++ newline :: unlines ls.
Proof.
  unfold unlines. cbn [map concat]. rewrite <- app_assoc. reflexivity.
Qed.

Lemma unlines_params plist :
  concat (map paramDoc plist)
  = unlines (map (fun nm => str " * @param " ++ nm ++ str " Description of " ++ nm)
               (map paramNameOf plist)).
Proof.
  induction plist as [|p ps IH]; [reflexivity|].
  cbn [map concat]. unfold unlines in *. cbn [map concat]. rewrite <- IH.
  f_equal. unfold paramDoc. repeat rewrite <- app_assoc. reflexivity.
Qed.

Lemma documentationFor_unlines text d :
  documentationFor text = Some d ->
  exists m0 c,
    match_ docPattern text = Some (m0, c) /\
    d = unlines (commentLines (group 1 c) (group 2 c)
                   (map paramNameOf (parameterListOf (group 3 c)))).
Proof.
  unfold documentationFor. destruct (match_ docPattern text) as [[m0 c]|];
    [|discriminate].
  intros E. inversion E; subst d; clear E. exists m0, c. split; [reflexivity|].
  cbv zeta. unfold commentLines. rewrite !unlines_app, <- unlines_params.
  destruct (JS.eqb (group 1 c) (str "void")); cbn [negb];
    rewrite !unlines_cons; change (unlines []) with (@nil char);
    simpl; repeat (rewrite <- app_assoc; simpl); reflexivity.
Qed.

(** X17. On a line that holds, after its indentation, a return type, a
    function name and a parenthesised list of parameters, the
    documentation command writes one [@param] line per parameter with
    the last word of the parameter as its name, and a [@return] line
    unless the return type is [void]. *)
Theorem documentationFor_signature :
  forall text indent returnType functionName pieces names,
  spaces indent ->
  Signature text indent returnType functionName (join_on comma pieces) ->
  Forall2 WrittenParameter pieces names ->
  documentationFor text
  = Some (unlines (commentLines returnType functionName names)).
Proof.
  intros text indent rt fn pieces names Hi
         (ws1 & ws2 & rest & -> & Hrt & Wrt & Hws1 & Sws1 & Hfn & Wfn & Sws2 & Hps)
         Hnames.
  destruct (match_docPattern indent rt ws1 fn ws2 (join_on comma pieces) rest
              Hi Hrt Wrt Hws1 Sws1 Hfn Wfn Sws2 Hps) as (m0 & M).
  destruct (documentationFor _) as [d|] eqn:E.
  - apply documentationFor_unlines in E. destruct E as (m0' & c' & Em & ->).
    rewrite M in Em. inversion Em; subst m0' c'; clear Em.
    unfold group. cbn [capture Nat.eqb].
    rewrite (parameterListOf_written pieces names Hnames). reflexivity.
  - unfold documentationFor in E. rewrite M in E. discriminate.
Qed.

Lemma documentationFor_signature_witness :
  documentationFor (str "  int add(int a, char *s) {")
  = Some (unlines (commentLines (str "int") (str "add") [str "a"; str "*s"])).
Proof.
  apply (documentationFor_signature _ (str "  ") (str "int") (str "add")
           [str "int a"; str " char *s"] [str "a"; str "*s"]).
  - reflexivity.
  - exists (str " "), [], (str " {").
    repeat split; try reflexivity; discriminate.
  - constructor; [|constructor; [|constructor]].
    + exists (str "int "), []. split; [reflexivity|]. split.
      * right. exists (str "int"), 32%N. split; reflexivity.
      * repeat split; try reflexivity; discriminate.
    + exists (str " char "), []. split; [reflexivity|]. split.
      * right. exists (str " char"), 32%N. split; reflexivity.
      * repeat split; try reflexivity; discriminate.
Defined.

(** X18. The documentation command leaves the document alone exactly when
    the line of the cursor holds no signature: a word, white space, a
    word, optional white space and a parenthesised text without a
    closing parenthesis inside. *)
Theorem generateFunctionDoc_needs_signature :
  forall document n text,
  nth_error (split_lines document) n = Some text ->
  (generateFunctionDoc document n = None <->
   ~ exists pre returnType functionName ps,
       Signature text pre returnType functionName ps).
Proof.
  intros document n text Hn. unfold generateFunctionDoc. rewrite Hn.
  unfold documentationFor.
  destruct (match_ docPattern text) as [[m0 c]|] eqn:M.
  - split; [discriminate|]. intros Hno. exfalso. apply Hno.
    apply match_from_sound in M. destruct M as (pre & post & p' & -> & Hm & _).
    rewrite app_nil_r in Hm. apply docPattern_sound in Hm.
    destruct Hm as (rt & fn & ps & HS & _). exists pre, rt, fn, ps. exact HS.
  - split; [|reflexivity]. intros _ (pre & rt & fn & ps & ws1 & ws2 & rest & E &
      Hrt & Wrt & Hws1 & Sws1 & Hfn & Wfn & Sws2 & Hps).
    destruct (docPattern_run (rev pre ++ []) rt ws1 fn ws2 ps rest
                Hrt Wrt Hws1 Sws1 Hfn Wfn Sws2 Hps) as (p' & R).
    apply run_accept_sound in R.
    apply (match_from_complete docPattern pre [] _ _ R).
    rewrite <- E. exact M.
Qed.

Lemma generateFunctionDoc_needs_signature_witness :
  generateFunctionDoc (str "int total;") 0 = None <->
  ~ exists pre returnType functionName ps,
      Signature (str "int total;") pre returnType functionName ps.
Proof.
  apply (generateFunctionDoc_needs_signature (str "int total;") 0 (str "int total;")).
  reflexivity.
Defined.

Lemma unlines_join block : forall rest,
  rest <> [] -> unlines block ++ join_lines rest = join_lines (block ++ rest).
Proof.
  induction block as [|l block IH]; intros rest Hne; [reflexivity|].
  rewrite unlines_cons, <- app_comm_cons.
  rewrite join_lines_cons by (destruct block; [exact Hne | discriminate]).
  rewrite <- IH by exact Hne. rewrite <- app_assoc. reflexivity.
Qed.

Lemma commentLines_oneLine rt fn names :
  forallb is_word fn = true -> Forall no_space names ->
  Forall oneLine (commentLines rt fn names).
Proof.
  intros Hfn Hnames. unfold commentLines.
  repeat (apply Forall_app; split).
  - repeat constructor. apply oneLine_app. split; [reflexivity|].
    apply word_oneLine. exact Hfn.
  - apply Forall_map. apply (Forall_impl _ (P := no_space)); [|exact Hnames].
    intros nm Hnm. apply no_space_oneLine in Hnm.
    repeat (apply oneLine_app; split); auto; reflexivity.
  - destruct (JS.eqb rt (str "void")); repeat constructor.
  - repeat constructor.
Qed.

Lemma paramNames_no_space plist : Forall no_space (map paramNameOf plist).
Proof.
  apply Forall_map. apply Forall_forall. intros p _.
  rewrite paramNameOf_lastToken. apply lastToken_no_space. reflexivity.
Qed.

(** X19. Where the documentation command edits the document, the lines
    of the document are all kept, in their order, and the comment stands
    as whole lines right above the line of the cursor; its brief line
    names the function of the signature found on that line. *)
Theorem generateFunctionDoc_inserts_comment_lines :
  forall document n document',
  generateFunctionDoc document n = Some document' ->
  exists text pre returnType functionName ps,
    nth_error (split_lines document) n = Some text /\
    Signature text pre returnType functionName ps /\
    split_lines document'
    = firstn n (split_lines document)
      ++ commentLines returnType functionName
           (map paramNameOf (parameterListOf ps))
      ++ skipn n (split_lines document).
Proof.
  intros document n document'. unfold generateFunctionDoc.
  destruct (nth_error (split_lines document) n) as [text|] eqn:Hn; [|discriminate].
  destruct (documentationFor text) as [d|] eqn:Hd; [|discriminate].
  intros E. inversion E; subst document'; clear E.
  apply documentationFor_unlines in Hd. destruct Hd as (m0 & c & M & ->).
  apply match_from_sound in M. destruct M as (pre & post & p' & -> & Hm & _).
  rewrite app_nil_r in Hm. apply docPattern_sound in Hm.
  destruct Hm as (rt & fn & ps & HS & ->).
  unfold group. cbn [capture Nat.eqb].
  exists (pre ++ post), pre, rt, fn, ps. split; [reflexivity|]. split; [exact HS|].
  set (block := commentLines rt fn (map paramNameOf (parameterListOf ps))).
  assert (Hb : Forall oneLine block).
  { destruct HS as (? & ? & ? & _ & _ & _ & _ & _ & _ & Wfn & _).
    apply commentLines_oneLine; [exact Wfn | apply paramNames_no_space]. }
  pose proof (split_lines_oneLine document) as Hls.
  apply nth_error_split in Hn. destruct Hn as (hd & tl & El & Eh).
  rewrite <- (join_split document) at 1. rewrite El in *. subst n.
  apply Forall_app in Hls. destruct Hls as [Hhd Htl].
  assert (Hne : (pre ++ post) :: tl <> []) by discriminate.
  pose proof (insertAtLine_join hd (unlines block) ((pre ++ post) :: tl) Hhd Hne)
    as P.
  apply (f_equal split_lines) in P. etransitivity; [exact P|]. clear P.
  rewrite firstn_app, Nat.sub_diag, firstn_all, app_nil_r.
  rewrite skipn_app, Nat.sub_diag, skipn_all, app_nil_l.
  cbn [firstn skipn].
  rewrite unlines_join by discriminate.
  destruct hd as [|l hd].
  - apply split_join.
    + unfold block, commentLines. discriminate.
    + apply Forall_app. split; [constructor|].
      apply Forall_app. split; assumption.
  - rewrite <- join_lines_app;
      [|discriminate | unfold block, commentLines; discriminate].
    apply split_join; [discriminate|].
    apply Forall_app. split; [assumption|]. apply Forall_app. split; assumption.
Qed.

Lemma generateFunctionDoc_inserts_comment_lines_witness :
  exists text pre returnType functionName ps,
    nth_error (split_lines (Examples.doc ["int x;"; "void f(void)"; "{"]%string)) 1
    = Some text /\
    Signature text pre returnType functionName ps /\
    split_lines (Examples.doc
      ["int x;"; "/**"; " * @brief Brief description of f"; " *";
       " * @param void Description of void"; " */"; "void f(void)"; "{"]%string)
    = firstn 1 (split_lines (Examples.doc ["int x;"; "void f(void)"; "{"]%string))
      ++ commentLines returnType functionName
           (map paramNameOf (parameterListOf ps))
      ++ skipn 1 (split_lines (Examples.doc ["int x;"; "void f(void)"; "{"]%string)).
Proof.
  apply (generateFunctionDoc_inserts_comment_lines
           (Examples.doc ["int x;"; "void f(void)"; "{"]%string) 1).
  reflexivity.
Defined.
